(** * Eco Jump: a shallow embedding of the simulation core of [main.py]

    The development follows the layout of the Python source: configuration
    constants, utilities, the entity classes ([Player], [Platform], [Enemy],
    [Bonus]), the world generator ([World]), the quiz ([QuizUI]) and the
    game-flow controller ([Game]).  Rendering (every [draw] method, the
    parallax layers, fonts, [anim_t], [facing], [menu_t]) is left out: it
    never feeds back into the simulation.

    Numbers.  Python [int]s are [Z].  Python [float]s are rationals [Q];
    [int(f)] is truncation toward zero ([py_int]).  [math.sin] is a
    parameter [sin : Q -> Q] of the functions that call it, so every
    statement holds whatever values the library returns.

    Rounding.  [b64] rounds a rational to the nearest binary64 number, ties
    to even, which is what every float literal and every float operation
    of Python does.  It is applied wherever the sign of a float or its
    order against another float decides what the program does next and
    the float is the result of arithmetic: the energy, which is tested with
    [energy <= 0], is a double throughout (every operation that writes it
    rounds), and the band edges and chances that [World] and the spawn
    loop compare with a random draw are the doubles the code computes
    from the score ([World.progress_factor64], [World.enemy_spawn_chance64]
    and the edges written with [b64], [fsub] and [fmul]).  Velocities,
    fade, phases and the speed factor are kept in real arithmetic, on
    [World.progress_factor], which is within 2^-51 of its double.  For the
    score this loses nothing: the double nearest to 0.06 is below 0.06 by
    a relative 3.7e-17, less than half a unit in the last place, so
    [ascended_px * 0.06] rounds to the exact product whenever that product
    is an integer, and is at least 0.02 away from an integer otherwise.

    Randomness.  Both generators (the module-level [random] and
    [World.rng]) are streams of raw draws with a cursor ([Random.t]); every
    statement is quantified over the streams.

    Object identity.  [Player.last_safe_platform] is a reference to a
    [Platform] object that the sprite groups may drop at any time.  Every
    platform carries an identifier handed out by the game at construction,
    the player stores the identifier, and [alive()] is membership in
    [Game.platforms]. *)

From Stdlib Require Import ZArith QArith Qround Qminmax Qabs Qpower.
From Stdlib Require Import List Bool Lia Lqa.
From Stdlib Require Import Permutation Sorted.
Import ListNotations.

Open Scope Z_scope.

(* ------------------------------------------------------------------------- *)
(** ** Config and constants *)
(* ------------------------------------------------------------------------- *)

Definition WIDTH : Z := 460.
Definition HEIGHT : Z := 720.
Definition FPS : Z := 60.

(** [int(f)] on a float: truncation toward zero. *)
Definition py_int (q : Q) : Z :=
  if Qle_bool 0 q then Qfloor q else Qceiling q.

Definition Qlt_bool (a b : Q) : bool := negb (Qle_bool b a).

(** Binary64.  [rne] rounds to the nearest integer, ties to even; [ilog2 x]
    is the integer part of the base-2 logarithm of a positive [x];
    [round_pos a] rounds a positive [a] to 53 significant bits, or to a
    multiple of 2^-1074 when [a] is below the normal range.  No operation
    of the program comes near the largest double, so overflow is left
    out. *)
Definition rne (x : Q) : Z :=
  let f := Qfloor x in
  match Qcompare (x - inject_Z f) (1 # 2) with
  | Lt => f
  | Gt => f + 1
  | Eq => if Z.even f then f else f + 1
  end.

Definition pow2 (e : Z) : Q := Qpower 2 e.

Definition ilog2 (x : Q) : Z :=
  let l := Z.log2 (Qnum x) - Z.log2 (Zpos (Qden x)) in
  if Qle_bool (pow2 l) x then l else l - 1.

Definition round_pos (a : Q) : Q :=
  let e := Z.max (ilog2 a - 52) (-1074) in
  (inject_Z (rne (a / pow2 e)) * pow2 e)%Q.

Definition b64 (x : Q) : Q :=
  if Qeq_bool x 0 then 0%Q
  else if Qle_bool 0 x then Qred (round_pos x)
  else Qred (- round_pos (- x)).

(** The float operations [+], [-], [*] and [/]. *)
Definition fadd (a b : Q) : Q := b64 (a + b).
Definition fsub (a b : Q) : Q := b64 (a - b).
Definition fmul (a b : Q) : Q := b64 (a * b).
Definition fdiv (a b : Q) : Q := b64 (a / b).

(** Rounding is unfolded last when two terms are compared. *)
Strategy 100 [b64 fadd fsub fmul fdiv].

Definition GRAVITY : Q := 0.50.
Definition PLAYER_MOVE_SPEED : Q := 6.2.
Definition PLAYER_JUMP_VEL : Q := - 14.0.
Definition PLAYER_W : Z := 50.
Definition PLAYER_H : Z := 50.
Definition SCROLL_TRIGGER_Y : Z := py_int (inject_Z HEIGHT * 0.40)%Q.

Definition INITIAL_ENERGY : Q := 100.0.
Definition PASSIVE_ENERGY_DRAIN : Q := b64 0.048.
Definition ENEMY_HIT_ENERGY_LOSS : Q := 22.0.
Definition ENERGY_FROM_SOLAR : Q := 14.0.
Definition ENERGY_FROM_WIND : Q := 7.0.
Definition ENERGY_FROM_HYDRO : Q := 9.0.
Definition ENERGY_FROM_CELL : Q := 22.0.

Definition DUR_LED : Z := py_int (14 * inject_Z FPS)%Q.
Definition DUR_SHIELD : Z := py_int (12 * inject_Z FPS)%Q.
Definition DUR_JET : Z := py_int (2.0 * inject_Z FPS)%Q.
Definition DUR_INVINCIBLE : Z := py_int (2.0 * inject_Z FPS)%Q.

Definition PLATFORM_W : Z := 104.
Definition PLATFORM_H : Z := 16.
Definition SPAWN_MIN_GAP : Z := 90.
Definition SPAWN_MAX_GAP : Z := 170.
Definition SPAWN_X_MARGIN : Z := 24.
Definition MAX_PLATFORMS_ON_SCREEN : nat := 22.

Definition ENEMY_BASE_SPAWN_CHANCE : Q := 0.06.
Definition ENEMY_PATROL_SPEED : Q := 1.3.
Definition ENEMY_SINE_SPEED : Q := 0.03.
Definition ENEMY_CHASER_SPEED : Q := 2.0.

Definition BONUS_CHANCE_BASE : Q := 0.22.

Inductive State : Set :=
| STATE_MENU | STATE_PLAY | STATE_PAUSE | STATE_QUIZ | STATE_GAMEOVER.

Inductive PlatformKind : Set :=
| P_NORMAL | P_SOLAR | P_WIND | P_HYDRO | P_MOVING | P_BREAKING
| P_DISAPPEARING | P_SPRING.

Inductive EnemyKind : Set := E_BULB | E_PIPE | E_SMOKE | E_CHASER.

Inductive BonusKind : Set := B_CELL | B_LED | B_SHIELD | B_JET | B_SPRING.

(* ------------------------------------------------------------------------- *)
(** ** Utilities *)
(* ------------------------------------------------------------------------- *)

(** [clamp(v, lo, hi) = max(lo, min(hi, v))].  [Qmax a b] returns [a]
    unless [a < b] and [Qmin a b] returns [a] unless [b < a], which is what
    Python's [max] and [min] do on two arguments. *)
Definition clamp (v lo hi : Q) : Q := Qmax lo (Qmin hi v).

Definition clampZ (v lo hi : Z) : Z := Z.max lo (Z.min hi v).

Definition lerp (a b t : Q) : Q := (a + (b - a) * t)%Q.

(** Keyboard snapshot, as far as the simulation reads it. *)
Record Keys : Set := mkKeys
  { K_LEFT : bool; K_a : bool; K_RIGHT : bool; K_d : bool }.

(* ------------------------------------------------------------------------- *)
(** ** pygame.Rect

    Integer rectangles; every rectangle of the game has a fixed positive
    size, for which [colliderect] is the strict overlap test below. *)
(* ------------------------------------------------------------------------- *)

Module Rect.
Record t : Set := mk { x : Z; y : Z; w : Z; h : Z }.

Definition left (r : t) : Z := x r.
Definition top (r : t) : Z := y r.
Definition right (r : t) : Z := x r + w r.
Definition bottom (r : t) : Z := y r + h r.
Definition centerx (r : t) : Z := x r + w r / 2.
Definition centery (r : t) : Z := y r + h r / 2.

Definition set_x (v : Z) (r : t) : t := mk v (y r) (w r) (h r).
Definition set_y (v : Z) (r : t) : t := mk (x r) v (w r) (h r).
Definition set_left (v : Z) (r : t) : t := set_x v r.
Definition set_top (v : Z) (r : t) : t := set_y v r.
Definition set_right (v : Z) (r : t) : t := set_x (v - w r) r.
Definition set_bottom (v : Z) (r : t) : t := set_y (v - h r) r.
Definition set_center (cx cy : Z) (r : t) : t :=
  mk (cx - w r / 2) (cy - h r / 2) (w r) (h r).

(** [Surface((w, h)).get_rect(center=(cx, cy))] and
    [get_rect(topleft=(x, y))]. *)
Definition of_center (w0 h0 cx cy : Z) : t :=
  set_center cx cy (mk 0 0 w0 h0).
Definition of_topleft (w0 h0 x0 y0 : Z) : t := mk x0 y0 w0 h0.

Definition colliderect (a b : t) : bool :=
  (left a <? right b) && (top a <? bottom b) &&
  (left b <? right a) && (top b <? bottom a).
End Rect.

(* ------------------------------------------------------------------------- *)
(** ** Random sources

    [raw] is the stream of draws and [pos] the cursor.  [random()] is a
    multiple of 2^-53 in [0, 1); [randint a b] is used with [a <= b] only;
    [choice] is used on non-empty sequences only. *)
(* ------------------------------------------------------------------------- *)

Module Random.
Record t : Type := mk { raw : nat -> N; pos : nat }.

Definition next (r : t) : N * t := (raw r (pos r), mk (raw r) (S (pos r))).

Definition random (r : t) : Q * t :=
  let (n, r') := next r in
  (Qmake (Z.of_N (n mod 2 ^ 53)) (2 ^ 53), r').

Definition randint (a b : Z) (r : t) : Z * t :=
  let (n, r') := next r in
  (a + Z.of_N n mod (b - a + 1), r').

Definition choice {A : Type} (d : A) (l : list A) (r : t) : A * t :=
  let (n, r') := next r in
  (nth (N.to_nat n mod length l) l d, r').
End Random.

(* ------------------------------------------------------------------------- *)
(** ** Entities *)
(* ------------------------------------------------------------------------- *)

Module Platform.
Record t : Set := mk
  { ident : nat;            (* object identity *)
    kind : PlatformKind;
    rect : Rect.t;
    active : bool;
    fade : Q;
    phase : Q;
    start_x : Z }.

(** [Platform(x, y, kind)]; [r] is the [random.random()] draw of the
    constructor. *)
Definition init (id : nat) (r : Q) (x y : Z) (k : PlatformKind) : t :=
  mk id k (Rect.of_topleft PLATFORM_W PLATFORM_H x y) true 1.0 (r * 10.0) x.

Definition set_start_x (x : Z) (p : t) : t :=
  mk (ident p) (kind p) (rect p) (active p) (fade p) (phase p) x.

Definition set_rect (r : Rect.t) (p : t) : t :=
  mk (ident p) (kind p) r (active p) (fade p) (phase p) (start_x p).

Definition set_active (b : bool) (p : t) : t :=
  mk (ident p) (kind p) (rect p) b (fade p) (phase p) (start_x p).

Definition set_fade (f : Q) (p : t) : t :=
  mk (ident p) (kind p) (rect p) (active p) f (phase p) (start_x p).

Definition set_phase (f : Q) (p : t) : t :=
  mk (ident p) (kind p) (rect p) (active p) (fade p) f (start_x p).

Definition is_kind (k : PlatformKind) (p : t) : bool :=
  match k, kind p with
  | P_NORMAL, P_NORMAL | P_SOLAR, P_SOLAR | P_WIND, P_WIND
  | P_HYDRO, P_HYDRO | P_MOVING, P_MOVING | P_BREAKING, P_BREAKING
  | P_DISAPPEARING, P_DISAPPEARING | P_SPRING, P_SPRING => true
  | _, _ => false
  end.

(** Moving platforms oscillate horizontally. *)
Definition update (sin : Q -> Q) (moving_speed_factor : Q) (p : t) : t :=
  if is_kind P_MOVING p && active p then
    let ph := (phase p + 0.02 * moving_speed_factor)%Q in
    let offset := py_int (sin ph * 80)%Q in
    set_rect (Rect.set_x (start_x p + offset) (rect p)) (set_phase ph p)
  else p.
End Platform.

Module Player.
Record t : Set := mk
  { rect : Rect.t;
    prev_rect : Rect.t;
    vel_x : Q;
    vel_y : Q;
    energy : Q;
    lives : Z;
    score : Z;
    drain_slow : Z;
    shield : Z;
    jet : Z;
    invincible : Z;
    last_safe_platform : option nat }.

(** [Player(x, y, lives)]. *)
Definition init (x y : Z) (lives0 : Z) : t :=
  let r := Rect.of_center PLAYER_W PLAYER_H x y in
  mk r r 0 0 INITIAL_ENERGY lives0 0 0 0 0 0 None.

Definition set_rect (r : Rect.t) (p : t) : t :=
  mk r (prev_rect p) (vel_x p) (vel_y p) (energy p) (lives p) (score p)
     (drain_slow p) (shield p) (jet p) (invincible p) (last_safe_platform p).

Definition set_vel_x (v : Q) (p : t) : t :=
  mk (rect p) (prev_rect p) v (vel_y p) (energy p) (lives p) (score p)
     (drain_slow p) (shield p) (jet p) (invincible p) (last_safe_platform p).

Definition set_vel_y (v : Q) (p : t) : t :=
  mk (rect p) (prev_rect p) (vel_x p) v (energy p) (lives p) (score p)
     (drain_slow p) (shield p) (jet p) (invincible p) (last_safe_platform p).

Definition set_energy (e : Q) (p : t) : t :=
  mk (rect p) (prev_rect p) (vel_x p) (vel_y p) e (lives p) (score p)
     (drain_slow p) (shield p) (jet p) (invincible p) (last_safe_platform p).

Definition set_lives (l : Z) (p : t) : t :=
  mk (rect p) (prev_rect p) (vel_x p) (vel_y p) (energy p) l (score p)
     (drain_slow p) (shield p) (jet p) (invincible p) (last_safe_platform p).

Definition set_score (s : Z) (p : t) : t :=
  mk (rect p) (prev_rect p) (vel_x p) (vel_y p) (energy p) (lives p) s
     (drain_slow p) (shield p) (jet p) (invincible p) (last_safe_platform p).

Definition set_drain_slow (n : Z) (p : t) : t :=
  mk (rect p) (prev_rect p) (vel_x p) (vel_y p) (energy p) (lives p)
     (score p) n (shield p) (jet p) (invincible p) (last_safe_platform p).

Definition set_shield (n : Z) (p : t) : t :=
  mk (rect p) (prev_rect p) (vel_x p) (vel_y p) (energy p) (lives p)
     (score p) (drain_slow p) n (jet p) (invincible p)
     (last_safe_platform p).

Definition set_jet (n : Z) (p : t) : t :=
  mk (rect p) (prev_rect p) (vel_x p) (vel_y p) (energy p) (lives p)
     (score p) (drain_slow p) (shield p) n (invincible p)
     (last_safe_platform p).

(** The horizontal part of [update]: touch picks a side by screen half,
    otherwise the keys do. *)
Definition steer (keys : Keys) (touch_x : option Z) (speed : Q) : option Q :=
  match touch_x with
  | Some tx => if tx <? WIDTH / 2 then Some (- speed)%Q else Some speed
  | None =>
      if K_LEFT keys || K_a keys then Some (- speed)%Q
      else if K_RIGHT keys || K_d keys then Some speed
      else None
  end.

Definition update (keys : Keys) (touch_x : option Z) (p : t) : t :=
  let prev := rect p in
  let move_speed := PLAYER_MOVE_SPEED in
  let vx := match steer keys touch_x move_speed with
            | Some v => v
            | None => 0.0%Q
            end in
  (* Apply horizontal + wrap *)
  let r1 := Rect.set_x (Rect.x (rect p) + py_int vx) (rect p) in
  let r2 := if Rect.right r1 <? 0 then Rect.set_left WIDTH r1
            else if Rect.left r1 >? WIDTH then Rect.set_right 0 r1
            else r1 in
  (* Vertical: jet overrides gravity *)
  let vy := if jet p >? 0 then (- 9.5)%Q else (vel_y p + GRAVITY)%Q in
  let jet' := if jet p >? 0 then jet p - 1 else jet p in
  let r3 := Rect.set_y (Rect.y r2 + py_int vy) r2 in
  (* Energy drain *)
  let drain :=
    fmul PASSIVE_ENERGY_DRAIN (if drain_slow p >? 0 then b64 0.6 else 1.0) in
  let energy' := clamp (fsub (energy p) drain) 0.0 100.0 in
  (* Timers *)
  let drain_slow' := if drain_slow p >? 0 then drain_slow p - 1 else drain_slow p in
  let shield' := if shield p >? 0 then shield p - 1 else shield p in
  let invincible' := if invincible p >? 0 then invincible p - 1 else invincible p in
  mk r3 prev vx vy energy' (lives p) (score p) drain_slow' shield' jet'
     invincible' (last_safe_platform p).

Definition bounce (power : option Q) (speed_factor : Q) (p : t) : t :=
  let base := (PLAYER_JUMP_VEL * speed_factor)%Q in
  set_vel_y (match power with None => base | Some pw => pw end) p.

Definition take_enemy_hit (p : t) : t :=
  if invincible p >? 0 then p
  else if shield p >? 0 then set_shield 0 p
  else
    let p1 :=
      set_energy (clamp (fsub (energy p) ENEMY_HIT_ENERGY_LOSS) 0.0 100.0) p in
    if Qlt_bool (vel_y p1) (- 8) then set_vel_y (- 8) p1 else p1.

Definition mark_safe_platform (platform : Platform.t) (p : t) : t :=
  mk (rect p) (prev_rect p) (vel_x p) (vel_y p) (energy p) (lives p)
     (score p) (drain_slow p) (shield p) (jet p) (invincible p)
     (Some (Platform.ident platform)).

(** The referenced platform, if it still belongs to the platform group
    ([alive()]); its current rectangle is read from the group. *)
Definition safe_platform (platforms : list Platform.t) (p : t)
  : option Platform.t :=
  match last_safe_platform p with
  | Some id => find (fun q => Nat.eqb (Platform.ident q) id) platforms
  | None => None
  end.

Definition revive_on_safe (platforms : list Platform.t) (p : t) : t :=
  let y := match safe_platform platforms p with
           | Some sp => Rect.top (Platform.rect sp) - PLAYER_H / 2 - 2
           | None => HEIGHT / 2
           end in
  mk (Rect.set_center (WIDTH / 2) y (rect p)) (prev_rect p) 0 0
     (Qmax 55.0 (energy p)) (lives p) (score p) (drain_slow p) (shield p)
     (jet p) DUR_INVINCIBLE (last_safe_platform p).
End Player.

Module Enemy.
Record t : Set := mk { kind : EnemyKind; rect : Rect.t; phase : Q }.

(** [Enemy(x, y, kind)]; [r] is the constructor's [random.random()]. *)
Definition init (r : Q) (x y : Z) (k : EnemyKind) : t :=
  mk k (Rect.of_center 36 36 x y) (r * 6.28).

Definition move_x (d : Z) (e : t) : t :=
  mk (kind e) (Rect.set_x (Rect.x (rect e) + d) (rect e)) (phase e).

Definition move_y (d : Z) (e : t) : t :=
  mk (kind e) (Rect.set_y (Rect.y (rect e) + d) (rect e)) (phase e).

Definition update (sin : Q -> Q) (player : Player.t)
           (enemy_speed_factor : Q) (e : t) : t :=
  let ph := (phase e + ENEMY_SINE_SPEED * enemy_speed_factor)%Q in
  let e1 := mk (kind e) (rect e) ph in
  match kind e with
  | E_BULB =>
      move_x (py_int (sin ph * ENEMY_PATROL_SPEED * 1.4 * enemy_speed_factor)%Q) e1
  | E_PIPE =>
      move_y (py_int (sin (ph * 0.9) * 1.0 * enemy_speed_factor)%Q) e1
  | E_SMOKE =>
      move_y (py_int ((- 0.5 + sin ph * 0.25) * enemy_speed_factor)%Q) e1
  | E_CHASER =>
      let pcx := Rect.centerx (Player.rect player) in
      let ecx := Rect.centerx (rect e1) in
      let e2 :=
        if Z.abs (pcx - ecx) >? 4 then
          let direction := if pcx >? ecx then 1 else -1 in
          move_x (py_int (inject_Z direction * ENEMY_CHASER_SPEED
                          * enemy_speed_factor)%Q) e1
        else e1 in
      move_y (py_int (sin ph * 0.6 * enemy_speed_factor)%Q) e2
  end.
End Enemy.

Module Bonus.
Record t : Set := mk { kind : BonusKind; rect : Rect.t; phase : Q }.

(** [Bonus(x, y, kind)]; [r] is the constructor's [random.random()]. *)
Definition init (r : Q) (x y : Z) (k : BonusKind) : t :=
  mk k (Rect.of_center 28 28 x y) (r * 6.28).

Definition update (sin : Q -> Q) (b : t) : t :=
  let ph := (phase b + 0.06)%Q in
  mk (kind b)
     (Rect.set_y (Rect.y (rect b) + py_int (sin ph * 0.5)%Q) (rect b)) ph.
End Bonus.

(* ------------------------------------------------------------------------- *)
(** ** Quiz

    Of a question the simulation reads the index of the right option only;
    [QUIZ] lists the [ans] fields of the thirty questions in order.  The
    feedback text is one of three strings: the empty one, the one that
    contains the word the controller looks for, and the one that does not. *)
(* ------------------------------------------------------------------------- *)

Record Question : Set := mkQuestion { ans : Z }.

Definition QUIZ : list Question :=
  map mkQuestion
    [2; 1; 2; 0; 1; 1; 1; 2; 1; 1; 1; 2; 1; 1; 0; 1; 1; 1; 1; 2; 0; 1; 1; 0;
     1; 1; 1; 0; 1; 3].

Inductive Feedback : Set :=
| FB_EMPTY      (* the empty string *)
| FB_CORRECT    (* the message of a right answer *)
| FB_WRONG.     (* the message of a wrong answer *)

(** Events of the window system, as far as [handle_events] tells them
    apart. *)
Inductive Key : Set :=
| K_RETURN | K_SPACE | K_ESCAPE | K_UP | K_DOWN | K_w | K_s | K_p | K_q
| K_OTHER.

Inductive Event : Set :=
| QUIT
| KEYDOWN (k : Key)
| MOUSEBUTTONDOWN (pos_x : Z)
| MOUSEMOTION (pos_x : Z) (pressed : bool)
| OTHER_EVENT.

Module QuizUI.
Record t : Set := mk
  { selected : Z;
    cur : option Question;
    feedback : Feedback;
    feedback_timer : Z }.

Definition init : t := mk 0 None FB_EMPTY 0.

(** [pick()] draws from the module-level generator. *)
Definition pick (rnd : Random.t) (q : t) : t * Random.t :=
  let (c, rnd') := Random.choice (mkQuestion 0) QUIZ rnd in
  (mk 0 (Some c) FB_EMPTY 0, rnd').

(** [handle(event)] returns the quiz and the pair [(answered, correct)]. *)
Definition handle (ev : Event) (q : t) : t * (bool * bool) :=
  match ev with
  | KEYDOWN K_UP | KEYDOWN K_w =>
      (mk ((selected q - 1) mod 4) (cur q) (feedback q) (feedback_timer q),
       (false, false))
  | KEYDOWN K_DOWN | KEYDOWN K_s =>
      (mk ((selected q + 1) mod 4) (cur q) (feedback q) (feedback_timer q),
       (false, false))
  | KEYDOWN K_RETURN | KEYDOWN K_SPACE =>
      let correct := match cur q with
                     | Some c => selected q =? ans c
                     | None => false
                     end in
      (mk (selected q) (cur q) (if correct then FB_CORRECT else FB_WRONG)
          (py_int (0.9 * inject_Z FPS)%Q),
       (true, correct))
  | _ => (q, (false, false))
  end.

Definition update (q : t) : t :=
  if feedback_timer q >? 0
  then mk (selected q) (cur q) (feedback q) (feedback_timer q - 1)
  else q.

(** Truth value of the feedback string, and the substring test of
    [Game.update]. *)
Definition has_feedback (q : t) : bool :=
  match feedback q with FB_EMPTY => false | _ => true end.

Definition feedback_says_correct (q : t) : bool :=
  match feedback q with FB_CORRECT => true | _ => false end.
End QuizUI.

(* ------------------------------------------------------------------------- *)
(** ** World generation and difficulty progression *)
(* ------------------------------------------------------------------------- *)

Module World.
Record t : Type := mk { spawn_y : Z; rng : Random.t; score : Z }.

(** [World()]; the seeded generator is the stream [r]. *)
Definition init (r : Random.t) : t := mk (HEIGHT - 120) r 0.

Definition set_spawn_y (v : Z) (w : t) : t := mk v (rng w) (score w).
Definition set_rng (r : Random.t) (w : t) : t := mk (spawn_y w) r (score w).
Definition set_score (s : Z) (w : t) : t := mk (spawn_y w) (rng w) s.

(* 0.0 at score=0, 1.0 at score>=4000 *)
Definition progress_factor (w : t) : Q :=
  clamp (inject_Z (score w) / 4000.0) 0.0 1.0.

(* scales movement/jump/enemy speeds *)
Definition speed_factor (w : t) : Q := (1.0 + 0.5 * progress_factor w)%Q.

(** The progress factor and the spawn chance as the doubles the code
    holds: [progress_factor()] and [enemy_spawn_chance()] evaluated in
    binary64.  The bands below compare a draw, which is a double, with
    edges computed from these. *)
Definition progress_factor64 (w : t) : Q :=
  clamp (fdiv (b64 (inject_Z (score w))) 4000.0) 0.0 1.0.

Definition enemy_spawn_chance64 (w : t) : Q :=
  let p := progress_factor64 w in
  fadd (b64 ENEMY_BASE_SPAWN_CHANCE) (fmul p (b64 0.18)).

Definition choose_platform_type (w : t) : PlatformKind * t :=
  let p := progress_factor64 w in
  let (r, g) := Random.random (rng w) in
  let k :=
    if Qlt_bool r (fsub (b64 0.24) (fmul (b64 0.08) p)) then P_SOLAR
    else if Qlt_bool r (fsub (b64 0.44) (fmul (b64 0.08) p)) then P_WIND
    else if Qlt_bool r (fsub (b64 0.60) (fmul (b64 0.06) p)) then P_HYDRO
    else if Qlt_bool r (fsub (b64 0.78) (fmul (b64 0.08) p)) then P_NORMAL
    else if Qlt_bool r (b64 0.88) then P_MOVING
    else if Qlt_bool r (b64 0.94) then P_DISAPPEARING
    else P_BREAKING in
  (k, set_rng g w).

Definition enemy_spawn_chance (w : t) : Q :=
  let p := progress_factor w in
  (ENEMY_BASE_SPAWN_CHANCE + p * 0.18)%Q.

Definition choose_enemy (w : t) : option EnemyKind * t :=
  let (r0, g0) := Random.random (rng w) in
  if Qlt_bool r0 (enemy_spawn_chance64 w) then
    let (r, g) := Random.random g0 in
    let k :=
      if Qlt_bool r (b64 0.40) then E_BULB
      else if Qlt_bool r (b64 0.70) then E_PIPE
      else if Qlt_bool r (b64 0.85) then E_SMOKE
      else E_CHASER in
    (Some k, set_rng g w)
  else (None, set_rng g0 w).

Definition choose_bonus (w : t) : option BonusKind * t :=
  let (r, g0) := Random.random (rng w) in
  if Qlt_bool r (b64 BONUS_CHANCE_BASE) then
    let p := progress_factor64 w in
    let (rr, g) := Random.random g0 in
    let k :=
      if Qlt_bool rr (fsub (b64 0.40) (fmul (b64 0.15) p)) then B_CELL
      else if Qlt_bool rr (b64 0.60) then B_LED
      else if Qlt_bool rr (b64 0.80) then B_SHIELD
      else if Qlt_bool rr (b64 0.93) then B_JET
      else B_SPRING in
    (Some k, set_rng g w)
  else (None, set_rng g0 w).
End World.

(* ------------------------------------------------------------------------- *)
(** ** Game core

    The sprite groups are lists in insertion order (the iteration order of
    a pygame group).  [random] is the module-level generator, [entropy] the
    supply of seeds for the generators of new worlds, [next_id] the next
    fresh platform identifier.  Saving the high score to disk is outside
    the model; [high_score] is the value the game holds. *)
(* ------------------------------------------------------------------------- *)

Module Game.
Record t : Type := mk
  { state : State;
    quiz : QuizUI.t;
    world : World.t;
    platforms : list Platform.t;
    enemies : list Enemy.t;
    bonuses : list Bonus.t;
    player : Player.t;
    high_score : Z;
    score : Z;
    ascended_px : Z;
    touch_x : option Z;
    random : Random.t;
    entropy : nat -> Random.t;
    worlds : nat;
    next_id : nat }.

Definition set_state (s : State) (g : t) : t :=
  mk s (quiz g) (world g) (platforms g) (enemies g) (bonuses g) (player g)
     (high_score g) (score g) (ascended_px g) (touch_x g) (random g)
     (entropy g) (worlds g) (next_id g).

Definition set_quiz (q : QuizUI.t) (g : t) : t :=
  mk (state g) q (world g) (platforms g) (enemies g) (bonuses g) (player g)
     (high_score g) (score g) (ascended_px g) (touch_x g) (random g)
     (entropy g) (worlds g) (next_id g).

Definition set_world (w : World.t) (g : t) : t :=
  mk (state g) (quiz g) w (platforms g) (enemies g) (bonuses g) (player g)
     (high_score g) (score g) (ascended_px g) (touch_x g) (random g)
     (entropy g) (worlds g) (next_id g).

Definition set_platforms (ps : list Platform.t) (g : t) : t :=
  mk (state g) (quiz g) (world g) ps (enemies g) (bonuses g) (player g)
     (high_score g) (score g) (ascended_px g) (touch_x g) (random g)
     (entropy g) (worlds g) (next_id g).

Definition set_enemies (es : list Enemy.t) (g : t) : t :=
  mk (state g) (quiz g) (world g) (platforms g) es (bonuses g) (player g)
     (high_score g) (score g) (ascended_px g) (touch_x g) (random g)
     (entropy g) (worlds g) (next_id g).

Definition set_bonuses (bs : list Bonus.t) (g : t) : t :=
  mk (state g) (quiz g) (world g) (platforms g) (enemies g) bs (player g)
     (high_score g) (score g) (ascended_px g) (touch_x g) (random g)
     (entropy g) (worlds g) (next_id g).

Definition set_player (p : Player.t) (g : t) : t :=
  mk (state g) (quiz g) (world g) (platforms g) (enemies g) (bonuses g) p
     (high_score g) (score g) (ascended_px g) (touch_x g) (random g)
     (entropy g) (worlds g) (next_id g).

Definition set_high_score (v : Z) (g : t) : t :=
  mk (state g) (quiz g) (world g) (platforms g) (enemies g) (bonuses g)
     (player g) v (score g) (ascended_px g) (touch_x g) (random g)
     (entropy g) (worlds g) (next_id g).

Definition set_score (v : Z) (g : t) : t :=
  mk (state g) (quiz g) (world g) (platforms g) (enemies g) (bonuses g)
     (player g) (high_score g) v (ascended_px g) (touch_x g) (random g)
     (entropy g) (worlds g) (next_id g).

Definition set_ascended_px (v : Z) (g : t) : t :=
  mk (state g) (quiz g) (world g) (platforms g) (enemies g) (bonuses g)
     (player g) (high_score g) (score g) v (touch_x g) (random g)
     (entropy g) (worlds g) (next_id g).

Definition set_touch_x (v : option Z) (g : t) : t :=
  mk (state g) (quiz g) (world g) (platforms g) (enemies g) (bonuses g)
     (player g) (high_score g) (score g) (ascended_px g) v (random g)
     (entropy g) (worlds g) (next_id g).

Definition set_random (r : Random.t) (g : t) : t :=
  mk (state g) (quiz g) (world g) (platforms g) (enemies g) (bonuses g)
     (player g) (high_score g) (score g) (ascended_px g) (touch_x g) r
     (entropy g) (worlds g) (next_id g).

(** Constructors called by the game: each draws its phase from the
    module-level generator; a platform also takes a fresh identifier and
    is followed by [set_start_x(p.rect.x)] and the [add] to the group. *)
Definition add_platform (x y : Z) (k : PlatformKind) (g : t)
  : Platform.t * t :=
  let (r, rnd) := Random.random (random g) in
  let p0 := Platform.init (next_id g) r x y k in
  let p := Platform.set_start_x (Rect.x (Platform.rect p0)) p0 in
  (p, mk (state g) (quiz g) (world g) (platforms g ++ [p]) (enemies g)
         (bonuses g) (player g) (high_score g) (score g) (ascended_px g)
         (touch_x g) rnd (entropy g) (worlds g) (S (next_id g))).

Definition add_enemy (x y : Z) (k : EnemyKind) (g : t) : t :=
  let (r, rnd) := Random.random (random g) in
  set_random rnd (set_enemies (enemies g ++ [Enemy.init r x y k]) g).

Definition add_bonus (x y : Z) (k : BonusKind) (g : t) : t :=
  let (r, rnd) := Random.random (random g) in
  set_random rnd (set_bonuses (bonuses g ++ [Bonus.init r x y k]) g).

(** *** init_run *)

(** One round of the loop that lays the initial ladder. *)
Definition initial_platform (base_y : Z) (i : Z) (st : Z * t) : Z * t :=
  let (prev_x, g) := st in
  let k := if i >? 0 then P_NORMAL else P_SOLAR in
  let (d, rnd) := Random.randint (-90) 90 (random g) in
  let x := clampZ (prev_x + d) SPAWN_X_MARGIN
                  (WIDTH - PLATFORM_W - SPAWN_X_MARGIN) in
  let y := base_y - i * 70 in
  let (_, g1) := add_platform x y k (set_random rnd g) in
  (x, set_world (World.set_spawn_y y (world g1)) g1).

Definition init_run (g : t) : t :=
  let pl := Player.init (WIDTH / 2) (HEIGHT - 140) 2 in
  let g0 :=
    mk (state g) (quiz g) (World.init (entropy g (worlds g))) [] [] [] pl
       (high_score g) 0 0 None (random g) (entropy g) (S (worlds g))
       (next_id g) in
  (* Initial platforms *)
  let base_y := HEIGHT - 80 in
  let prev_x := Rect.centerx (Player.rect pl) - PLATFORM_W / 2 in
  let (_, g1) :=
    fold_left (fun st i => initial_platform base_y i st)
              (map Z.of_nat (seq 0 10)) (prev_x, g0) in
  (* Safety platform under player *)
  snd (add_platform (Rect.centerx (Player.rect pl) - PLATFORM_W / 2)
                    (Rect.bottom (Player.rect pl) + 60) P_NORMAL g1).

(** [Game()]: [hs] is what [load_scores()] returned. *)
Definition init (hs : Z) (rnd : Random.t) (ent : nat -> Random.t) : t :=
  init_run
    (mk STATE_MENU QuizUI.init (World.init (ent O)) [] [] []
        (Player.init (WIDTH / 2) (HEIGHT - 140) 2) hs 0 0 None rnd ent
        1%nat O).

(** *** Spawning *)

Definition spawn_one (speed_factor : Q) (g : t) : t :=
  let (gap, rnd1) :=
    Random.randint (py_int (inject_Z SPAWN_MIN_GAP / speed_factor)%Q)
                   (py_int (inject_Z SPAWN_MAX_GAP / speed_factor)%Q)
                   (random g) in
  let w1 := World.set_spawn_y (World.spawn_y (world g) - gap) (world g) in
  let (k, w2) := World.choose_platform_type w1 in
  let (x0, rnd2) :=
    Random.randint SPAWN_X_MARGIN (WIDTH - PLATFORM_W - SPAWN_X_MARGIN) rnd1 in
  let px := Rect.centerx (Player.rect (player g)) - PLATFORM_W / 2 in
  let x := clampZ (py_int (lerp (inject_Z x0) (inject_Z px) 0.35))
                  SPAWN_X_MARGIN (WIDTH - PLATFORM_W - SPAWN_X_MARGIN) in
  let (p, g1) :=
    add_platform x (World.spawn_y w2) k (set_random rnd2 (set_world w2 g)) in
  let prect := Platform.rect p in
  (* spring on the platform *)
  let g2 :=
    match k with
    | P_NORMAL | P_MOVING =>
        let (r, rnd3) := Random.random (random g1) in
        if Qlt_bool r (b64 0.10)
        then add_bonus (Rect.centerx prect) (Rect.top prect - 16) B_SPRING
                       (set_random rnd3 g1)
        else set_random rnd3 g1
    | _ => g1
    end in
  (* enemy *)
  let (ek, w3) := World.choose_enemy (world g2) in
  let g3 :=
    match ek with
    | Some k' =>
        let (d, rnd4) := Random.randint (-70) 70 (random g2) in
        add_enemy (Rect.centerx prect + d) (Rect.top prect - 28) k'
                  (set_random rnd4 (set_world w3 g2))
    | None => set_world w3 g2
    end in
  (* bonus *)
  let (bk, w4) := World.choose_bonus (world g3) in
  match bk with
  | Some k' =>
      let (d1, rnd5) := Random.randint 20 40 (random g3) in
      let b_y := Rect.top prect - d1 in
      let (d2, rnd6) := Random.randint (-28) 28 rnd5 in
      add_bonus (Rect.centerx prect + d2) b_y k'
                (set_random rnd6 (set_world w4 g3))
  | None => set_world w4 g3
  end.

(** [while self.world.spawn_y > -HEIGHT]: every round lowers [spawn_y]
    by a positive gap, so [fuel] rounds are enough when [fuel] is the
    distance to the bound (lemma [spawn_loop_frontier]). *)
Fixpoint spawn_loop (fuel : nat) (speed_factor : Q) (g : t) : t :=
  match fuel with
  | O => g
  | S n =>
      if World.spawn_y (world g) >? - HEIGHT
      then spawn_loop n speed_factor (spawn_one speed_factor g)
      else g
  end.

(** [sorted(..., key=lambda s: s.rect.top, reverse=True)] on platforms
    paired with their position in the group: stable, largest [top]
    first. *)
Fixpoint insert_desc (a : nat * Platform.t) (l : list (nat * Platform.t))
  : list (nat * Platform.t) :=
  match l with
  | [] => [a]
  | b :: l' =>
      if Rect.top (Platform.rect (snd b)) >? Rect.top (Platform.rect (snd a))
      then b :: insert_desc a l'
      else a :: b :: l'
  end.

Definition sorted_desc (l : list (nat * Platform.t))
  : list (nat * Platform.t) :=
  fold_right insert_desc [] l.

(** The platform cap: the members of [low[MAX_PLATFORMS_ON_SCREEN:]] are
    killed, the rest keep their order. *)
Definition limit_platforms (ps : list Platform.t) : list Platform.t :=
  if (MAX_PLATFORMS_ON_SCREEN <? length ps)%nat then
    let indexed := combine (seq 0 (length ps)) ps in
    let low := sorted_desc indexed in
    let killed := map fst (skipn MAX_PLATFORMS_ON_SCREEN low) in
    map snd
        (filter (fun ip => negb (existsb (Nat.eqb (fst ip)) killed)) indexed)
  else ps.

Definition spawn_next (g : t) : t :=
  let speed_factor := World.speed_factor (world g) in
  let g1 := spawn_loop (Z.to_nat (World.spawn_y (world g) + HEIGHT))
                       speed_factor g in
  set_platforms (limit_platforms (platforms g1)) g1.

(** *** Collisions *)

(** [handle_platform_effect(p)] touches the player and [p] only. *)
Definition handle_platform_effect (pl : Player.t) (p : Platform.t)
  : Player.t * Platform.t :=
  match Platform.kind p with
  | P_SOLAR =>
      (Player.set_energy
         (clamp (fadd (Player.energy pl) ENERGY_FROM_SOLAR) 0 100) pl, p)
  | P_WIND =>
      (Player.set_energy
         (clamp (fadd (Player.energy pl) ENERGY_FROM_WIND) 0 100) pl, p)
  | P_HYDRO =>
      (Player.set_vel_y (PLAYER_JUMP_VEL * 1.07)%Q
         (Player.set_energy
            (clamp (fadd (Player.energy pl) ENERGY_FROM_HYDRO) 0 100) pl), p)
  | P_BREAKING =>
      (pl, Platform.set_fade 0.0 (Platform.set_active false p))
  | P_DISAPPEARING =>
      (pl, Platform.set_fade 0.85 (Platform.set_active false p))
  | _ => (pl, p)
  end.

(** The landing test of one platform. *)
Definition lands_on (pl : Player.t) (p : Platform.t) : bool :=
  (Rect.bottom (Player.prev_rect pl) <=? Rect.top (Platform.rect p))
  && Rect.colliderect (Player.rect pl) (Platform.rect p).

(** The body of the landing branch. *)
Definition land (speed_factor : Q) (pl : Player.t) (p : Platform.t)
  : Player.t * Platform.t :=
  let pl1 :=
    Player.set_rect
      (Rect.set_bottom (Rect.top (Platform.rect p)) (Player.rect pl)) pl in
  let pl2 := Player.bounce None speed_factor pl1 in
  let pl3 := Player.mark_safe_platform p pl2 in
  handle_platform_effect pl3 p.

(** The first loop of [resolve_platform_collisions]: inactive platforms
    are skipped, the first platform that passes the test is landed on
    and ends the scan. *)
Fixpoint landing_scan (speed_factor : Q) (pl : Player.t)
         (ps : list Platform.t) : Player.t * list Platform.t :=
  match ps with
  | [] => (pl, [])
  | p :: rest =>
      if negb (Platform.active p) then
        let (pl', rest') := landing_scan speed_factor pl rest in
        (pl', p :: rest')
      else if lands_on pl p then
        let (pl', p') := land speed_factor pl p in
        (pl', p' :: rest)
      else
        let (pl', rest') := landing_scan speed_factor pl rest in
        (pl', p :: rest')
  end.

(** One round of the second loop: a triggered disappearing platform
    loses 0.06 of fade and is killed at zero. *)
Definition fade_step (p : Platform.t) : list Platform.t :=
  if Platform.is_kind P_DISAPPEARING p && negb (Platform.active p) then
    let p' := Platform.set_fade (Qmax 0.0 (Platform.fade p - 0.06)) p in
    if Qle_bool (Platform.fade p') 0.0 then [] else [p']
  else [p].

Definition fade_out (ps : list Platform.t) : list Platform.t :=
  flat_map fade_step ps.

Definition resolve_platform_collisions (speed_factor : Q) (g : t) : t :=
  (* Only land if falling and was above last frame *)
  if Qle_bool (Player.vel_y (player g)) 0 then g
  else
    let (pl, ps) := landing_scan speed_factor (player g) (platforms g) in
    set_platforms (fade_out ps) (set_player pl g).

(** *** Quiz / Death / Continue *)

Definition game_over (g : t) : t :=
  let s := Z.max (score g) (py_int (inject_Z (ascended_px g) * 0.06)%Q) in
  let g1 := set_score s (set_state STATE_GAMEOVER g) in
  let current_score := s in
  if current_score >? high_score g1 then set_high_score current_score g1
  else g1.

Definition trigger_quiz (g : t) : t :=
  let pl := Player.set_lives (Player.lives (player g) - 1) (player g) in
  let g1 := set_player pl g in
  if Player.lives pl <? 0 then game_over g1
  else
    let (q, rnd) := QuizUI.pick (random g1) (quiz g1) in
    set_state STATE_QUIZ (set_random rnd (set_quiz q g1)).

Definition resolve_quiz_result (correct : bool) (g : t) : t :=
  if correct then
    let pl := Player.set_lives (Player.lives (player g) + 1) (player g) in
    set_state STATE_PLAY
      (set_player (Player.revive_on_safe (platforms g) pl) g)
  else game_over g.

(** *** Enemies and bonuses *)

(** Whether enemy [e], once moved, touches the player. *)
Definition enemy_contact (sin : Q -> Q) (enemy_speed_factor : Q)
           (pl : Player.t) (e : Enemy.t) : bool :=
  Rect.colliderect (Player.rect pl)
                   (Enemy.rect (Enemy.update sin pl enemy_speed_factor e)).

(** The loop of [resolve_enemy_collisions] over the snapshot [es] of the
    group; it returns the game and the enemies as the loop leaves
    them. *)
Fixpoint enemy_loop (sin : Q -> Q) (enemy_speed_factor : Q) (g : t)
         (es : list Enemy.t) : t * list Enemy.t :=
  match es with
  | [] => (g, [])
  | e :: rest =>
      let e1 := Enemy.update sin (player g) enemy_speed_factor e in
      if Rect.colliderect (Player.rect (player g)) (Enemy.rect e1) then
        let g1 := set_player (Player.take_enemy_hit (player g)) g in
        let (d, rnd) := Random.choice 0 [-10; 10] (random g1) in
        let e2 := Enemy.move_x d e1 in          (* small separation *)
        let g2 := set_random rnd g1 in
        let g3 := if Qle_bool (Player.energy (player g2)) 0
                  then trigger_quiz g2 else g2 in
        let (g4, rest') := enemy_loop sin enemy_speed_factor g3 rest in
        (g4, e2 :: rest')
      else
        let (g4, rest') := enemy_loop sin enemy_speed_factor g rest in
        (g4, e1 :: rest')
  end.

Definition resolve_enemy_collisions (sin : Q -> Q) (enemy_speed_factor : Q)
           (g : t) : t :=
  let (g', es) := enemy_loop sin enemy_speed_factor g (enemies g) in
  set_enemies es g'.

(** [apply_bonus(b)] touches the player only. *)
Definition apply_bonus (b : Bonus.t) (pl : Player.t) : Player.t :=
  match Bonus.kind b with
  | B_CELL =>
      Player.set_energy
        (clamp (fadd (Player.energy pl) ENERGY_FROM_CELL) 0 100) pl
  | B_LED => Player.set_drain_slow DUR_LED pl
  | B_SHIELD => Player.set_shield DUR_SHIELD pl
  | B_JET => Player.set_jet DUR_JET pl
  | B_SPRING => Player.set_vel_y (PLAYER_JUMP_VEL * 1.55)%Q pl
  end.

Fixpoint bonus_loop (sin : Q -> Q) (pl : Player.t) (bs : list Bonus.t)
  : Player.t * list Bonus.t :=
  match bs with
  | [] => (pl, [])
  | b :: rest =>
      let b1 := Bonus.update sin b in
      if Rect.colliderect (Player.rect pl) (Bonus.rect b1) then
        bonus_loop sin (apply_bonus b1 pl) rest          (* b.kill() *)
      else
        let (pl', rest') := bonus_loop sin pl rest in
        (pl', b1 :: rest')
  end.

Definition resolve_bonus_pickups (sin : Q -> Q) (g : t) : t :=
  let (pl, bs) := bonus_loop sin (player g) (bonuses g) in
  set_bonuses bs (set_player pl g).

(** *** Update

    The blocks of the [STATE_PLAY] branch of [update], in source order. *)

(** [self.world.score = self.score]. *)
Definition sync_world (g : t) : t :=
  set_world (World.set_score (score g) (world g)) g.

(** Difficulty scaling, moving platforms and the player's own update,
    followed by the controller's second assignment of [vel.x]. *)
Definition move (sin : Q -> Q) (speed_factor : Q) (keys : Keys) (g : t) : t :=
  let pl0 :=
    Player.set_vel_y
      (Player.vel_y (player g) + GRAVITY * (speed_factor - 1.0))%Q
      (player g) in
  let PLAYER_MOVE_SPEED_CURRENT := (PLAYER_MOVE_SPEED * speed_factor)%Q in
  let ps := map (Platform.update sin speed_factor) (platforms g) in
  let pl1 := Player.update keys (touch_x g) pl0 in
  let pl2 :=
    match Player.steer keys (touch_x g) PLAYER_MOVE_SPEED_CURRENT with
    | Some v => Player.set_vel_x v pl1
    | None => pl1
    end in
  set_platforms ps (set_player pl2 g).

Definition shift_platform (dy : Z) (p : Platform.t) : Platform.t :=
  Platform.set_rect
    (Rect.set_y (Rect.y (Platform.rect p) + dy) (Platform.rect p)) p.

Definition shift_bonus (dy : Z) (b : Bonus.t) : Bonus.t :=
  Bonus.mk (Bonus.kind b)
           (Rect.set_y (Rect.y (Bonus.rect b) + dy) (Bonus.rect b))
           (Bonus.phase b).

Definition camera (g : t) : t :=
  let top := Rect.top (Player.rect (player g)) in
  if top <=? SCROLL_TRIGGER_Y then
    let dy := SCROLL_TRIGGER_Y - top in
    let pl := Player.set_rect
                (Rect.set_top SCROLL_TRIGGER_Y (Player.rect (player g)))
                (player g) in
    mk (state g) (quiz g)
       (World.set_spawn_y (World.spawn_y (world g) + dy) (world g))
       (map (shift_platform dy) (platforms g))
       (map (Enemy.move_y dy) (enemies g))
       (map (shift_bonus dy) (bonuses g))
       pl (high_score g) (score g) (ascended_px g + dy) (touch_x g)
       (random g) (entropy g) (worlds g) (next_id g)
  else g.

Definition cleanup (g : t) : t :=
  let keep (r : Rect.t) := negb (Rect.top r >? HEIGHT + 120) in
  set_bonuses (filter (fun b => keep (Bonus.rect b)) (bonuses g))
    (set_enemies (filter (fun e => keep (Enemy.rect e)) (enemies g))
       (set_platforms (filter (fun p => keep (Platform.rect p)) (platforms g))
          g)).

Definition fall (g : t) : t :=
  if Rect.top (Player.rect (player g)) >? HEIGHT + 60 then
    trigger_quiz (set_player (Player.set_energy 0.0 (player g)) g)
  else g.

Definition scoring (g : t) : t :=
  let s := Z.max (score g) (py_int (inject_Z (ascended_px g) * 0.06)%Q) in
  let g1 := set_player (Player.set_score s (player g)) (set_score s g) in
  if s >? high_score g1 then set_high_score s g1 else g1.

Definition update_play (sin : Q -> Q) (keys : Keys) (g : t) : t :=
  let g0 := sync_world g in
  let speed_factor := World.speed_factor (world g0) in
  let g1 := move sin speed_factor keys g0 in
  let g2 := camera g1 in
  let g3 := spawn_next g2 in
  let g4 := resolve_platform_collisions speed_factor g3 in
  let g5 := resolve_enemy_collisions sin speed_factor g4 in
  let g6 := resolve_bonus_pickups sin g5 in
  let g7 := cleanup g6 in
  let g8 := fall g7 in
  let g9 := scoring g8 in
  set_touch_x None g9.

Definition update (sin : Q -> Q) (keys : Keys) (g : t) : t :=
  match state g with
  | STATE_MENU => g
  | STATE_PAUSE => g
  | STATE_QUIZ =>
      let g1 := set_quiz (QuizUI.update (quiz g)) g in
      if QuizUI.has_feedback (quiz g1)
         && (QuizUI.feedback_timer (quiz g1) =? 0)
      then resolve_quiz_result (QuizUI.feedback_says_correct (quiz g1)) g1
      else g1
  | STATE_GAMEOVER => g
  | STATE_PLAY => update_play sin keys g
  end.

(** *** Events

    [None] is the end of the process ([quit()]). *)
Definition handle_event (ev : Event) (g : t) : option t :=
  match ev with
  | QUIT => None
  | _ =>
      let g1 := match ev with
                | MOUSEBUTTONDOWN px => set_touch_x (Some px) g
                | MOUSEMOTION px true => set_touch_x (Some px) g
                | _ => g
                end in
      match state g1 with
      | STATE_MENU =>
          match ev with
          | KEYDOWN K_RETURN | KEYDOWN K_SPACE => Some (set_state STATE_PLAY g1)
          | KEYDOWN K_ESCAPE => None
          | MOUSEBUTTONDOWN _ => Some (set_state STATE_PLAY g1)
          | _ => Some g1
          end
      | STATE_PLAY =>
          match ev with
          | KEYDOWN K_ESCAPE => Some (set_state STATE_PAUSE g1)
          | _ => Some g1
          end
      | STATE_PAUSE =>
          match ev with
          | KEYDOWN K_ESCAPE | KEYDOWN K_p | KEYDOWN K_SPACE =>
              Some (set_state STATE_PLAY g1)
          | KEYDOWN K_q => Some (init_run (set_state STATE_MENU g1))
          | MOUSEBUTTONDOWN _ => Some (set_state STATE_PLAY g1)
          | _ => Some g1
          end
      | STATE_QUIZ => Some (set_quiz (fst (QuizUI.handle ev (quiz g1))) g1)
      | STATE_GAMEOVER =>
          match ev with
          | KEYDOWN K_RETURN | KEYDOWN K_SPACE =>
              Some (init_run (set_state STATE_MENU g1))
          | MOUSEBUTTONDOWN _ => Some (init_run (set_state STATE_MENU g1))
          | _ => Some g1
          end
      end
  end.

Fixpoint handle_events_from (evs : list Event) (g : t) : option t :=
  match evs with
  | [] => Some g
  | ev :: rest =>
      match handle_event ev g with
      | Some g' => handle_events_from rest g'
      | None => None
      end
  end.

Definition handle_events (evs : list Event) (g : t) : option t :=
  handle_events_from evs (set_touch_x None g).

(** One round of [run]: events, then the update ([draw] is skipped). *)
Definition frame (sin : Q -> Q) (evs : list Event) (keys : Keys) (g : t)
  : option t :=
  match handle_events evs g with
  | Some g' => Some (update sin keys g')
  | None => None
  end.

(** Consecutive updates of frames whose events are pointer events at
    most; [touch] is the pointer position, if any, that [handle_events]
    has stored before each update. *)
Fixpoint updates (sin : Q -> Q) (inputs : list (Keys * option Z)) (g : t)
  : t :=
  match inputs with
  | [] => g
  | (keys, touch) :: rest =>
      updates sin rest (update sin keys (set_touch_x touch g))
  end.
End Game.

(* ------------------------------------------------------------------------- *)
(** ** Concrete states used as witnesses and counterexamples *)
(* ------------------------------------------------------------------------- *)

Module Sample.
Definition rnd : Random.t :=
  Random.mk (fun n => (N.of_nat n * 7919 + 13)%N) 0.

Definition ent (n : nat) : Random.t :=
  Random.mk (fun k => ((N.of_nat k * 104729 + N.of_nat n) * 2 ^ 40)%N) 0.

(** A stand-in for [math.sin] where a computation needs one. *)
Definition flat_sin (_ : Q) : Q := 0%Q.

Definition no_keys : Keys := mkKeys false false false false.

(** A fresh game that has left the menu. *)
Definition fresh : Game.t := Game.set_state STATE_PLAY (Game.init 0 rnd ent).

(** The same run at 4000 px of ascent, with the score the controller
    derives from it. *)
Definition at_4000_px : Game.t :=
  Game.set_score (py_int (4000 * 0.06)%Q) (Game.set_ascended_px 4000 fresh).

(** A run whose score has reached 4000 (and 5000). *)
Definition late : Game.t :=
  Game.set_score 4000 (Game.set_ascended_px 66667 fresh).
Definition later : Game.t :=
  Game.set_score 5000 (Game.set_ascended_px 83334 fresh).

Definition idle (n : nat) : list (Keys * option Z) := repeat (no_keys, None) n.

Definition right_keys : Keys := mkKeys false false true false.

Definition hold_right (n : nat) : list (Keys * option Z) :=
  repeat (right_keys, None) n.

(** The fresh game after 31 updates with the right key held: the player
    has missed every platform and fallen off the screen. *)
Definition fallen : Game.t := Game.updates flat_sin (hold_right 31) fresh.

(** The fresh game with the safety platform under the player (the eleventh
    platform, identifier 10) turned into a disappearing one. *)
Definition vanishing : Game.t :=
  Game.set_platforms
    (map (fun p =>
            if Nat.eqb (Platform.ident p) 10
            then Platform.mk 10 P_DISAPPEARING (Platform.rect p)
                             (Platform.active p) (Platform.fade p)
                             (Platform.phase p) (Platform.start_x p)
            else p)
         (Game.platforms fresh))
    fresh.

(** Sixteen idle updates later the player has just landed on it... *)
Definition landed : Game.t := Game.updates flat_sin (idle 16) vanishing.

(** ... and seventy updates with the right key held after that, the
    platform is gone and the player has fallen off the screen. *)
Definition stranded : Game.t := Game.updates flat_sin (hold_right 70) landed.

(** The fade of the platform with identifier [id], if the group still
    holds it. *)
Definition fade_of (id : nat) (g : Game.t) : option Q :=
  option_map (fun p => Qred (Platform.fade p))
             (find (fun p => Nat.eqb (Platform.ident p) id) (Game.platforms g)).



Definition hydro : Platform.t := Platform.init 0 0 100 600 P_HYDRO.
Definition breaking : Platform.t := Platform.init 0 0 100 600 P_BREAKING.

Definition left_keys : Keys := mkKeys true false false false.

(** A player that has come down onto the place of [ledge]: its feet were
    5 px above the ledge's top in the frame before and are 10 px below it
    now; [vy] is its vertical velocity.  [ledge id a] is a normal platform
    there with identity [id] and active flag [a], [far_ledge] one that the
    player does not touch. *)
Definition straddler (vy : Q) : Player.t :=
  Player.mk (Rect.mk 120 560 50 50) (Rect.mk 120 545 50 50) 0 vy 50.0 2 0 0
            0 0 0 None.

Definition ledge (id : nat) (a : bool) : Platform.t :=
  Platform.set_active a (Platform.init id 0 100 600 P_NORMAL).

Definition far_ledge : Platform.t := Platform.init 5 0 300 200 P_NORMAL.

(** A game in play that holds [pl] and the platforms [ps] only. *)
Definition scene (pl : Player.t) (ps : list Platform.t) : Game.t :=
  Game.mk STATE_PLAY QuizUI.init (World.init rnd) ps [] [] pl 0 0 0 None rnd
          ent 1 8.

(** The frames of a player who steps the cursor down [k] options and
    confirms, and then waits until the feedback window has run out. *)
Definition answer (k : nat) : list (list Event * Keys) :=
  (repeat (KEYDOWN K_DOWN) k ++ [KEYDOWN K_RETURN], no_keys)
  :: repeat ([], no_keys) 53.

(** The fresh game with 5 energy left and two bulbs on the player; one
    frame of it, and then the answer to the question that comes up (its
    right option is the first). *)
Definition crowded : Game.t :=
  Game.set_enemies
    [Enemy.init 0 230 580 E_BULB; Enemy.init 0 230 580 E_BULB]
    (Game.set_player (Player.set_energy 5.0 (Game.player fresh)) fresh).

Definition crowded_run : list (list Event * Keys) :=
  ([], no_keys) :: answer 0.

(** [Game()], started with Return and played with the left key held for
    79 frames: the player drops onto the solar platform to the left of the
    start, jumps off it, wraps around the screen and falls off; then the
    answer to the question that comes up (its right option is the
    third). *)
Definition fall_left : list (list Event * Keys) :=
  ([KEYDOWN K_RETURN], left_keys) :: repeat ([], left_keys) 78.

Definition fall_left_run : list (list Event * Keys) :=
  fall_left ++ answer 2.
End Sample.

(* ------------------------------------------------------------------------- *)
(** ** Vocabulary of the statements *)
(* ------------------------------------------------------------------------- *)

(** The reading that ties the progress factor to the ascended distance:
    what would have to hold of a run state [g] at the start of an update. *)
Definition progress_follows_distance (g : Game.t) : Prop :=
  let w := Game.world (Game.sync_world g) in
  (World.progress_factor w
   == clamp (inject_Z (Game.ascended_px g) / 4000) 0 1)%Q /\
  (World.speed_factor w == 1 + 0.5 * World.progress_factor w)%Q /\
  (Game.ascended_px g = 0 ->
   (World.progress_factor w == 0)%Q /\ (World.speed_factor w == 1.0)%Q) /\
  (4000 <= Game.ascended_px g ->
   (World.progress_factor w == 1)%Q /\ (World.speed_factor w == 1.5)%Q).

(** Runs of whole frames (events, then update) until the process quits. *)
Fixpoint frames (sin : Q -> Q) (inputs : list (list Event * Keys))
         (g : Game.t) : option Game.t :=
  match inputs with
  | [] => Some g
  | (evs, keys) :: rest =>
      match Game.frame sin evs keys g with
      | Some g' => frames sin rest g'
      | None => None
      end
  end.

(** The operations that write the player's energy: the player's own update,
    an enemy hit, a landing on platform [p] (jump and platform effect), a
    bonus pickup, the revival after a right answer and the fall off the
    screen. *)
Inductive PlayerOp : Type :=
| OpUpdate (keys : Keys) (touch_x : option Z)
| OpEnemyHit
| OpLanding (speed_factor : Q) (p : Platform.t)
| OpBonus (b : Bonus.t)
| OpRevive (platforms : list Platform.t)
| OpFall.

Definition apply_op (op : PlayerOp) (pl : Player.t) : Player.t :=
  match op with
  | OpUpdate keys touch_x => Player.update keys touch_x pl
  | OpEnemyHit => Player.take_enemy_hit pl
  | OpLanding speed_factor p => fst (Game.land speed_factor pl p)
  | OpBonus b => Game.apply_bonus b pl
  | OpRevive platforms => Player.revive_on_safe platforms pl
  | OpFall => Player.set_energy 0.0 pl
  end.

(** The player after each operation of a sequence. *)
Fixpoint states_after (ops : list PlayerOp) (pl : Player.t) : list Player.t :=
  match ops with
  | [] => []
  | op :: rest => apply_op op pl :: states_after rest (apply_op op pl)
  end.

Definition energy_in_range (pl : Player.t) : Prop :=
  (0 <= Player.energy pl)%Q /\ (Player.energy pl <= 100)%Q.

(** The part of the game the flow controller owns, and the run totals. *)
Definition flow (g : Game.t) : State * QuizUI.t * Z :=
  (Game.state g, Game.quiz g, Player.lives (Game.player g)).

Definition totals (g : Game.t) : Z * Z * Z :=
  (Game.score g, Game.high_score g, Game.ascended_px g).

(** What spawning must leave alone. *)
Definition kept (g g' : Game.t) : Prop :=
  flow g' = flow g /\ totals g' = totals g /\
  Game.player g' = Game.player g /\
  World.score (Game.world g') = World.score (Game.world g) /\
  Game.touch_x g' = Game.touch_x g.

Definition frontier_kept (g g' : Game.t) : Prop :=
  kept g g' /\
  World.spawn_y (Game.world g') = World.spawn_y (Game.world g).

(** Whether the enemy loop, run on player [pl] and enemies [es], reaches a
    [trigger_quiz]: some enemy touches the player while the energy is, or
    by that hit becomes, zero. *)
Fixpoint enemy_life_loss (sin : Q -> Q) (sf : Q) (pl : Player.t)
         (es : list Enemy.t) : bool :=
  match es with
  | [] => false
  | e :: rest =>
      if Game.enemy_contact sin sf pl e then
        Qle_bool (Player.energy (Player.take_enemy_hit pl)) 0
        || enemy_life_loss sin sf (Player.take_enemy_hit pl) rest
      else enemy_life_loss sin sf pl rest
  end.

(** The game of one update as the enemy loop finds it: after the moves,
    the camera, the spawning and the platform collisions. *)
Definition before_enemies (sin : Q -> Q) (keys : Keys) (g : Game.t) : Game.t :=
  let g0 := Game.sync_world g in
  let sf := World.speed_factor (Game.world g0) in
  Game.resolve_platform_collisions sf
    (Game.spawn_next (Game.camera (Game.move sin sf keys g0))).

Definition enemy_strikes (sin : Q -> Q) (keys : Keys) (g : Game.t) : bool :=
  let g4 := before_enemies sin keys g in
  enemy_life_loss sin (World.speed_factor (Game.world (Game.sync_world g)))
                  (Game.player g4) (Game.enemies g4).

(** The player's top edge is below the viewport by more than the margin. *)
Definition falls_off (sin : Q -> Q) (keys : Keys) (g : Game.t) : bool :=
  Rect.top (Player.rect (Game.player (before_enemies sin keys g)))
  >? HEIGHT + 60.


(** The states a life-loss event leads to. *)
Definition after_loss (s : State) : Prop :=
  s = STATE_QUIZ \/ s = STATE_GAMEOVER.

(** What a test reads off a run: the state, the lives, the player's
    rectangle and the rectangle of the last safe platform, if that platform
    is still in the game. *)
Definition outcome (g : Game.t) : State * Z * Rect.t * option Rect.t :=
  (Game.state g, Player.lives (Game.player g), Player.rect (Game.player g),
   option_map Platform.rect
              (Player.safe_platform (Game.platforms g) (Game.player g))).

(** The reading of the hydro landing with a jump that is the scaled
    landing impulse times 1.07. *)
Definition hydro_landing_as_stated (speed_factor : Q) (pl : Player.t)
           (p : Platform.t) : Prop :=
  Platform.kind p = P_HYDRO ->
  let pl' := fst (Game.land speed_factor pl p) in
  (Player.energy pl' == clamp (Player.energy pl + 9) 0 100)%Q /\
  (Player.vel_y pl' == PLAYER_JUMP_VEL * speed_factor * 1.07)%Q.

(** The reading of the breaking landing with a fade-out that starts at
    full fade. *)
Definition breaking_landing_as_stated (speed_factor : Q) (pl : Player.t)
           (p : Platform.t) : Prop :=
  Platform.kind p = P_BREAKING ->
  let p' := snd (Game.land speed_factor pl p) in
  Platform.active p' = false /\ (Platform.fade p' == 1)%Q.

(** [n] rounds of the fade loop on one platform. *)
Fixpoint fade_rounds (n : nat) (ps : list Platform.t) : list Platform.t :=
  match n with
  | O => ps
  | S k => fade_rounds k (Game.fade_out ps)
  end.

(** The quiz [q] with its feedback timer at [t]. *)
Definition quiz_with_timer (t : Z) (q : QuizUI.t) : QuizUI.t :=
  QuizUI.mk (QuizUI.selected q) (QuizUI.cur q) (QuizUI.feedback q) t.

(** A platform's x is within the horizontal spawn margins. *)
Definition within_margins (x : Z) : Prop :=
  SPAWN_X_MARGIN <= x <= WIDTH - PLATFORM_W - SPAWN_X_MARGIN.

(** [group_kept g g']: going from [g] to [g'] changed neither the platform
    group nor the supply of identifiers. *)
Definition group_kept (g g' : Game.t) : Prop :=
  Game.platforms g' = Game.platforms g /\ Game.next_id g' = Game.next_id g.

(** The sort key of the platform cap, on a platform paired with its
    position in the group. *)
Definition top_of (ip : nat * Platform.t) : Z :=
  Rect.top (Platform.rect (snd ip)).

(** [record_follows g g']: going from [g] to [g'] the score and the high
    score have not dropped, the high score has risen no further than the
    new score, and it still covers the score if it did before. *)
Definition record_follows (g g' : Game.t) : Prop :=
  Game.high_score g <= Game.high_score g' /\
  Game.score g <= Game.score g' /\
  Game.high_score g' <= Z.max (Game.high_score g) (Game.score g') /\
  (Game.score g <= Game.high_score g -> Game.score g' <= Game.high_score g').

(** The pointer position a frame's events leave behind: that of the last
    press, or motion with the button held, after the position [acc]. *)
Definition last_touch (acc : option Z) (evs : list Event) : option Z :=
  fold_left (fun t ev =>
               match ev with
               | MOUSEBUTTONDOWN px => Some px
               | MOUSEMOTION px true => Some px
               | _ => t
               end)
            evs acc.

(** A band edge [a - c * p] as the code evaluates it: the decimal
    literals are doubles, the product and the difference are rounded. *)
Definition edge (a c p : Q) : Q := fsub (b64 a) (fmul (b64 c) p).

(* ------------------------------------------------------------------------- *)
(** ** Rounding to binary64 *)
(* ------------------------------------------------------------------------- *)

(** [b64] rounds to the nearest double: it keeps the sign, is monotone,
    respects [==], and is off by at most one part in [2^53] (plus the
    smallest subnormal step). *)

Lemma two_neq_0 : ~ (2 == 0)%Q.
Proof. intros H. discriminate H. Qed.

Lemma pow2_pos (e : Z) : (0 < pow2 e)%Q.
Proof. apply Qpower_0_lt. reflexivity. Qed.

Lemma pow2_plus (a b : Z) : (pow2 (a + b) == pow2 a * pow2 b)%Q.
Proof. apply Qpower_plus. exact two_neq_0. Qed.

Lemma pow2_le (a b : Z) : a <= b -> (pow2 a <= pow2 b)%Q.
Proof. intros H. apply Qpower_le_compat_l; [exact H | discriminate]. Qed.

Lemma pow2_lt (a b : Z) : a < b -> (pow2 a < pow2 b)%Q.
Proof. intros H. apply Qpower_lt_compat_l; [exact H | reflexivity]. Qed.

Lemma pow2_lt_inv (a b : Z) : (pow2 a < pow2 b)%Q -> a < b.
Proof.
  intros H. destruct (Z.lt_ge_cases a b) as [L|G]; [exact L|].
  apply pow2_le in G. exfalso. apply (Qlt_irrefl (pow2 a)).
  eapply Qlt_le_trans; eassumption.
Qed.

Lemma pow2_Z (k : Z) : 0 <= k -> (pow2 k == inject_Z (2 ^ k))%Q.
Proof. intros H. symmetry. apply (Zpower_Qpower 2 k H). Qed.

Lemma pow2_succ (a : Z) : (pow2 (a + 1) == 2 * pow2 a)%Q.
Proof. rewrite pow2_plus. change (pow2 1) with 2%Q. ring. Qed.

(* rne *)
Lemma floor_frac (x : Q) :
  (0 <= x - inject_Z (Qfloor x))%Q /\ (x - inject_Z (Qfloor x) < 1)%Q.
Proof.
  pose proof (Qfloor_le x) as A. pose proof (Qlt_floor x) as B.
  rewrite inject_Z_plus in B. change (inject_Z 1) with 1%Q in B.
  split; lra.
Qed.

Lemma rne_cases (x : Q) :
  (rne x = Qfloor x /\ (x - inject_Z (Qfloor x) <= 1 # 2)%Q /\
   ((x - inject_Z (Qfloor x) == 1 # 2)%Q -> Z.even (Qfloor x) = true)) \/
  (rne x = Qfloor x + 1 /\ ((1 # 2) <= x - inject_Z (Qfloor x))%Q /\
   ((x - inject_Z (Qfloor x) == 1 # 2)%Q -> Z.even (Qfloor x) = false)).
Proof.
  unfold rne. cbv zeta.
  destruct (Qcompare_spec (x - inject_Z (Qfloor x)) (1 # 2)) as [E|L|G].
  - destruct (Z.even (Qfloor x)) eqn:P.
    + left. split; [reflexivity|]. split; [lra | intros _; reflexivity].
    + right. split; [reflexivity|]. split; [lra | intros _; reflexivity].
  - left. split; [reflexivity|]. split; [lra | intros H; lra].
  - right. split; [reflexivity|]. split; [lra | intros H; lra].
Qed.

Lemma rne_error (x : Q) : (Qabs (inject_Z (rne x) - x) <= 1 # 2)%Q.
Proof.
  destruct (floor_frac x) as [A B].
  apply Qabs_Qle_condition.
  destruct (rne_cases x) as [(E & H & _)|(E & H & _)]; rewrite E; clear E;
    [|rewrite inject_Z_plus; change (inject_Z 1) with 1%Q];
    set (f := inject_Z (Qfloor x)) in *; clearbody f; split; lra.
Qed.

Lemma rne_Z (k : Z) : rne (inject_Z k) = k.
Proof.
  unfold rne. cbv zeta. rewrite Qfloor_Z.
  assert (E : (inject_Z k - inject_Z k ?= 1 # 2)%Q = Lt).
  { apply (proj1 (Qlt_alt _ _)). generalize (inject_Z k). intros q. lra. }
  rewrite E. reflexivity.
Qed.

Lemma rne_mono (x y : Q) : (x <= y)%Q -> rne x <= rne y.
Proof.
  intros H.
  pose proof (Qfloor_resp_le x y H) as F.
  destruct (floor_frac x) as [A B]. destruct (floor_frac y) as [C D].
  destruct (rne_cases x) as [(E & Hx & Px)|(E & Hx & Px)];
    destruct (rne_cases y) as [(E' & Hy & Py)|(E' & Hy & Py)];
    rewrite E, E'; try lia.
  destruct (Z.eq_dec (Qfloor x) (Qfloor y)) as [Q|Q]; [|lia].
  exfalso. rewrite Q in *.
  assert (Ex : (x - inject_Z (Qfloor y) == 1 # 2)%Q) by lra.
  assert (Ey : (y - inject_Z (Qfloor y) == 1 # 2)%Q) by lra.
  rewrite (Px Ex) in Py. discriminate (Py Ey).
Qed.

Lemma rne_comp (x y : Q) : (x == y)%Q -> rne x = rne y.
Proof.
  intros H. apply Z.le_antisymm; apply rne_mono; rewrite H; apply Qle_refl.
Qed.

(* ilog2 *)
Lemma ilog2_spec (a : Q) :
  (0 < a)%Q -> (pow2 (ilog2 a) <= a)%Q /\ (a < pow2 (ilog2 a + 1))%Q.
Proof.
  intros Ha. destruct a as [n d].
  assert (Hn : 0 < n) by (unfold Qlt in Ha; simpl in Ha; lia).
  unfold ilog2. cbn [Qnum Qden].
  set (ln := Z.log2 n). set (ld := Z.log2 (Z.pos d)).
  destruct (Z.log2_spec n Hn) as [N1 N2]. fold ln in N1, N2.
  destruct (Z.log2_spec (Z.pos d) (Pos2Z.is_pos d)) as [D1 D2].
  fold ld in D1, D2.
  assert (Ln : 0 <= ln) by (apply Z.log2_nonneg).
  assert (Ld : 0 <= ld) by (apply Z.log2_nonneg).
  assert (Ev : ((n # d) * inject_Z (Z.pos d) == inject_Z n)%Q).
  { unfold Qeq, Qmult, inject_Z. simpl. lia. }
  assert (Pd : (0 < inject_Z (Z.pos d))%Q) by (unfold Qlt; simpl; lia).
  (* lower: pow2 (ln - ld - 1) <= a *)
  assert (Lo : (pow2 (ln - ld - 1) <= n # d)%Q).
  { assert (E1 : (pow2 (ln - ld - 1) * pow2 (ld + 1) == pow2 ln)%Q).
    { rewrite <- pow2_plus. replace (ln - ld - 1 + (ld + 1)) with ln by lia.
      reflexivity. }
    rewrite (pow2_Z ln Ln), (pow2_Z (ld + 1)) in E1 by lia.
    pose proof (pow2_pos (ln - ld - 1)) as P0.
    assert (I1 : (inject_Z (2 ^ ln) <= inject_Z n)%Q)
      by (rewrite <- Zle_Qle; exact N1).
    assert (I2 : (inject_Z (Z.pos d) <= inject_Z (2 ^ (ld + 1)))%Q)
      by (rewrite <- Zle_Qle; unfold Z.succ in D2; lia).
    set (P := pow2 (ln - ld - 1)) in *.
    set (A := (n # d)%Q) in *.
    set (Dd := inject_Z (Z.pos d)) in *.
    set (T := inject_Z (2 ^ (ld + 1))) in *.
    set (S := inject_Z (2 ^ ln)) in *.
    set (Nn := inject_Z n) in *.
    assert (HA : (0 < A)%Q) by exact Ha.
    destruct (Qlt_le_dec A P) as [C|C]; [|exact C]. exfalso.
    assert (X1 : (A * Dd < P * T)%Q) by nra.
    nra. }
  assert (Up : (n # d < pow2 (ln - ld + 1))%Q).
  { assert (E1 : (pow2 (ln - ld + 1) * pow2 ld == pow2 (ln + 1))%Q).
    { rewrite <- pow2_plus. replace (ln - ld + 1 + ld) with (ln + 1) by lia.
      reflexivity. }
    rewrite (pow2_Z ld Ld), (pow2_Z (ln + 1)) in E1 by lia.
    pose proof (pow2_pos (ln - ld + 1)) as P0.
    assert (I1 : (inject_Z n < inject_Z (2 ^ (ln + 1)))%Q)
      by (rewrite <- Zlt_Qlt; unfold Z.succ in N2; exact N2).
    assert (I2 : (inject_Z (2 ^ ld) <= inject_Z (Z.pos d))%Q)
      by (rewrite <- Zle_Qle; exact D1).
    assert (I3 : (0 < inject_Z (2 ^ ld))%Q).
    { rewrite <- (pow2_Z ld Ld). apply pow2_pos. }
    set (P := pow2 (ln - ld + 1)) in *.
    set (A := (n # d)%Q) in *.
    set (Dd := inject_Z (Z.pos d)) in *.
    set (T := inject_Z (2 ^ ld)) in *.
    set (S := inject_Z (2 ^ (ln + 1))) in *.
    set (Nn := inject_Z n) in *.
    assert (HA : (0 < A)%Q) by exact Ha.
    destruct (Qlt_le_dec A P) as [C|C]; [exact C|]. exfalso.
    assert (X1 : (P * T <= A * Dd)%Q) by nra.
    nra. }
  destruct (Qle_bool (pow2 (ln - ld)) (n # d)) eqn:B.
  - apply Qle_bool_iff in B. split; [exact B | exact Up].
  - split; [exact Lo|].
    replace (ln - ld - 1 + 1) with (ln - ld) by lia.
    apply Qnot_le_lt. intros C. apply Qle_bool_iff in C. congruence.
Qed.

Lemma ilog2_unique (a : Q) (l : Z) :
  (pow2 l <= a)%Q -> (a < pow2 (l + 1))%Q -> ilog2 a = l.
Proof.
  intros L U.
  assert (Ha : (0 < a)%Q) by (pose proof (pow2_pos l); lra).
  destruct (ilog2_spec a Ha) as [L' U'].
  assert (A : ilog2 a < l + 1)
    by (apply pow2_lt_inv; eapply Qle_lt_trans; eassumption).
  assert (B : l < ilog2 a + 1)
    by (apply pow2_lt_inv; eapply Qle_lt_trans; eassumption).
  lia.
Qed.

Lemma ilog2_mono (a b : Q) : (0 < a)%Q -> (a <= b)%Q -> ilog2 a <= ilog2 b.
Proof.
  intros Ha H.
  destruct (ilog2_spec a Ha) as [L U].
  destruct (ilog2_spec b) as [L' U']; [lra|].
  assert (A : ilog2 a < ilog2 b + 1).
  { apply pow2_lt_inv. lra. }
  lia.
Qed.

Lemma ilog2_comp (a b : Q) : (0 < a)%Q -> (a == b)%Q -> ilog2 a = ilog2 b.
Proof.
  intros Ha H. destruct (ilog2_spec a Ha) as [L U].
  symmetry. apply ilog2_unique; rewrite <- H; assumption.
Qed.

(* round_pos *)
Lemma round_pos_comp (a b : Q) :
  (0 < a)%Q -> (a == b)%Q -> (round_pos a == round_pos b)%Q.
Proof.
  intros Ha H. unfold round_pos. cbv zeta.
  rewrite (ilog2_comp a b Ha H).
  set (e := Z.max (ilog2 b - 52) (-1074)).
  assert (E : rne (a / pow2 e) = rne (b / pow2 e))
    by (apply rne_comp; rewrite H; reflexivity).
  rewrite E. reflexivity.
Qed.

Lemma rne_nonneg (y : Q) : (0 <= y)%Q -> 0 <= rne y.
Proof.
  intros H. rewrite <- (rne_Z 0). apply rne_mono. exact H.
Qed.

Lemma div_pow2_nonneg (a : Q) (e : Z) : (0 <= a)%Q -> (0 <= a / pow2 e)%Q.
Proof.
  intros H. apply Qle_shift_div_l; [apply pow2_pos|]. lra.
Qed.

Lemma round_pos_nonneg (a : Q) : (0 <= a)%Q -> (0 <= round_pos a)%Q.
Proof.
  intros H. unfold round_pos. cbv zeta.
  set (e := Z.max (ilog2 a - 52) (-1074)).
  pose proof (pow2_pos e) as P.
  pose proof (rne_nonneg (a / pow2 e) (div_pow2_nonneg a e H)) as R.
  rewrite Zle_Qle in R. change (inject_Z 0) with 0%Q in R.
  set (m := inject_Z (rne (a / pow2 e))) in *. nra.
Qed.

Lemma pow2_m53 : (pow2 (-53) == 1 # 9007199254740992)%Q.
Proof. reflexivity. Qed.

Lemma round_pos_error (a : Q) :
  (0 < a)%Q ->
  (Qabs (round_pos a - a) <= a * pow2 (-53) + pow2 (-1075))%Q.
Proof.
  intros Ha. unfold round_pos. cbv zeta.
  destruct (ilog2_spec a Ha) as [L _].
  set (l := ilog2 a) in *.
  set (e := Z.max (l - 52) (-1074)).
  pose proof (pow2_pos e) as P.
  pose proof (rne_error (a / pow2 e)) as R.
  set (m := inject_Z (rne (a / pow2 e))) in *.
  assert (Ea : (a / pow2 e * pow2 e == a)%Q) by (field; lra).
  set (y := (a / pow2 e)%Q) in *.
  apply Qabs_Qle_condition in R.
  assert (Hh : (pow2 e == 2 * pow2 (e - 1))%Q).
  { rewrite <- pow2_succ. replace (e - 1 + 1) with e by lia. reflexivity. }
  assert (B : (pow2 (e - 1) <= a * pow2 (-53) + pow2 (-1075))%Q).
  { destruct (Z.max_spec (l - 52) (-1074)) as [[C D]|[C D]]; fold e in D.
    - rewrite D. change (-1074 - 1) with (-1075).
      pose proof (pow2_pos (-53)). nra.
    - rewrite D. replace (l - 52 - 1) with (l + -53) by lia.
      rewrite pow2_plus. pose proof (pow2_pos (-53)).
      pose proof (pow2_pos (-1075)). nra. }
  apply Qabs_Qle_condition.
  set (h := pow2 (e - 1)) in *. set (p := pow2 e) in *.
  set (bound := (a * pow2 (-53) + pow2 (-1075))%Q) in *.
  split; nra.
Qed.

Lemma round_pos_mono (a b : Q) :
  (0 < a)%Q -> (a <= b)%Q -> (round_pos a <= round_pos b)%Q.
Proof.
  intros Ha H.
  assert (Hb : (0 < b)%Q) by lra.
  pose proof (ilog2_mono a b Ha H) as Hl.
  destruct (ilog2_spec a Ha) as [La Ua]. destruct (ilog2_spec b Hb) as [Lb Ub].
  unfold round_pos. cbv zeta.
  set (la := ilog2 a) in *. set (lb := ilog2 b) in *.
  set (ea := Z.max (la - 52) (-1074)). set (eb := Z.max (lb - 52) (-1074)).
  assert (He : ea <= eb) by (unfold ea, eb; lia).
  pose proof (pow2_pos ea) as Pa. pose proof (pow2_pos eb) as Pb.
  destruct (Z.eq_dec ea eb) as [E|E].
  - rewrite E.
    assert (M : rne (a / pow2 eb) <= rne (b / pow2 eb)).
    { apply rne_mono. apply Qle_shift_div_l; [exact Pb|].
      assert (Ea : (a / pow2 eb * pow2 eb == a)%Q) by (field; lra).
      rewrite Ea. exact H. }
    rewrite Zle_Qle in M.
    set (ma := inject_Z (rne (a / pow2 eb))) in *.
    set (mb := inject_Z (rne (b / pow2 eb))) in *. nra.
  - assert (Hlt : ea < eb) by lia.
    assert (Eb : eb = lb - 52) by (unfold ea, eb in *; lia).
    assert (Hla : la - 52 <= ea) by (unfold ea; lia).
    (* upper bound for a *)
    set (K := Z.max (la + 1 - ea) 0).
    assert (Ka : 0 <= K) by (unfold K; lia).
    assert (A1 : rne (a / pow2 ea) <= 2 ^ K).
    { rewrite <- (rne_Z (2 ^ K)). apply rne_mono.
      rewrite <- (pow2_Z _ Ka).
      apply Qle_shift_div_r; [exact Pa|].
      rewrite <- pow2_plus.
      assert (M : (pow2 (la + 1) <= pow2 (K + ea))%Q)
        by (apply pow2_le; unfold K; lia).
      lra. }
    rewrite Zle_Qle in A1. rewrite <- (pow2_Z _ Ka) in A1.
    assert (A2 : (inject_Z (rne (a / pow2 ea)) * pow2 ea <= pow2 (K + ea))%Q).
    { rewrite pow2_plus.
      set (ma := inject_Z (rne (a / pow2 ea))) in *.
      set (q := pow2 K) in *. nra. }
    (* lower bound for b *)
    assert (B1 : 2 ^ 52 <= rne (b / pow2 eb)).
    { rewrite <- (rne_Z (2 ^ 52)). apply rne_mono.
      rewrite <- (pow2_Z 52) by lia.
      apply Qle_shift_div_l; [exact Pb|].
      rewrite <- pow2_plus. replace (52 + eb) with lb by lia. exact Lb. }
    rewrite Zle_Qle in B1. rewrite <- (pow2_Z 52) in B1 by lia.
    assert (B2 : (pow2 lb <= inject_Z (rne (b / pow2 eb)) * pow2 eb)%Q).
    { assert (X : (pow2 52 * pow2 eb == pow2 lb)%Q).
      { rewrite <- pow2_plus. replace (52 + eb) with lb by lia. reflexivity. }
      set (mb := inject_Z (rne (b / pow2 eb))) in *.
      set (q := pow2 52) in *. nra. }
    assert (C : (pow2 (K + ea) <= pow2 lb)%Q)
      by (apply pow2_le; unfold K; lia).
    lra.
Qed.

(* b64 *)
Lemma b64_0 : b64 0 = 0%Q.
Proof. reflexivity. Qed.

Lemma b64_pos (x : Q) : (0 < x)%Q -> (b64 x == round_pos x)%Q.
Proof.
  intros H. unfold b64.
  destruct (Qeq_bool x 0) eqn:E; [apply Qeq_bool_eq in E; lra|].
  assert (L : Qle_bool 0 x = true) by (apply Qle_bool_iff; lra).
  rewrite L. apply Qred_correct.
Qed.

Lemma b64_neg (x : Q) : (x < 0)%Q -> (b64 x == - round_pos (- x))%Q.
Proof.
  intros H. unfold b64.
  destruct (Qeq_bool x 0) eqn:E; [apply Qeq_bool_eq in E; lra|].
  destruct (Qle_bool 0 x) eqn:L; [apply Qle_bool_iff in L; lra|].
  apply Qred_correct.
Qed.

Lemma b64_zero (x : Q) : (x == 0)%Q -> (b64 x == 0)%Q.
Proof.
  intros H. unfold b64. rewrite (Qeq_eq_bool _ _ H). reflexivity.
Qed.

Lemma b64_comp (x y : Q) : (x == y)%Q -> (b64 x == b64 y)%Q.
Proof.
  intros H. destruct (Q_dec x 0) as [[L|G]|E].
  - rewrite (b64_neg x L), (b64_neg y) by lra.
    rewrite (round_pos_comp (- x) (- y)); [reflexivity | lra | lra].
  - rewrite (b64_pos x G), (b64_pos y) by lra.
    apply round_pos_comp; [exact G | exact H].
  - rewrite (b64_zero x E), (b64_zero y) by lra. reflexivity.
Qed.

#[global] Instance b64_proper : Proper (Qeq ==> Qeq) b64.
Proof. intros x y H. apply b64_comp. exact H. Qed.

#[global] Instance fadd_proper : Proper (Qeq ==> Qeq ==> Qeq) fadd.
Proof. intros a a' Ha b b' Hb. unfold fadd. rewrite Ha, Hb. reflexivity. Qed.

#[global] Instance fsub_proper : Proper (Qeq ==> Qeq ==> Qeq) fsub.
Proof. intros a a' Ha b b' Hb. unfold fsub. rewrite Ha, Hb. reflexivity. Qed.

#[global] Instance fmul_proper : Proper (Qeq ==> Qeq ==> Qeq) fmul.
Proof. intros a a' Ha b b' Hb. unfold fmul. rewrite Ha, Hb. reflexivity. Qed.

#[global] Instance fdiv_proper : Proper (Qeq ==> Qeq ==> Qeq) fdiv.
Proof. intros a a' Ha b b' Hb. unfold fdiv. rewrite Ha, Hb. reflexivity. Qed.

#[global] Instance clamp_proper :
  Proper (Qeq ==> Qeq ==> Qeq ==> Qeq) clamp.
Proof.
  intros a a' Ha b b' Hb c c' Hc. unfold clamp. rewrite Ha, Hb, Hc.
  reflexivity.
Qed.

Lemma b64_opp (x : Q) : (b64 (- x) == - b64 x)%Q.
Proof.
  destruct (Q_dec x 0) as [[L|G]|E].
  - rewrite (b64_neg x L), (b64_pos (- x)) by lra. ring.
  - rewrite (b64_pos x G), (b64_neg (- x)) by lra.
    rewrite (round_pos_comp (- - x) x); [reflexivity | lra | ring].
  - rewrite (b64_zero x E), (b64_zero (- x)) by lra. reflexivity.
Qed.

Lemma b64_nonneg (x : Q) : (0 <= x)%Q -> (0 <= b64 x)%Q.
Proof.
  intros H. destruct (Q_dec x 0) as [[L|G]|E]; [lra| |].
  - rewrite (b64_pos x G). apply round_pos_nonneg. exact H.
  - rewrite (b64_zero x E). apply Qle_refl.
Qed.

Lemma b64_nonpos (x : Q) : (x <= 0)%Q -> (b64 x <= 0)%Q.
Proof.
  intros H. pose proof (b64_nonneg (- x) ltac:(lra)) as K.
  rewrite b64_opp in K. lra.
Qed.

Lemma b64_error (x : Q) :
  (Qabs (b64 x - x) <= Qabs x * pow2 (-53) + pow2 (-1075))%Q.
Proof.
  pose proof (pow2_pos (-53)) as P53. pose proof (pow2_pos (-1075)) as P1075.
  destruct (Q_dec x 0) as [[L|G]|E].
  - rewrite (b64_neg x L), (Qabs_neg x) by lra.
    pose proof (round_pos_error (- x) ltac:(lra)) as R.
    apply Qabs_Qle_condition in R. apply Qabs_Qle_condition.
    set (r := round_pos (- x)) in *. split; lra.
  - rewrite (b64_pos x G), (Qabs_pos x) by lra.
    apply round_pos_error. exact G.
  - rewrite (b64_zero x E), E. apply Qabs_Qle_condition.
    change (Qabs 0) with 0%Q. split; lra.
Qed.

Lemma b64_mono (x y : Q) : (x <= y)%Q -> (b64 x <= b64 y)%Q.
Proof.
  intros H. destruct (Q_dec x 0) as [[Lx|Gx]|Ex].
  - destruct (Q_dec y 0) as [[Ly|Gy]|Ey].
    + rewrite (b64_neg x Lx), (b64_neg y Ly).
      pose proof (round_pos_mono (- y) (- x) ltac:(lra) ltac:(lra)). lra.
    + pose proof (b64_nonpos x ltac:(lra)). pose proof (b64_nonneg y ltac:(lra)).
      lra.
    + pose proof (b64_nonpos x ltac:(lra)). rewrite (b64_zero y Ey). lra.
  - rewrite (b64_pos x Gx), (b64_pos y) by lra.
    apply round_pos_mono; assumption.
  - rewrite (b64_zero x Ex). apply b64_nonneg. lra.
Qed.

(* ------------------------------------------------------------------------- *)
(** ** Arithmetic of [clamp] and [py_int] *)
(* ------------------------------------------------------------------------- *)

Section Arithmetic.
Open Scope Q_scope.

Lemma clamp_bounds (v lo hi : Q) :
  lo <= hi -> lo <= clamp v lo hi /\ clamp v lo hi <= hi.
Proof.
  intros Hle. unfold clamp. split.
  - apply Q.le_max_l.
  - apply Q.max_lub; [exact Hle | apply Q.le_min_l].
Qed.

Lemma clamp_comp (v v' lo lo' hi hi' : Q) :
  v == v' -> lo == lo' -> hi == hi' -> clamp v lo hi == clamp v' lo' hi'.
Proof. intros E1 E2 E3. unfold clamp. rewrite E1, E2, E3. reflexivity. Qed.

Lemma clamp_inside (v lo hi : Q) :
  lo <= v -> v <= hi -> clamp v lo hi == v.
Proof.
  intros Hlo Hhi. unfold clamp.
  destruct (Q.min_spec hi v) as [[H0 E]|[H0 E]];
    destruct (Q.max_spec lo (Qmin hi v)) as [[H1 E1]|[H1 E1]]; lra.
Qed.

Lemma clamp_below (v lo hi : Q) :
  v <= lo -> lo <= hi -> clamp v lo hi == lo.
Proof.
  intros Hv Hle. unfold clamp.
  destruct (Q.min_spec hi v) as [[H0 E]|[H0 E]];
    destruct (Q.max_spec lo (Qmin hi v)) as [[H1 E1]|[H1 E1]]; lra.
Qed.

Lemma clamp_above (v lo hi : Q) :
  hi <= v -> lo <= hi -> clamp v lo hi == hi.
Proof.
  intros Hv Hle. unfold clamp.
  destruct (Q.min_spec hi v) as [[H0 E]|[H0 E]];
    destruct (Q.max_spec lo (Qmin hi v)) as [[H1 E1]|[H1 E1]]; lra.
Qed.

Lemma Qlt_bool_true (a b : Q) : Qlt_bool a b = true <-> a < b.
Proof.
  unfold Qlt_bool. rewrite negb_true_iff. split; intros H.
  - apply Qnot_le_lt. intros Hle. apply Qle_bool_iff in Hle. congruence.
  - destruct (Qle_bool b a) eqn:E; [|reflexivity].
    apply Qle_bool_iff in E. lra.
Qed.

Lemma Qle_bool_false (a b : Q) : Qle_bool a b = false <-> b < a.
Proof.
  split; intros H.
  - apply Qnot_le_lt. intros Hle. apply Qle_bool_iff in Hle. congruence.
  - destruct (Qle_bool a b) eqn:E; [|reflexivity].
    apply Qle_bool_iff in E. lra.
Qed.

(** On a non-negative argument [int()] is the floor. *)
Lemma py_int_floor (q : Q) : 0 <= q -> py_int q = Qfloor q.
Proof.
  intros H. unfold py_int. apply Qle_bool_iff in H. now rewrite H.
Qed.

Lemma py_int_nonneg (q : Q) : 0 <= q -> (0 <= py_int q)%Z.
Proof.
  intros H. rewrite py_int_floor by exact H.
  change 0%Z with (Qfloor 0). now apply Qfloor_resp_le.
Qed.
(** The energy sums are rounded once: they stay within [2^-45] of the
    exact sum. *)
Lemma clamp_close (a b lo hi d : Q) :
  Qabs (a - b) <= d -> Qabs (clamp a lo hi - clamp b lo hi) <= d.
Proof.
  intros H. apply Qabs_Qle_condition in H. destruct H as [H1 H2].
  apply Qabs_Qle_condition. unfold clamp.
  destruct (Q.min_spec hi a) as [[A E]|[A E]];
    destruct (Q.min_spec hi b) as [[B F]|[B F]];
    destruct (Q.max_spec lo (Qmin hi a)) as [[C G]|[C G]];
    destruct (Q.max_spec lo (Qmin hi b)) as [[D I]|[D I]];
    rewrite G, I; rewrite ?E in *; rewrite ?F in *; split; lra.
Qed.

Lemma pow2_m45 : pow2 (-45) == 1 # 35184372088832.
Proof. reflexivity. Qed.

Lemma b64_close (x : Q) : Qabs x <= 128 -> Qabs (b64 x - x) <= pow2 (-45).
Proof.
  intros H. eapply Qle_trans; [apply b64_error|].
  assert (T : pow2 (-1075) <= pow2 (-46)) by (apply pow2_le; lia).
  assert (P46 : pow2 (-46) == 1 # 70368744177664) by reflexivity.
  rewrite pow2_m53. rewrite pow2_m45. rewrite P46 in T.
  generalize dependent (pow2 (-1075)). generalize dependent (Qabs x).
  intros. lra.
Qed.

Lemma fadd_close (e k : Q) :
  0 <= e -> e <= 100 -> 0 <= k -> k <= 28 ->
  Qabs (fadd e k - (e + k)) <= pow2 (-45).
Proof.
  intros H0 H1 H2 H3. unfold fadd. apply b64_close.
  rewrite Qabs_pos; lra.
Qed.

Lemma fsub_close (e k : Q) :
  0 <= e -> e <= 100 -> 0 <= k -> k <= 28 ->
  Qabs (fsub e k - (e - k)) <= pow2 (-45).
Proof.
  intros H0 H1 H2 H3. unfold fsub. apply b64_close.
  apply Qabs_Qle_condition. split; lra.
Qed.

Lemma clamp_gain64 (e gain : Q) :
  0 <= e -> e <= 100 -> 1 <= gain -> gain <= 28 ->
  e <= clamp (fadd e gain) 0 100 /\ clamp (fadd e gain) 0 100 <= 100 /\
  clamp (fadd e gain) 0 100 == Qmin 100 (fadd e gain) /\
  Qabs (clamp (fadd e gain) 0 100 - Qmin 100 (e + gain)) <= pow2 (-45).
Proof.
  intros H0 H1 Hg Hg'.
  assert (C := fadd_close e gain H0 H1 ltac:(lra) Hg').
  pose proof pow2_m45 as P.
  assert (C' := C). apply Qabs_Qle_condition in C'. destruct C' as [C1 C2].
  assert (F : e <= fadd e gain) by lra.
  assert (M : clamp (fadd e gain) 0 100 == Qmin 100 (fadd e gain)).
  { unfold clamp. apply Q.max_r.
    destruct (Q.min_spec 100 (fadd e gain)) as [[A E]|[A E]]; rewrite E; lra. }
  split; [|split; [|split; [exact M|]]].
  - rewrite M.
    destruct (Q.min_spec 100 (fadd e gain)) as [[A E]|[A E]]; rewrite E; lra.
  - apply clamp_bounds. lra.
  - assert (Q100 : Qmin 100 (e + gain) == clamp (e + gain) 0 100).
    { unfold clamp. symmetry. apply Q.max_r.
      destruct (Q.min_spec 100 (e + gain)) as [[A E]|[A E]]; rewrite E; lra. }
    rewrite Q100. apply clamp_close. exact C.
Qed.

End Arithmetic.

(* ------------------------------------------------------------------------- *)
(** ** Progress and speed factors *)
(* ------------------------------------------------------------------------- *)

Lemma progress_factor_bounds (w : World.t) :
  (0 <= World.progress_factor w)%Q /\ (World.progress_factor w <= 1)%Q.
Proof.
  unfold World.progress_factor.
  destruct (clamp_bounds (inject_Z (World.score w) / 4000.0) 0.0 1.0) as [A B];
    [lra | split; lra].
Qed.

Lemma speed_factor_bounds (w : World.t) :
  (1 <= World.speed_factor w)%Q /\ (World.speed_factor w <= 1.5)%Q.
Proof.
  unfold World.speed_factor.
  destruct (progress_factor_bounds w). split; lra.
Qed.

Lemma score_over_4000 (s : Z) : (inject_Z s / 4000 == inject_Z s * (1 # 4000))%Q.
Proof. unfold Qdiv. apply Qmult_comp; [reflexivity|]. reflexivity. Qed.

(** C1 (counterexample).  At 4000 px of ascent the score is 240, the
    progress factor is 0.06 and the speed factor 1.03: the factors do not
    follow the ascended distance. *)
Lemma progress_factor_ignores_distance :
  ~ progress_follows_distance Sample.at_4000_px.
Proof.
  intros (H & _). vm_compute in H. discriminate H.
Qed.

(** C1 (amended).  The progress factor is the score (as the update copies
    it into the world) over 4000, clamped to [0, 1]; the speed factor is
    1 + 0.5 * progress; a score of 0 gives 0 and 1.0, a score of 4000 or
    more gives 1 and 1.5. *)
Theorem progress_factor_follows_score (g : Game.t) :
  let w := Game.world (Game.sync_world g) in
  (World.progress_factor w == clamp (inject_Z (Game.score g) / 4000) 0 1)%Q /\
  (World.speed_factor w == 1 + 0.5 * World.progress_factor w)%Q /\
  (Game.score g = 0 ->
   (World.progress_factor w == 0)%Q /\ (World.speed_factor w == 1.0)%Q) /\
  (4000 <= Game.score g ->
   (World.progress_factor w == 1)%Q /\ (World.speed_factor w == 1.5)%Q).
Proof.
  cbv zeta.
  assert (Hp : (World.progress_factor (Game.world (Game.sync_world g))
                == clamp (inject_Z (Game.score g) / 4000) 0 1)%Q)
    by (unfold World.progress_factor; apply clamp_comp;
        first [reflexivity | unfold Qdiv; apply Qmult_comp; reflexivity]).
  assert (Hs : (World.speed_factor (Game.world (Game.sync_world g))
                == 1 + 0.5 * World.progress_factor
                               (Game.world (Game.sync_world g)))%Q)
    by (unfold World.speed_factor; lra).
  split; [exact Hp|]. split; [exact Hs|]. split.
  - intros H0.
    assert (E : (World.progress_factor (Game.world (Game.sync_world g)) == 0)%Q).
    { rewrite Hp, H0. reflexivity. }
    split; [exact E|]. rewrite Hs, E. reflexivity.
  - intros H4.
    assert (E : (World.progress_factor (Game.world (Game.sync_world g)) == 1)%Q).
    { rewrite Hp. apply clamp_above; [|lra].
      rewrite score_over_4000.
      assert (inject_Z 4000 <= inject_Z (Game.score g))%Q
        by (rewrite <- Zle_Qle; exact H4).
      change (inject_Z 4000) with 4000%Q in H. lra. }
    split; [exact E|]. rewrite Hs, E. reflexivity.
Qed.

Lemma progress_factor_follows_score_witness :
  Game.score Sample.fresh = 0 /\ 4000 <= Game.score Sample.later /\
  (World.speed_factor (Game.world (Game.sync_world Sample.fresh)) == 1.0)%Q /\
  (World.speed_factor (Game.world (Game.sync_world Sample.later)) == 1.5)%Q.
Proof.
  split; [reflexivity|]. split; [vm_compute; discriminate|]. split.
  - apply (proj1 (proj2 (proj2 (progress_factor_follows_score Sample.fresh)))).
    reflexivity.
  - apply (proj2 (proj2 (proj2 (progress_factor_follows_score Sample.later)))).
    vm_compute. discriminate.
Defined.

(* ------------------------------------------------------------------------- *)
(** ** Energy stays in [0, 100] *)
(* ------------------------------------------------------------------------- *)

Lemma clamp_energy (v : Q) :
  (0 <= clamp v 0 100)%Q /\ (clamp v 0 100 <= 100)%Q.
Proof. apply clamp_bounds. lra. Qed.

Lemma clamp_energy_float (v : Q) :
  (0 <= clamp v 0.0 100.0)%Q /\ (clamp v 0.0 100.0 <= 100)%Q.
Proof.
  destruct (clamp_bounds v 0.0 100.0) as [A B]; [lra | split; lra].
Qed.

Lemma update_energy (keys : Keys) (touch_x : option Z) (pl : Player.t) :
  energy_in_range (Player.update keys touch_x pl).
Proof. unfold energy_in_range, Player.update. simpl. apply clamp_energy_float. Qed.

Lemma take_enemy_hit_energy (pl : Player.t) :
  energy_in_range pl -> energy_in_range (Player.take_enemy_hit pl).
Proof.
  intros H. unfold Player.take_enemy_hit.
  destruct (Player.invincible pl >? 0); [exact H|].
  destruct (Player.shield pl >? 0); [exact H|].
  match goal with |- context [if ?c then _ else _] => destruct c end;
    unfold energy_in_range; simpl; apply clamp_energy_float.
Qed.

Lemma handle_platform_effect_energy (pl : Player.t) (p : Platform.t) :
  energy_in_range pl ->
  energy_in_range (fst (Game.handle_platform_effect pl p)).
Proof.
  intros H. unfold Game.handle_platform_effect.
  destruct (Platform.kind p); simpl; try exact H;
    unfold energy_in_range; simpl; apply clamp_energy.
Qed.

Lemma land_energy (sf : Q) (pl : Player.t) (p : Platform.t) :
  energy_in_range pl -> energy_in_range (fst (Game.land sf pl p)).
Proof.
  intros H. unfold Game.land. apply handle_platform_effect_energy. exact H.
Qed.

Lemma apply_bonus_energy (b : Bonus.t) (pl : Player.t) :
  energy_in_range pl -> energy_in_range (Game.apply_bonus b pl).
Proof.
  intros H. unfold Game.apply_bonus.
  destruct (Bonus.kind b); simpl; try exact H.
  unfold energy_in_range; simpl; apply clamp_energy.
Qed.

Lemma revive_on_safe_energy (ps : list Platform.t) (pl : Player.t) :
  energy_in_range pl -> energy_in_range (Player.revive_on_safe ps pl).
Proof.
  intros [H0 H1]. unfold energy_in_range, Player.revive_on_safe. simpl.
  destruct (Q.max_spec 55.0 (Player.energy pl)) as [[A E]|[A E]]; split; lra.
Qed.

Lemma apply_op_energy (op : PlayerOp) (pl : Player.t) :
  energy_in_range pl -> energy_in_range (apply_op op pl).
Proof.
  intros H. destruct op; simpl.
  - apply update_energy.
  - now apply take_enemy_hit_energy.
  - now apply land_energy.
  - now apply apply_bonus_energy.
  - now apply revive_on_safe_energy.
  - unfold energy_in_range. simpl. split; lra.
Qed.

Lemma init_energy (x y lives : Z) : energy_in_range (Player.init x y lives).
Proof. unfold energy_in_range. simpl. unfold INITIAL_ENERGY. split; lra. Qed.

Lemma states_after_energy (ops : list PlayerOp) (pl : Player.t) :
  energy_in_range pl -> Forall energy_in_range (states_after ops pl).
Proof.
  revert pl. induction ops as [|op ops IH]; intros pl H; simpl.
  - constructor.
  - constructor; [|apply IH]; now apply apply_op_energy.
Qed.

(* ------------------------------------------------------------------------- *)
(** ** What the blocks of the update leave alone *)
(* ------------------------------------------------------------------------- *)

Ltac break_pair :=
  match goal with
  | |- context [match ?e with _ => _ end] =>
      match type of e with
      | prod _ _ => destruct e eqn:?
      end
  end.

Ltac break_if :=
  match goal with
  | |- context [if ?c then _ else _] => destruct c eqn:?
  end.

Lemma game_over_player (g : Game.t) :
  Game.player (Game.game_over g) = Game.player g.
Proof. unfold Game.game_over. break_if; reflexivity. Qed.

Lemma game_over_state (g : Game.t) :
  Game.state (Game.game_over g) = STATE_GAMEOVER.
Proof. unfold Game.game_over. break_if; reflexivity. Qed.

Lemma game_over_quiz (g : Game.t) :
  Game.quiz (Game.game_over g) = Game.quiz g /\
  Game.random (Game.game_over g) = Game.random g /\
  Game.platforms (Game.game_over g) = Game.platforms g /\
  Game.ascended_px (Game.game_over g) = Game.ascended_px g.
Proof. unfold Game.game_over. break_if; repeat split; reflexivity. Qed.

Lemma game_over_score (g : Game.t) :
  Game.score (Game.game_over g)
  = Z.max (Game.score g) (py_int (inject_Z (Game.ascended_px g) * 0.06)%Q).
Proof. unfold Game.game_over. break_if; reflexivity. Qed.

Lemma trigger_quiz_player (g : Game.t) :
  Game.player (Game.trigger_quiz g)
  = Player.set_lives (Player.lives (Game.player g) - 1) (Game.player g).
Proof.
  unfold Game.trigger_quiz. break_if.
  - rewrite game_over_player. reflexivity.
  - break_pair. reflexivity.
Qed.

Lemma trigger_quiz_state (g : Game.t) :
  Game.state (Game.trigger_quiz g)
  = if Player.lives (Game.player g) - 1 <? 0 then STATE_GAMEOVER
    else STATE_QUIZ.
Proof.
  unfold Game.trigger_quiz. simpl. break_if.
  - apply game_over_state.
  - reflexivity.
Qed.

Lemma trigger_quiz_ascended (g : Game.t) :
  Game.ascended_px (Game.trigger_quiz g) = Game.ascended_px g /\
  Game.platforms (Game.trigger_quiz g) = Game.platforms g.
Proof.
  unfold Game.trigger_quiz. break_if.
  - destruct (game_over_quiz
                (Game.set_player
                   (Player.set_lives (Player.lives (Game.player g) - 1)
                                     (Game.player g)) g)) as (_ & _ & A & B).
    split; [exact B | exact A].
  - break_pair. split; reflexivity.
Qed.

Lemma trigger_quiz_score (g : Game.t) :
  Game.score (Game.trigger_quiz g) = Game.score g \/
  Game.score (Game.trigger_quiz g)
  = Z.max (Game.score g) (py_int (inject_Z (Game.ascended_px g) * 0.06)%Q).
Proof.
  unfold Game.trigger_quiz. break_if.
  - right. rewrite game_over_score. reflexivity.
  - break_pair. left. reflexivity.
Qed.

(** Spawning never touches the player, the flow or the totals. *)
Lemma add_platform_kept (x y : Z) (k : PlatformKind) (g : Game.t) :
  let g' := snd (Game.add_platform x y k g) in
  flow g' = flow g /\ totals g' = totals g /\
  Game.player g' = Game.player g /\ Game.world g' = Game.world g /\
  Game.touch_x g' = Game.touch_x g.
Proof.
  unfold Game.add_platform. break_pair. simpl. repeat split; reflexivity.
Qed.

Lemma add_bonus_kept (x y : Z) (k : BonusKind) (g : Game.t) :
  let g' := Game.add_bonus x y k g in
  flow g' = flow g /\ totals g' = totals g /\
  Game.player g' = Game.player g /\ Game.world g' = Game.world g /\
  Game.touch_x g' = Game.touch_x g.
Proof.
  unfold Game.add_bonus. break_pair. simpl. repeat split; reflexivity.
Qed.

Lemma add_enemy_kept (x y : Z) (k : EnemyKind) (g : Game.t) :
  let g' := Game.add_enemy x y k g in
  flow g' = flow g /\ totals g' = totals g /\
  Game.player g' = Game.player g /\ Game.world g' = Game.world g /\
  Game.touch_x g' = Game.touch_x g.
Proof.
  unfold Game.add_enemy. break_pair. simpl. repeat split; reflexivity.
Qed.

Lemma choose_platform_type_world (w : World.t) :
  World.spawn_y (snd (World.choose_platform_type w)) = World.spawn_y w /\
  World.score (snd (World.choose_platform_type w)) = World.score w.
Proof.
  unfold World.choose_platform_type. break_pair. split; reflexivity.
Qed.

Lemma choose_enemy_world (w : World.t) :
  World.spawn_y (snd (World.choose_enemy w)) = World.spawn_y w /\
  World.score (snd (World.choose_enemy w)) = World.score w.
Proof.
  unfold World.choose_enemy. break_pair. break_if.
  - break_pair. split; reflexivity.
  - split; reflexivity.
Qed.

Lemma choose_bonus_world (w : World.t) :
  World.spawn_y (snd (World.choose_bonus w)) = World.spawn_y w /\
  World.score (snd (World.choose_bonus w)) = World.score w.
Proof.
  unfold World.choose_bonus. break_pair. break_if.
  - break_pair. split; reflexivity.
  - split; reflexivity.
Qed.

Ltac break_match :=
  match goal with
  | |- context [match ?e with _ => _ end] => destruct e eqn:?
  end.

(** [kept g g']: going from [g] to [g'] changed neither the player, the
    flow, the totals, the world's copy of the score nor the touch;
    [frontier_kept] adds the spawn frontier. *)
Lemma kept_refl (g : Game.t) : kept g g.
Proof. repeat split; reflexivity. Qed.

Lemma kept_trans (g1 g2 g3 : Game.t) : kept g1 g2 -> kept g2 g3 -> kept g1 g3.
Proof.
  unfold kept. intros (A1 & A2 & A3 & A4 & A5) (B1 & B2 & B3 & B4 & B5).
  repeat split; congruence.
Qed.

Lemma kept_set_platforms (ps : list Platform.t) (g : Game.t) :
  kept g (Game.set_platforms ps g).
Proof. repeat split; reflexivity. Qed.

Lemma frontier_kept_refl (g : Game.t) : frontier_kept g g.
Proof. split; [apply kept_refl | reflexivity]. Qed.

Lemma frontier_kept_trans (g1 g2 g3 : Game.t) :
  frontier_kept g1 g2 -> frontier_kept g2 g3 -> frontier_kept g1 g3.
Proof.
  intros [A1 A2] [B1 B2]. split; [eapply kept_trans; eassumption | congruence].
Qed.

Lemma frontier_kept_set_random (r : Random.t) (g : Game.t) :
  frontier_kept g (Game.set_random r g).
Proof. repeat split; reflexivity. Qed.

Lemma frontier_kept_set_world (w : World.t) (g : Game.t) :
  World.spawn_y w = World.spawn_y (Game.world g) /\
  World.score w = World.score (Game.world g) ->
  frontier_kept g (Game.set_world w g).
Proof. intros [H1 H2]. repeat split; try reflexivity; assumption. Qed.

Lemma frontier_kept_add_platform (x y : Z) (k : PlatformKind) (g : Game.t) :
  frontier_kept g (snd (Game.add_platform x y k g)).
Proof. unfold Game.add_platform. break_pair. repeat split; reflexivity. Qed.

Lemma frontier_kept_add_bonus (x y : Z) (k : BonusKind) (g : Game.t) :
  frontier_kept g (Game.add_bonus x y k g).
Proof. unfold Game.add_bonus. break_pair. repeat split; reflexivity. Qed.

Lemma frontier_kept_add_enemy (x y : Z) (k : EnemyKind) (g : Game.t) :
  frontier_kept g (Game.add_enemy x y k g).
Proof. unfold Game.add_enemy. break_pair. repeat split; reflexivity. Qed.

(** Name the state a call returns by the call itself. *)
Ltac name_snd e :=
  let a := fresh "v" in
  let b := fresh "s" in
  let E := fresh "E" in
  destruct e as [a b] eqn:E;
  apply (f_equal snd) in E; cbn [snd] in E; subst b; cbn [snd] in *.

Ltac then_kept tac :=
  eapply frontier_kept_trans; [|tac].

(** One round of the spawn loop: the frontier drops by the drawn gap and
    nothing else of the flow moves. *)
Lemma spawn_one_frontier_kept (sf : Q) (g : Game.t) :
  let gap :=
    fst (Random.randint (py_int (inject_Z SPAWN_MIN_GAP / sf)%Q)
                        (py_int (inject_Z SPAWN_MAX_GAP / sf)%Q)
                        (Game.random g)) in
  frontier_kept
    (Game.set_world
       (World.set_spawn_y (World.spawn_y (Game.world g) - gap) (Game.world g))
       g)
    (Game.spawn_one sf g).
Proof.
  unfold Game.spawn_one.
  destruct (Random.randint _ _ (Game.random g)) as [gap rnd1]. cbn [fst].
  set (g0 := Game.set_world
               (World.set_spawn_y (World.spawn_y (Game.world g) - gap)
                                  (Game.world g)) g).
  cbv zeta.
  match goal with
  | |- context [World.choose_platform_type ?w] =>
      pose proof (choose_platform_type_world w) as Hw2;
      destruct (World.choose_platform_type w) as [v w2]; cbn [snd] in Hw2
  end.
  destruct (Random.randint _ _ rnd1) as [x0 rnd2].
  match goal with
  | |- context [Game.add_platform ?x ?y ?k ?h] =>
      assert (H1 : frontier_kept g0 (snd (Game.add_platform x y k h)))
        by (then_kept ltac:(apply frontier_kept_add_platform);
            then_kept ltac:(apply frontier_kept_set_random);
            split; [repeat split; try reflexivity; apply Hw2 | apply Hw2]);
      destruct (Game.add_platform x y k h) as [p g1]; cbn [snd] in H1
  end.
  clear Hw2.
  match goal with
  | |- context [World.choose_enemy (Game.world ?h)] =>
      assert (H2 : frontier_kept g0 h);
      [| set (g2 := h) in *; clearbody g2; clear H1 ]
  end.
  { destruct v; try exact H1;
      (break_pair; break_if;
       [then_kept ltac:(apply frontier_kept_add_bonus)|];
       (eapply frontier_kept_trans;
        [exact H1 | apply frontier_kept_set_random])). }
  pose proof (choose_enemy_world (Game.world g2)) as Hw3.
  destruct (World.choose_enemy (Game.world g2)) as [ek w3]; cbn [snd] in Hw3.
  match goal with
  | |- context [World.choose_bonus (Game.world ?h)] =>
      assert (H3 : frontier_kept g0 h);
      [| set (g3 := h) in *; clearbody g3; clear H2 Hw3 ]
  end.
  { destruct ek.
    - break_pair.
      then_kept ltac:(apply frontier_kept_add_enemy).
      then_kept ltac:(apply frontier_kept_set_random).
      eapply frontier_kept_trans;
        [exact H2 | apply frontier_kept_set_world; exact Hw3].
    - eapply frontier_kept_trans;
        [exact H2 | apply frontier_kept_set_world; exact Hw3]. }
  pose proof (choose_bonus_world (Game.world g3)) as Hw4.
  destruct (World.choose_bonus (Game.world g3)) as [bk w4]; cbn [snd] in Hw4.
  destruct bk.
  - do 2 break_pair.
    then_kept ltac:(apply frontier_kept_add_bonus).
    then_kept ltac:(apply frontier_kept_set_random).
    eapply frontier_kept_trans;
      [exact H3 | apply frontier_kept_set_world; exact Hw4].
  - eapply frontier_kept_trans;
      [exact H3 | apply frontier_kept_set_world; exact Hw4].
Qed.

Lemma spawn_one_kept (sf : Q) (g : Game.t) : kept g (Game.spawn_one sf g).
Proof.
  eapply kept_trans; [|apply spawn_one_frontier_kept].
  repeat split; reflexivity.
Qed.

Lemma spawn_loop_kept (fuel : nat) (sf : Q) (g : Game.t) :
  kept g (Game.spawn_loop fuel sf g).
Proof.
  revert g. induction fuel as [|n IH]; intros g; simpl.
  - apply kept_refl.
  - break_if; [|apply kept_refl].
    eapply kept_trans; [apply spawn_one_kept | apply IH].
Qed.

Lemma spawn_next_kept (g : Game.t) : kept g (Game.spawn_next g).
Proof.
  unfold Game.spawn_next.
  eapply kept_trans; [apply spawn_loop_kept | apply kept_set_platforms].
Qed.

(** The spawn loop ends by its own test: the fuel of [spawn_next] is never
    used up. *)
Lemma randint_range (a b : Z) (r : Random.t) :
  a <= b -> a <= fst (Random.randint a b r) <= b.
Proof.
  intros H. unfold Random.randint, Random.next. cbn [fst].
  pose proof (Z.mod_pos_bound (Z.of_N (Random.raw r (Random.pos r)))
                              (b - a + 1)) as Hm.
  lia.
Qed.

Lemma spawn_gap_bounds (sf : Q) :
  (1 <= sf)%Q -> (sf <= 1.5)%Q ->
  60 <= py_int (inject_Z SPAWN_MIN_GAP / sf)%Q /\
  py_int (inject_Z SPAWN_MIN_GAP / sf)%Q
  <= py_int (inject_Z SPAWN_MAX_GAP / sf)%Q.
Proof.
  intros H1 H2.
  assert (Hpos : (0 < sf)%Q) by lra.
  assert (Hmin : (60 <= inject_Z SPAWN_MIN_GAP / sf)%Q).
  { apply Qle_shift_div_l; [exact Hpos|].
    change (inject_Z SPAWN_MIN_GAP) with 90%Q. lra. }
  assert (Hmax : (inject_Z SPAWN_MIN_GAP / sf <= inject_Z SPAWN_MAX_GAP / sf)%Q).
  { apply Qle_shift_div_l; [exact Hpos|].
    unfold Qdiv. rewrite <- Qmult_assoc, (Qmult_comm (/ sf)), Qmult_inv_r by lra.
    change (inject_Z SPAWN_MIN_GAP) with 90%Q.
    change (inject_Z SPAWN_MAX_GAP) with 170%Q. lra. }
  rewrite !py_int_floor by lra. split.
  - change 60 with (Qfloor 60). now apply Qfloor_resp_le.
  - now apply Qfloor_resp_le.
Qed.

Lemma spawn_one_frontier (sf : Q) (g : Game.t) :
  (1 <= sf)%Q -> (sf <= 1.5)%Q ->
  World.spawn_y (Game.world (Game.spawn_one sf g))
  <= World.spawn_y (Game.world g) - 60.
Proof.
  intros H1 H2.
  destruct (spawn_one_frontier_kept sf g) as [_ E]. rewrite E.
  cbn [Game.world Game.set_world World.spawn_y World.set_spawn_y].
  destruct (spawn_gap_bounds sf H1 H2) as [A B].
  pose proof (randint_range _ _ (Game.random g) B). lia.
Qed.

Lemma spawn_loop_frontier (fuel : nat) (sf : Q) (g : Game.t) :
  (1 <= sf)%Q -> (sf <= 1.5)%Q ->
  World.spawn_y (Game.world g) + HEIGHT <= Z.of_nat fuel ->
  World.spawn_y (Game.world (Game.spawn_loop fuel sf g)) <= - HEIGHT.
Proof.
  intros H1 H2. revert g.
  induction fuel as [|n IH]; intros g Hf; cbn [Game.spawn_loop].
  - unfold HEIGHT in *. lia.
  - destruct (World.spawn_y (Game.world g) >? - HEIGHT) eqn:E.
    + apply IH. pose proof (spawn_one_frontier sf g H1 H2). lia.
    + rewrite Z.gtb_ltb in E. apply Z.ltb_ge in E. exact E.
Qed.

Lemma spawn_next_frontier (g : Game.t) :
  World.spawn_y (Game.world (Game.spawn_next g)) <= - HEIGHT.
Proof.
  unfold Game.spawn_next. cbn [Game.world Game.set_platforms].
  destruct (speed_factor_bounds (Game.world g)) as [A B].
  apply spawn_loop_frontier; [exact A | exact B | lia].
Qed.

Lemma flow_eq (g g' : Game.t) :
  flow g' = flow g <->
  Game.state g' = Game.state g /\ Game.quiz g' = Game.quiz g /\
  Player.lives (Game.player g') = Player.lives (Game.player g).
Proof.
  unfold flow. split.
  - intros H. inversion H. repeat split; reflexivity.
  - intros (A & B & C). rewrite A, B, C. reflexivity.
Qed.

Lemma totals_eq (g g' : Game.t) :
  totals g' = totals g <->
  Game.score g' = Game.score g /\ Game.high_score g' = Game.high_score g /\
  Game.ascended_px g' = Game.ascended_px g.
Proof.
  unfold totals. split.
  - intros H. inversion H. repeat split; reflexivity.
  - intros (A & B & C). rewrite A, B, C. reflexivity.
Qed.

Lemma flow_touch (v : option Z) (g : Game.t) :
  flow (Game.set_touch_x v g) = flow g.
Proof. reflexivity. Qed.

(** The blocks before the enemy loop. *)
Lemma land_lives (sf : Q) (pl : Player.t) (p : Platform.t) :
  Player.lives (fst (Game.land sf pl p)) = Player.lives pl.
Proof.
  unfold Game.land, Game.handle_platform_effect.
  destruct (Platform.kind p); reflexivity.
Qed.

Lemma landing_scan_player (sf : Q) (pl : Player.t) (ps : list Platform.t) :
  Player.lives (fst (Game.landing_scan sf pl ps)) = Player.lives pl /\
  (energy_in_range pl -> energy_in_range (fst (Game.landing_scan sf pl ps))).
Proof.
  induction ps as [|p ps IH]; cbn [Game.landing_scan].
  - split; [reflexivity | intros Hr; exact Hr].
  - destruct (negb (Platform.active p)).
    + destruct (Game.landing_scan sf pl ps) as [pl' ps']. exact IH.
    + destruct (Game.lands_on pl p).
      * pose proof (land_lives sf pl p). pose proof (land_energy sf pl p).
        destruct (Game.land sf pl p) as [pl' p']. split; assumption.
      * destruct (Game.landing_scan sf pl ps) as [pl' ps']. exact IH.
Qed.

Lemma resolve_platform_collisions_kept (sf : Q) (g : Game.t) :
  let g' := Game.resolve_platform_collisions sf g in
  flow g' = flow g /\ totals g' = totals g /\
  Game.enemies g' = Game.enemies g /\
  (energy_in_range (Game.player g) -> energy_in_range (Game.player g')).
Proof.
  unfold Game.resolve_platform_collisions.
  destruct (Qle_bool (Player.vel_y (Game.player g)) 0).
  - repeat (split; [reflexivity|]). intros Hr; exact Hr.
  - destruct (landing_scan_player sf (Game.player g) (Game.platforms g))
      as [A B].
    destruct (Game.landing_scan sf (Game.player g) (Game.platforms g))
      as [pl ps].
    cbn [fst] in A, B. unfold flow, totals. cbn. rewrite A.
    repeat (split; [reflexivity|]). exact B.
Qed.

Lemma move_kept (sin : Q -> Q) (sf : Q) (keys : Keys) (g : Game.t) :
  let g' := Game.move sin sf keys g in
  flow g' = flow g /\ totals g' = totals g /\
  Game.world g' = Game.world g /\
  energy_in_range (Game.player g').
Proof.
  unfold Game.move.
  assert (E : energy_in_range
                (Player.update keys (Game.touch_x g)
                   (Player.set_vel_y
                      (Player.vel_y (Game.player g) + GRAVITY * (sf - 1.0))%Q
                      (Game.player g)))) by apply update_energy.
  destruct (Player.steer keys (Game.touch_x g) (PLAYER_MOVE_SPEED * sf)%Q);
    repeat split; try reflexivity; apply E.
Qed.

Lemma camera_kept (g : Game.t) :
  let g' := Game.camera g in
  flow g' = flow g /\
  Game.score g' = Game.score g /\ Game.high_score g' = Game.high_score g /\
  Game.ascended_px g <= Game.ascended_px g' /\
  World.score (Game.world g') = World.score (Game.world g) /\
  Player.energy (Game.player g') = Player.energy (Game.player g).
Proof.
  unfold Game.camera.
  destruct (Rect.top (Player.rect (Game.player g)) <=? SCROLL_TRIGGER_Y) eqn:E.
  - apply Z.leb_le in E. do 3 (split; [reflexivity|]).
    split; [cbn [Game.ascended_px]; lia | split; reflexivity].
  - do 3 (split; [reflexivity|]). split; [lia | split; reflexivity].
Qed.

Lemma before_enemies_kept (sin : Q -> Q) (keys : Keys) (g : Game.t) :
  let g' := before_enemies sin keys g in
  flow g' = flow g /\
  Game.score g' = Game.score g /\ Game.high_score g' = Game.high_score g /\
  Game.ascended_px g <= Game.ascended_px g' /\
  energy_in_range (Game.player g').
Proof.
  unfold before_enemies.
  set (g0 := Game.sync_world g).
  set (sf := World.speed_factor (Game.world g0)).
  destruct (move_kept sin sf keys g0) as (A1 & A2 & _ & A4).
  destruct (camera_kept (Game.move sin sf keys g0)) as (B1 & B2 & B3 & B4 & _ & B6).
  destruct (spawn_next_kept (Game.camera (Game.move sin sf keys g0)))
    as (C1 & C2 & C3 & _).
  destruct (resolve_platform_collisions_kept sf
              (Game.spawn_next (Game.camera (Game.move sin sf keys g0))))
    as (D1 & D2 & _ & D4).
  cbv zeta.
  unfold totals in *.
  assert (F0 : flow g0 = flow g) by reflexivity.
  assert (T0 : (Game.score g0, Game.high_score g0, Game.ascended_px g0)
               = (Game.score g, Game.high_score g, Game.ascended_px g))
    by reflexivity.
  split; [congruence|].
  inversion A2; inversion C2; inversion D2; inversion T0.
  repeat split; try congruence; try lia.
  - apply D4. rewrite C3. destruct A4 as [X Y]. split; rewrite B6; assumption.
  - apply D4. rewrite C3. destruct A4 as [X Y]. split; rewrite B6; assumption.
Qed.

(** The enemy loop. *)
Lemma enemy_update_rect (sin : Q -> Q) (sf : Q) (pl pl' : Player.t)
      (e : Enemy.t) :
  Player.rect pl = Player.rect pl' ->
  Enemy.update sin pl sf e = Enemy.update sin pl' sf e.
Proof. intros E. unfold Enemy.update. rewrite E. reflexivity. Qed.

Lemma enemy_contact_rect (sin : Q -> Q) (sf : Q) (pl pl' : Player.t)
      (e : Enemy.t) :
  Player.rect pl = Player.rect pl' ->
  Game.enemy_contact sin sf pl e = Game.enemy_contact sin sf pl' e.
Proof.
  intros E. unfold Game.enemy_contact.
  rewrite (enemy_update_rect sin sf pl pl' e E), E. reflexivity.
Qed.

Lemma take_enemy_hit_rect (pl : Player.t) :
  Player.rect (Player.take_enemy_hit pl) = Player.rect pl /\
  Player.lives (Player.take_enemy_hit pl) = Player.lives pl.
Proof.
  unfold Player.take_enemy_hit. repeat break_if; split; reflexivity.
Qed.

Lemma take_enemy_hit_set_lives (l : Z) (pl : Player.t) :
  Player.take_enemy_hit (Player.set_lives l pl)
  = Player.set_lives l (Player.take_enemy_hit pl).
Proof.
  unfold Player.take_enemy_hit. cbn.
  destruct (Player.invincible pl >? 0); [reflexivity|].
  destruct (Player.shield pl >? 0); [reflexivity|].
  destruct (Qlt_bool (Player.vel_y pl) (- 8)); reflexivity.
Qed.

Lemma enemy_life_loss_set_lives (sin : Q -> Q) (sf : Q) (l : Z)
      (es : list Enemy.t) (pl : Player.t) :
  enemy_life_loss sin sf (Player.set_lives l pl) es
  = enemy_life_loss sin sf pl es.
Proof.
  revert pl. induction es as [|e es IH]; intros pl; cbn [enemy_life_loss].
  - reflexivity.
  - rewrite (enemy_contact_rect sin sf (Player.set_lives l pl) pl e)
      by reflexivity.
    rewrite take_enemy_hit_set_lives, !IH. reflexivity.
Qed.

Lemma trigger_quiz_after_loss (g : Game.t) :
  after_loss (Game.state (Game.trigger_quiz g)).
Proof.
  rewrite trigger_quiz_state. unfold after_loss. break_if; auto.
Qed.

(** One enemy that touches the player: the hit, then the test of the
    energy. *)
Lemma hit_then_test (g : Game.t) (rnd : Random.t) :
  let pl := Player.take_enemy_hit (Game.player g) in
  let g2 := Game.set_random rnd (Game.set_player pl g) in
  let fires := Qle_bool (Player.energy (Game.player g2)) 0 in
  let g3 := if fires then Game.trigger_quiz g2 else g2 in
  Game.player g3
  = (if fires then Player.set_lives (Player.lives pl - 1) pl else pl) /\
  Game.ascended_px g3 = Game.ascended_px g /\
  (after_loss (Game.state g) -> after_loss (Game.state g3)) /\
  (Game.score g3 = Game.score g \/
   Game.score g3
   = Z.max (Game.score g) (py_int (inject_Z (Game.ascended_px g) * 0.06)%Q)) /\
  (fires = false ->
   flow g3 = flow g /\ Game.score g3 = Game.score g /\
   Game.high_score g3 = Game.high_score g) /\
  (fires = true -> after_loss (Game.state g3)).
Proof.
  cbv zeta.
  set (pl := Player.take_enemy_hit (Game.player g)).
  set (g2 := Game.set_random rnd (Game.set_player pl g)).
  destruct (take_enemy_hit_rect (Game.player g)) as [_ Hl]. fold pl in Hl.
  destruct (Qle_bool (Player.energy (Game.player g2)) 0).
  - split; [apply trigger_quiz_player|].
    split; [apply (trigger_quiz_ascended g2)|].
    split; [intros _; apply trigger_quiz_after_loss|].
    split; [apply (trigger_quiz_score g2)|].
    split; [discriminate | intros _; apply trigger_quiz_after_loss].
  - split; [reflexivity|]. split; [reflexivity|].
    split; [intros Hs; exact Hs|]. split; [left; reflexivity|].
    split; [|discriminate]. intros _.
    unfold flow. cbn. rewrite Hl. repeat split; reflexivity.
Qed.

Lemma enemy_loop_always (sin : Q -> Q) (sf : Q) (es : list Enemy.t) :
  forall g : Game.t,
    let g' := fst (Game.enemy_loop sin sf g es) in
    Player.rect (Game.player g') = Player.rect (Game.player g) /\
    Game.ascended_px g' = Game.ascended_px g /\
    Player.lives (Game.player g') <= Player.lives (Game.player g) /\
    (energy_in_range (Game.player g) -> energy_in_range (Game.player g')) /\
    (after_loss (Game.state g) -> after_loss (Game.state g')) /\
    (Game.score g' = Game.score g \/
     Game.score g'
     = Z.max (Game.score g)
             (py_int (inject_Z (Game.ascended_px g) * 0.06)%Q)).
Proof.
  induction es as [|e es IH]; intros g; cbn [Game.enemy_loop].
  - cbn [fst]. do 2 (split; [reflexivity|]).
    split; [lia|]. split; [intros H; exact H|].
    split; [intros H; exact H | left; reflexivity].
  - destruct (Rect.colliderect _ _).
    + destruct (Random.choice 0 [-10; 10] _) as [d rnd].
      pose proof (hit_then_test g rnd) as H. cbv zeta in H.
      cbn [Game.random Game.set_player] in *.
      pose proof (take_enemy_hit_rect (Game.player g)) as [Hr Hl].
      pose proof (take_enemy_hit_energy (Game.player g)) as He.
      match type of H with
      | context [if ?c then Game.trigger_quiz ?a else ?b] =>
          set (g3 := if c then Game.trigger_quiz a else b) in *;
          set (fires := c) in *
      end.
      destruct H as (Hp & Ha & Hs & Hsc & _ & _).
      specialize (IH g3).
      destruct (Game.enemy_loop sin sf g3 es) as [g4 rest']. cbn [fst] in *.
      destruct IH as (I1 & I2 & I3 & I4 & I5 & I6).
      assert (Hrect : Player.rect (Game.player g3) = Player.rect (Game.player g))
        by (rewrite Hp; destruct fires; cbn; exact Hr).
      assert (Hlives : Player.lives (Game.player g3)
                       <= Player.lives (Game.player g))
        by (rewrite Hp; destruct fires; cbn; lia).
      assert (Hen : energy_in_range (Game.player g) ->
                    energy_in_range (Game.player g3))
        by (intros X; rewrite Hp; destruct fires; apply (He X)).
      split; [congruence|]. split; [congruence|]. split; [lia|].
      split; [tauto|]. split; [tauto|].
      rewrite Ha in I6. destruct Hsc as [E|E]; destruct I6 as [F|F];
        rewrite F, E; lia.
    + specialize (IH g).
      destruct (Game.enemy_loop sin sf g es) as [g4 rest']. exact IH.
Qed.

Lemma enemy_loop_quiet (sin : Q -> Q) (sf : Q) (es : list Enemy.t) :
  forall g : Game.t,
    enemy_life_loss sin sf (Game.player g) es = false ->
    let g' := fst (Game.enemy_loop sin sf g es) in
    flow g' = flow g /\ Game.score g' = Game.score g /\
    Game.high_score g' = Game.high_score g.
Proof.
  induction es as [|e es IH]; intros g Hq;
    cbn [Game.enemy_loop enemy_life_loss] in *.
  - repeat split; reflexivity.
  - unfold Game.enemy_contact in Hq.
    destruct (Rect.colliderect _ _).
    + apply orb_false_iff in Hq. destruct Hq as [Hf Hrest].
      destruct (Random.choice 0 [-10; 10] _) as [d rnd].
      pose proof (hit_then_test g rnd) as H. cbv zeta in H.
      cbn [Game.random Game.set_player Game.player Game.set_random] in *.
      rewrite Hf in *. destruct H as (Hp & _ & _ & _ & Hk & _).
      specialize (Hk eq_refl). rewrite <- Hp in Hrest.
      specialize (IH _ Hrest).
      destruct (Game.enemy_loop sin sf _ es) as [g4 rest']. cbn [fst] in *.
      destruct Hk as (K1 & K2 & K3). destruct IH as (I1 & I2 & I3).
      repeat split; congruence.
    + specialize (IH g Hq).
      destruct (Game.enemy_loop sin sf g es) as [g4 rest']. exact IH.
Qed.

Lemma enemy_loop_loss (sin : Q -> Q) (sf : Q) (es : list Enemy.t) :
  forall g : Game.t,
    enemy_life_loss sin sf (Game.player g) es = true ->
    let g' := fst (Game.enemy_loop sin sf g es) in
    Player.lives (Game.player g') < Player.lives (Game.player g) /\
    after_loss (Game.state g').
Proof.
  induction es as [|e es IH]; intros g Hq;
    cbn [Game.enemy_loop enemy_life_loss] in *.
  - discriminate Hq.
  - unfold Game.enemy_contact in Hq.
    destruct (Rect.colliderect _ _).
    + destruct (Random.choice 0 [-10; 10] _) as [d rnd].
      pose proof (hit_then_test g rnd) as H. cbv zeta in H.
      cbn [Game.random Game.set_player Game.player Game.set_random] in *.
      pose proof (take_enemy_hit_rect (Game.player g)) as [_ Hl].
      destruct (Qle_bool (Player.energy (Player.take_enemy_hit (Game.player g))) 0).
      * destruct H as (Hp & _ & _ & _ & _ & Hk). specialize (Hk eq_refl).
        match goal with
        | |- context [Game.enemy_loop sin sf ?h es] =>
            pose proof (enemy_loop_always sin sf es h) as A
        end.
        cbv zeta in A. destruct A as (_ & _ & A3 & _ & A5 & _).
        destruct (Game.enemy_loop sin sf _ es) as [g4 rest']. cbn [fst] in *.
        rewrite Hp in A3. cbn in A3. split; [lia | tauto].
      * cbn [orb] in Hq. destruct H as (Hp & _).
        rewrite <- Hp in Hq. specialize (IH _ Hq).
        destruct (Game.enemy_loop sin sf _ es) as [g4 rest']. cbn [fst] in *.
        rewrite Hp in IH. split; [lia | tauto].
    + specialize (IH g Hq).
      destruct (Game.enemy_loop sin sf g es) as [g4 rest']. exact IH.
Qed.

(** The blocks after the enemy loop. *)
Lemma apply_bonus_player (b : Bonus.t) (pl : Player.t) :
  Player.rect (Game.apply_bonus b pl) = Player.rect pl /\
  Player.lives (Game.apply_bonus b pl) = Player.lives pl.
Proof. unfold Game.apply_bonus. destruct (Bonus.kind b); split; reflexivity. Qed.

Lemma bonus_loop_player (sin : Q -> Q) (bs : list Bonus.t) :
  forall pl : Player.t,
    let pl' := fst (Game.bonus_loop sin pl bs) in
    Player.rect pl' = Player.rect pl /\
    Player.lives pl' = Player.lives pl /\
    (energy_in_range pl -> energy_in_range pl').
Proof.
  induction bs as [|b bs IH]; intros pl; cbn [Game.bonus_loop].
  - cbn [fst]. do 2 (split; [reflexivity|]). intros H; exact H.
  - destruct (Rect.colliderect _ _).
    + specialize (IH (Game.apply_bonus (Bonus.update sin b) pl)).
      cbv zeta in *. destruct IH as (I1 & I2 & I3).
      destruct (apply_bonus_player (Bonus.update sin b) pl) as [A1 A2].
      pose proof (apply_bonus_energy (Bonus.update sin b) pl) as A3.
      split; [congruence|]. split; [congruence | tauto].
    + specialize (IH pl).
      destruct (Game.bonus_loop sin pl bs) as [pl' bs']. exact IH.
Qed.

Lemma resolve_bonus_pickups_kept (sin : Q -> Q) (g : Game.t) :
  let g' := Game.resolve_bonus_pickups sin g in
  flow g' = flow g /\ totals g' = totals g /\
  Player.rect (Game.player g') = Player.rect (Game.player g) /\
  (energy_in_range (Game.player g) -> energy_in_range (Game.player g')).
Proof.
  unfold Game.resolve_bonus_pickups.
  pose proof (bonus_loop_player sin (Game.bonuses g) (Game.player g)) as H.
  cbv zeta in H.
  destruct (Game.bonus_loop sin (Game.player g) (Game.bonuses g)) as [pl bs].
  cbn [fst] in H. destruct H as (H1 & H2 & H3).
  unfold flow, totals. cbn. rewrite H2.
  do 2 (split; [reflexivity|]). split; assumption.
Qed.

Lemma cleanup_kept (g : Game.t) :
  let g' := Game.cleanup g in
  flow g' = flow g /\ totals g' = totals g /\ Game.player g' = Game.player g.
Proof. repeat split; reflexivity. Qed.

Lemma fall_spec (g : Game.t) :
  let g' := Game.fall g in
  Rect.top (Player.rect (Game.player g)) <= HEIGHT + 60 /\ g' = g \/
  HEIGHT + 60 < Rect.top (Player.rect (Game.player g)) /\
  g' = Game.trigger_quiz
         (Game.set_player (Player.set_energy 0.0 (Game.player g)) g).
Proof.
  unfold Game.fall.
  destruct (Rect.top (Player.rect (Game.player g)) >? HEIGHT + 60) eqn:E;
    rewrite Z.gtb_ltb in E.
  - right. apply Z.ltb_lt in E. split; [exact E | reflexivity].
  - left. apply Z.ltb_ge in E. split; [exact E | reflexivity].
Qed.

Lemma fall_always (g : Game.t) :
  let g' := Game.fall g in
  Game.ascended_px g' = Game.ascended_px g /\
  Player.lives (Game.player g') <= Player.lives (Game.player g) /\
  (energy_in_range (Game.player g) -> energy_in_range (Game.player g')) /\
  (after_loss (Game.state g) -> after_loss (Game.state g')) /\
  (Game.score g' = Game.score g \/
   Game.score g'
   = Z.max (Game.score g) (py_int (inject_Z (Game.ascended_px g) * 0.06)%Q)).
Proof.
  destruct (fall_spec g) as [[_ E]|[_ E]]; cbv zeta in *; rewrite E.
  - split; [reflexivity|]. split; [lia|]. split; [intros H; exact H|].
    split; [intros H; exact H | left; reflexivity].
  - match goal with
    | |- context [Game.trigger_quiz ?h] =>
        destruct (trigger_quiz_ascended h) as [A _];
        pose proof (trigger_quiz_player h) as P;
        pose proof (trigger_quiz_after_loss h) as S;
        pose proof (trigger_quiz_score h) as C
    end.
    rewrite P. split; [exact A|]. split; [cbn; lia|].
    split; [intros _; unfold energy_in_range; cbn; split; lra|].
    split; [intros _; exact S | exact C].
Qed.

Lemma scoring_spec (g : Game.t) :
  let g' := Game.scoring g in
  Game.state g' = Game.state g /\ Game.quiz g' = Game.quiz g /\
  Player.lives (Game.player g') = Player.lives (Game.player g) /\
  Player.energy (Game.player g') = Player.energy (Game.player g) /\
  Game.ascended_px g' = Game.ascended_px g /\
  Game.score g'
  = Z.max (Game.score g) (py_int (inject_Z (Game.ascended_px g) * 0.06)%Q).
Proof. unfold Game.scoring. break_if; repeat split; reflexivity. Qed.

(** The update in [STATE_PLAY], cut at the enemy loop. *)
Lemma update_play_cut (sin : Q -> Q) (keys : Keys) (g : Game.t) :
  Game.update_play sin keys g
  = Game.set_touch_x None
      (Game.scoring
         (Game.fall
            (Game.cleanup
               (Game.resolve_bonus_pickups sin
                  (Game.resolve_enemy_collisions sin
                     (World.speed_factor (Game.world (Game.sync_world g)))
                     (before_enemies sin keys g)))))).
Proof. unfold Game.update_play, before_enemies. cbv zeta. reflexivity. Qed.

Lemma resolve_enemy_collisions_fst (sin : Q -> Q) (sf : Q) (g : Game.t) :
  let g' := Game.resolve_enemy_collisions sin sf g in
  let g1 := fst (Game.enemy_loop sin sf g (Game.enemies g)) in
  flow g' = flow g1 /\ totals g' = totals g1 /\ Game.player g' = Game.player g1.
Proof.
  unfold Game.resolve_enemy_collisions.
  destruct (Game.enemy_loop sin sf g (Game.enemies g)) as [g1 es].
  repeat split; reflexivity.
Qed.

Lemma after_enemies (sin : Q -> Q) (g5 : Game.t) :
  let g' :=
    Game.set_touch_x None
      (Game.scoring
         (Game.fall (Game.cleanup (Game.resolve_bonus_pickups sin g5)))) in
  Game.ascended_px g' = Game.ascended_px g5 /\
  Game.score g'
  = Z.max (Game.score g5) (py_int (inject_Z (Game.ascended_px g5) * 0.06)%Q) /\
  (energy_in_range (Game.player g5) -> energy_in_range (Game.player g')) /\
  Player.lives (Game.player g') <= Player.lives (Game.player g5) /\
  (after_loss (Game.state g5) -> after_loss (Game.state g')) /\
  (Rect.top (Player.rect (Game.player g5)) <= HEIGHT + 60 ->
   flow g' = flow g5) /\
  (HEIGHT + 60 < Rect.top (Player.rect (Game.player g5)) ->
   Player.lives (Game.player g') = Player.lives (Game.player g5) - 1 /\
   after_loss (Game.state g')).
Proof.
  cbv zeta.
  destruct (resolve_bonus_pickups_kept sin g5) as (B1 & B2 & B3 & B4).
  set (g6 := Game.resolve_bonus_pickups sin g5) in *.
  destruct (cleanup_kept g6) as (C1 & C2 & C3).
  set (g7 := Game.cleanup g6) in *.
  destruct (fall_always g7) as (F1 & F2 & F3 & F4 & F5).
  pose proof (fall_spec g7) as F6.
  set (g8 := Game.fall g7) in *.
  destruct (scoring_spec g8) as (S1 & S2 & S3 & S4 & S5 & S6).
  set (g9 := Game.scoring g8) in *.
  cbn [Game.set_touch_x Game.ascended_px Game.score Game.player Game.state].
  rewrite (flow_touch None g9).
  apply flow_eq in B1; destruct B1 as (b1 & b2 & b3).
  apply totals_eq in B2; destruct B2 as (b4 & b5 & b6).
  apply flow_eq in C1; destruct C1 as (c1 & c2 & c3).
  apply totals_eq in C2; destruct C2 as (c4 & c5 & c6).
  assert (A7 : Game.ascended_px g7 = Game.ascended_px g5) by congruence.
  assert (S7 : Game.score g7 = Game.score g5) by congruence.
  split; [congruence|].
  split.
  { rewrite S6, F1, A7. rewrite A7 in F5.
    destruct F5 as [E|E]; rewrite E, S7; lia. }
  split.
  { intros H. destruct H as [H0 H1]. unfold energy_in_range. rewrite S4.
    apply F3. rewrite C3. apply B4. split; assumption. }
  split; [lia|].
  split.
  { intros H. rewrite S1. apply F4. rewrite c1, b1. exact H. }
  rewrite C3, B3 in F6. split.
  - intros Hle. destruct F6 as [[_ E]|[Hgt _]]; [|lia].
    apply flow_eq. rewrite S1, S2, S3, E. repeat split; congruence.
  - intros Hgt. destruct F6 as [[Hle _]|[_ E]]; [lia|].
    rewrite S1, S3, E. split.
    + rewrite trigger_quiz_player. cbn. lia.
    + apply trigger_quiz_after_loss.
Qed.

(** The whole update in [STATE_PLAY]. *)
Lemma update_play_spec (sin : Q -> Q) (keys : Keys) (g : Game.t) :
  let g' := Game.update_play sin keys g in
  Game.ascended_px g <= Game.ascended_px g' /\
  Game.score g'
  = Z.max (Game.score g) (py_int (inject_Z (Game.ascended_px g') * 0.06)%Q) /\
  energy_in_range (Game.player g') /\
  Player.lives (Game.player g') <= Player.lives (Game.player g) /\
  (enemy_strikes sin keys g = false -> falls_off sin keys g = false ->
   flow g' = flow g) /\
  (enemy_strikes sin keys g = true \/ falls_off sin keys g = true ->
   Player.lives (Game.player g') < Player.lives (Game.player g) /\
   after_loss (Game.state g')).
Proof.
  cbv zeta. rewrite update_play_cut.
  unfold enemy_strikes, falls_off. cbv zeta.
  destruct (before_enemies_kept sin keys g) as (A1 & A2 & A3 & A4 & A5).
  set (g4 := before_enemies sin keys g) in *.
  set (sf := World.speed_factor (Game.world (Game.sync_world g))) in *.
  destruct (resolve_enemy_collisions_fst sin sf g4) as (R1 & R2 & R3).
  destruct (enemy_loop_always sin sf (Game.enemies g4) g4)
    as (E1 & E2 & E3 & E4 & E5 & E6).
  pose proof (enemy_loop_quiet sin sf (Game.enemies g4) g4) as EQ.
  pose proof (enemy_loop_loss sin sf (Game.enemies g4) g4) as EL.
  cbv zeta in *.
  set (g1 := fst (Game.enemy_loop sin sf g4 (Game.enemies g4))) in *.
  set (g5 := Game.resolve_enemy_collisions sin sf g4) in *.
  destruct (after_enemies sin g5) as (T1 & T2 & T3 & T4 & T5 & T6 & T7).
  match goal with
  | |- context [Game.set_touch_x None ?h] => set (g9 := Game.set_touch_x None h) in *
  end.
  apply flow_eq in A1; destruct A1 as (a1 & a2 & a3).
  apply flow_eq in R1; destruct R1 as (r1 & r2 & r3).
  apply totals_eq in R2; destruct R2 as (r4 & r5 & r6).
  rewrite R3 in *.
  assert (Hasc : Game.ascended_px g9 = Game.ascended_px g4) by congruence.
  split; [lia|].
  split.
  { rewrite T2, Hasc, r6, E2, r4. destruct E6 as [E|E]; rewrite E, A2; lia. }
  split; [apply T3, E4, A5|].
  split; [lia|].
  split.
  - intros Hq Hf. rewrite Z.gtb_ltb in Hf. apply Z.ltb_ge in Hf.
    destruct (EQ Hq) as (Q1 & _). apply flow_eq in Q1.
    destruct Q1 as (q1 & q2 & q3).
    rewrite <- E1 in Hf. specialize (T6 Hf). apply flow_eq in T6.
    destruct T6 as (t1 & t2 & t3).
    apply flow_eq. repeat split; congruence.
  - intros [Hs|Hf].
    + destruct (EL Hs) as [L1 L2]. split; [lia|].
      apply T5. rewrite r1. exact L2.
    + rewrite Z.gtb_ltb in Hf. apply Z.ltb_lt in Hf.
      rewrite <- E1 in Hf. destruct (T7 Hf) as [L1 L2]. split; [lia | exact L2].
Qed.

(* ------------------------------------------------------------------------- *)
(** ** Energy over whole runs *)
(* ------------------------------------------------------------------------- *)

Lemma init_run_player (g : Game.t) :
  Game.player (Game.init_run g) = Player.init (WIDTH / 2) (HEIGHT - 140) 2.
Proof. reflexivity. Qed.

Lemma resolve_quiz_result_energy (correct : bool) (g : Game.t) :
  energy_in_range (Game.player g) ->
  energy_in_range (Game.player (Game.resolve_quiz_result correct g)).
Proof.
  intros H. unfold Game.resolve_quiz_result. destruct correct.
  - cbn [Game.player Game.set_state Game.set_player].
    apply revive_on_safe_energy. exact H.
  - rewrite game_over_player. exact H.
Qed.

Lemma update_energy_in_range (sin : Q -> Q) (keys : Keys) (g : Game.t) :
  energy_in_range (Game.player g) ->
  energy_in_range (Game.player (Game.update sin keys g)).
Proof.
  intros H. unfold Game.update. destruct (Game.state g); try exact H.
  - apply update_play_spec.
  - break_if; [apply resolve_quiz_result_energy|]; exact H.
Qed.

Lemma handle_event_energy (ev : Event) (g g' : Game.t) :
  energy_in_range (Game.player g) ->
  Game.handle_event ev g = Some g' ->
  energy_in_range (Game.player g').
Proof.
  intros H E. unfold Game.handle_event in E.
  assert (Hi : forall h, energy_in_range (Game.player (Game.init_run h)))
    by (intros h; rewrite init_run_player; apply init_energy).
  set (restart := Game.init_run) in *. clearbody restart.
  destruct ev as [|k|px|px pressed|]; try discriminate;
    [destruct k | | destruct pressed | ];
    cbn [Game.state Game.set_touch_x] in E;
    destruct (Game.state g); inversion E; subst g';
      first [exact H | apply Hi].
Qed.

Lemma handle_events_energy (evs : list Event) :
  forall g g' : Game.t,
    energy_in_range (Game.player g) ->
    Game.handle_events_from evs g = Some g' ->
    energy_in_range (Game.player g').
Proof.
  induction evs as [|ev evs IH]; intros g g' H E; cbn in E.
  - inversion E; subst; exact H.
  - destruct (Game.handle_event ev g) as [g1|] eqn:E1; [|discriminate].
    apply (IH g1 g'); [|exact E].
    apply (handle_event_energy ev g g1 H E1).
Qed.

Lemma frames_energy (sin : Q -> Q) (inputs : list (list Event * Keys)) :
  forall g : Game.t,
    energy_in_range (Game.player g) ->
    match frames sin inputs g with
    | Some g' => energy_in_range (Game.player g')
    | None => True
    end.
Proof.
  induction inputs as [|[evs keys] rest IH]; intros g H; cbn [frames].
  - exact H.
  - unfold Game.frame, Game.handle_events.
    destruct (Game.handle_events_from evs (Game.set_touch_x None g))
      as [g1|] eqn:E; [|exact I].
    apply IH. apply update_energy_in_range.
    apply (handle_events_energy evs (Game.set_touch_x None g) g1 H E).
Qed.

(** C2.  After every operation of every sequence of player updates, enemy
    hits, platform landings and bonus pickups (and revivals and falls)
    applied to a new player, and in every game state that whole frames
    reach from the start of the program, the energy is within [0, 100]. *)
Theorem energy_always_in_range :
  (forall (ops : list PlayerOp) (x y lives : Z),
      Forall energy_in_range (states_after ops (Player.init x y lives))) /\
  (forall (sin : Q -> Q) (hs : Z) (rnd : Random.t) (ent : nat -> Random.t)
          (inputs : list (list Event * Keys)),
      match frames sin inputs (Game.init hs rnd ent) with
      | Some g => energy_in_range (Game.player g)
      | None => True
      end).
Proof.
  split.
  - intros ops x y lives. apply states_after_energy, init_energy.
  - intros sin hs rnd ent inputs. apply frames_energy.
    unfold Game.init. rewrite init_run_player. apply init_energy.
Qed.

(* ------------------------------------------------------------------------- *)
(** ** Life loss and the quiz *)
(* ------------------------------------------------------------------------- *)

(** C3.  A life-loss trigger takes exactly one life.  If the count is then
    negative (it is -1 when it was 0) the game is over at once: no question
    is picked, no random draw is made, the quiz is as it was.  Otherwise
    the state is the quiz state and the question is decided by the next
    draw [n] of the random source, which is used up: it is question
    [n mod 30] of the bank, the cursor is on the first option and there is
    no feedback.  Hence sources that differ in that draw pick different
    questions, and every question of the bank is picked by some draw. *)
Theorem trigger_quiz_decrements_once (g : Game.t) :
  let g' := Game.trigger_quiz g in
  let n := N.to_nat (Random.raw (Game.random g) (Random.pos (Game.random g)))
  in
  Player.lives (Game.player g') = Player.lives (Game.player g) - 1 /\
  (Player.lives (Game.player g) - 1 < 0 ->
   Game.state g' = STATE_GAMEOVER /\ Game.quiz g' = Game.quiz g /\
   Game.random g' = Game.random g) /\
  (Player.lives (Game.player g) = 0 ->
   Player.lives (Game.player g') = -1 /\ Game.state g' = STATE_GAMEOVER) /\
  (0 <= Player.lives (Game.player g) - 1 ->
   Game.state g' = STATE_QUIZ /\
   QuizUI.cur (Game.quiz g') = nth_error QUIZ (n mod 30) /\
   QuizUI.selected (Game.quiz g') = 0 /\
   QuizUI.feedback (Game.quiz g') = FB_EMPTY /\
   QuizUI.feedback_timer (Game.quiz g') = 0 /\
   Game.random g'
   = Random.mk (Random.raw (Game.random g)) (S (Random.pos (Game.random g)))
   /\
   (exists q : Question, QuizUI.cur (Game.quiz g') = Some q /\ In q QUIZ) /\
   (forall (i : nat) (q : Question),
       nth_error QUIZ i = Some q ->
       Random.raw (Game.random g) (Random.pos (Game.random g)) = N.of_nat i ->
       QuizUI.cur (Game.quiz g') = Some q)).
Proof.
  cbv zeta.
  assert (L : Player.lives (Game.player (Game.trigger_quiz g))
              = Player.lives (Game.player g) - 1)
    by (rewrite trigger_quiz_player; reflexivity).
  split; [exact L|]. split; [|split].
  - intros Hneg. apply Z.ltb_lt in Hneg.
    unfold Game.trigger_quiz. cbn [Player.lives Player.set_lives].
    rewrite Hneg. rewrite game_over_state.
    match goal with
    | |- context [Game.game_over ?h] =>
        destruct (game_over_quiz h) as (A & B & _)
    end.
    rewrite A, B. repeat split; reflexivity.
  - intros H0. rewrite L, H0. split; [reflexivity|].
    rewrite trigger_quiz_state, H0. reflexivity.
  - intros Hpos. apply Z.ltb_ge in Hpos.
    unfold Game.trigger_quiz. cbn [Player.lives Player.set_lives].
    rewrite Hpos. cbn [Game.random Game.quiz Game.set_player].
    unfold QuizUI.pick, Random.choice, Random.next.
    cbn [Game.state Game.quiz Game.random Game.set_state Game.set_random
         Game.set_quiz QuizUI.cur QuizUI.selected QuizUI.feedback
         QuizUI.feedback_timer].
    set (n := N.to_nat (Random.raw (Game.random g) (Random.pos (Game.random g)))).
    assert (Hlen : length QUIZ = 30%nat) by reflexivity.
    rewrite Hlen.
    assert (Hlt : (n mod 30 < length QUIZ)%nat)
      by (rewrite Hlen; apply Nat.mod_upper_bound; discriminate).
    assert (Hn : nth_error QUIZ (n mod 30)
                 = Some (nth (n mod 30) QUIZ (mkQuestion 0)))
      by (apply nth_error_nth'; exact Hlt).
    split; [reflexivity|]. split; [symmetry; exact Hn|].
    split; [reflexivity|]. split; [reflexivity|]. split; [reflexivity|].
    split; [reflexivity|]. split.
    + eexists. split; [reflexivity|]. apply nth_In. exact Hlt.
    + intros i q Hq Hi.
      assert (Hi30 : (i < 30)%nat).
      { rewrite <- Hlen. apply nth_error_Some. rewrite Hq. discriminate. }
      assert (En : n = i) by (unfold n; rewrite Hi; apply Nnat.Nat2N.id).
      rewrite <- Hn, En, Nat.mod_small by exact Hi30. exact Hq.
Qed.

Lemma trigger_quiz_decrements_once_witness :
  (Player.lives (Game.player Sample.fresh) = 2 /\
   Game.state (Game.trigger_quiz Sample.fresh) = STATE_QUIZ /\
   QuizUI.cur (Game.quiz (Game.trigger_quiz Sample.fresh))
   = Some (mkQuestion 1) /\
   QuizUI.cur
     (Game.quiz
        (Game.trigger_quiz
           (Game.set_random (Random.mk (fun _ => 29%N) 0) Sample.fresh)))
   = Some (mkQuestion 3)) /\
  (let g1 := Game.set_player
               (Player.set_lives 0 (Game.player Sample.fresh)) Sample.fresh in
   Player.lives (Game.player (Game.trigger_quiz g1)) = -1 /\
   Game.state (Game.trigger_quiz g1) = STATE_GAMEOVER).
Proof.
  split.
  - split; [reflexivity|].
    assert (H2 : 0 <= Player.lives (Game.player Sample.fresh) - 1)
      by (vm_compute; discriminate).
    destruct (proj2 (proj2 (proj2 (trigger_quiz_decrements_once Sample.fresh)))
                H2) as (A & B & _).
    split; [exact A|]. split.
    + rewrite B. vm_compute. reflexivity.
    + assert (H3 : 0 <= Player.lives
                          (Game.player
                             (Game.set_random (Random.mk (fun _ => 29%N) 0)
                                              Sample.fresh)) - 1)
        by (vm_compute; discriminate).
      destruct (proj2 (proj2 (proj2
                 (trigger_quiz_decrements_once
                    (Game.set_random (Random.mk (fun _ => 29%N) 0)
                                     Sample.fresh)))) H3)
        as (_ & _ & _ & _ & _ & _ & _ & K).
      apply (K 29%nat); reflexivity.
  - cbv zeta.
    apply (proj1 (proj2 (proj2 (trigger_quiz_decrements_once _)))).
    reflexivity.
Defined.

Lemma revive_on_safe_spec (ps : list Platform.t) (pl : Player.t) :
  let pl' := Player.revive_on_safe ps pl in
  Rect.centerx (Player.rect pl') = WIDTH / 2 /\
  Rect.centery (Player.rect pl')
  = match Player.safe_platform ps pl with
    | Some p => Rect.top (Platform.rect p) - PLAYER_H / 2 - 2
    | None => HEIGHT / 2
    end /\
  Player.vel_x pl' = 0%Q /\ Player.vel_y pl' = 0%Q /\
  Player.energy pl' = Qmax 55.0 (Player.energy pl) /\
  Player.invincible pl' = DUR_INVINCIBLE /\
  Player.lives pl' = Player.lives pl.
Proof.
  unfold Player.revive_on_safe, Rect.centerx, Rect.centery, Rect.set_center.
  cbn [Player.rect Player.vel_x Player.vel_y Player.energy Player.invincible
       Player.lives Rect.x Rect.y Rect.w Rect.h].
  repeat split; lia.
Qed.

(** What one resolution does by itself.  A right answer gives one life
    back and moves to the play state; the player is revived with an
    invincibility window of DUR_INVINCIBLE = 120 frames, zero velocity and
    at least 55 energy, centred horizontally on the screen whatever the
    platform, and vertically just above the last safe platform when that
    platform is still in the game, at mid-screen otherwise.  A wrong
    answer ends the game with the lives as the trigger left them.  The
    update of the quiz state resolves the quiz when the feedback window
    has run out. *)
Lemma quiz_resolution_step (g : Game.t) :
  (let g' := Game.resolve_quiz_result true g in
   Player.lives (Game.player g') = Player.lives (Game.player g) + 1 /\
   Game.state g' = STATE_PLAY /\
   Player.invincible (Game.player g') = DUR_INVINCIBLE /\
   DUR_INVINCIBLE = 120 /\
   Rect.centerx (Player.rect (Game.player g')) = WIDTH / 2 /\
   (forall p : Platform.t,
       Player.safe_platform (Game.platforms g) (Game.player g) = Some p ->
       Rect.centery (Player.rect (Game.player g'))
       = Rect.top (Platform.rect p) - PLAYER_H / 2 - 2) /\
   (Player.safe_platform (Game.platforms g) (Game.player g) = None ->
    Rect.centery (Player.rect (Game.player g')) = HEIGHT / 2) /\
   Player.vel_x (Game.player g') = 0%Q /\
   Player.vel_y (Game.player g') = 0%Q /\
   Player.energy (Game.player g') = Qmax 55.0 (Player.energy (Game.player g))) /\
  Player.lives (Game.player (Game.resolve_quiz_result true (Game.trigger_quiz g)))
  = Player.lives (Game.player g) /\
  (let g' := Game.resolve_quiz_result false g in
   Game.state g' = STATE_GAMEOVER /\
   Player.lives (Game.player g') = Player.lives (Game.player g)) /\
  (forall (sin : Q -> Q) (keys : Keys),
      Game.state g = STATE_QUIZ ->
      QuizUI.has_feedback (Game.quiz g) = true ->
      QuizUI.feedback_timer (Game.quiz g) <= 1 ->
      0 <= QuizUI.feedback_timer (Game.quiz g) ->
      Game.update sin keys g
      = Game.resolve_quiz_result
          (QuizUI.feedback_says_correct (Game.quiz g))
          (Game.set_quiz (QuizUI.update (Game.quiz g)) g)).
Proof.
  split; [|split; [|split]].
  - cbv zeta. unfold Game.resolve_quiz_result.
    cbn [Game.player Game.state Game.set_state Game.set_player].
    match goal with
    | |- context [Player.revive_on_safe ?ps ?pl] =>
        destruct (revive_on_safe_spec ps pl) as (A & B & C & D & E & F & G)
    end.
    cbv zeta in *.
    change (Player.safe_platform (Game.platforms g)
              (Player.set_lives (Player.lives (Game.player g) + 1)
                                (Game.player g)))
      with (Player.safe_platform (Game.platforms g) (Game.player g)) in B.
    split; [exact G|]. split; [reflexivity|]. split; [exact F|].
    split; [reflexivity|]. split; [exact A|].
    split; [intros p Hp; rewrite B, Hp; reflexivity|].
    split; [intros Hn; rewrite B, Hn; reflexivity|].
    split; [exact C|]. split; [exact D | exact E].
  - unfold Game.resolve_quiz_result.
    cbn [Game.player Game.state Game.set_state Game.set_player].
    match goal with
    | |- context [Player.revive_on_safe ?ps ?pl] =>
        destruct (revive_on_safe_spec ps pl) as (_ & _ & _ & _ & _ & _ & G)
    end.
    cbv zeta in G. rewrite G. cbn [Player.lives Player.set_lives].
    rewrite trigger_quiz_player. cbn [Player.lives Player.set_lives]. lia.
  - cbv zeta. unfold Game.resolve_quiz_result.
    rewrite game_over_state, game_over_player. split; reflexivity.
  - intros sin keys Hs Hf H1 H0. unfold Game.update. rewrite Hs.
    cbn [Game.quiz Game.set_quiz].
    assert (Ht : QuizUI.feedback_timer (QuizUI.update (Game.quiz g)) = 0).
    { unfold QuizUI.update.
      destruct (QuizUI.feedback_timer (Game.quiz g) >? 0) eqn:E.
      - rewrite Z.gtb_ltb in E. apply Z.ltb_lt in E. cbn. lia.
      - rewrite Z.gtb_ltb in E. apply Z.ltb_ge in E. lia. }
    assert (Hf' : QuizUI.has_feedback (QuizUI.update (Game.quiz g)) = true).
    { unfold QuizUI.update, QuizUI.has_feedback in *.
      destruct (QuizUI.feedback_timer (Game.quiz g) >? 0); exact Hf. }
    assert (Hc : QuizUI.feedback_says_correct (QuizUI.update (Game.quiz g))
                 = QuizUI.feedback_says_correct (Game.quiz g)).
    { unfold QuizUI.update, QuizUI.feedback_says_correct.
      destruct (QuizUI.feedback_timer (Game.quiz g) >? 0); reflexivity. }
    rewrite Hf', Ht, Hc. reflexivity.
Qed.

(** C4.  Two runs in which a right answer does less than refund the
    life loss and revive the player on the last safe platform.

    In the first the player has 2 lives and 5 energy and two bulbs are on
    it: the enemy loop of one update takes a life for each of them (it
    neither stops after the first nor looks at the state), so the quiz
    opens with 0 lives; the right answer gives one back and the play goes
    on with 1 life, not 2.

    In the second [Game()] is started and the left key held: the player
    lands on the solar platform at x = 101..205, jumps off, wraps around
    and falls off the screen with 2 lives; the quiz opens with 1 life and
    that platform still in the game.  After the right answer the player
    has 2 lives and stands with its feet 2 px above the platform's top
    but at x = 205..255, in the middle of the screen: beside the platform,
    not on it. *)
Theorem quiz_refund_falls_short :
  (option_map outcome (Some Sample.crowded)
   = Some (STATE_PLAY, 2, Rect.mk 205 555 50 50, None) /\
   option_map outcome
              (frames Sample.flat_sin (firstn 1 Sample.crowded_run)
                      Sample.crowded)
   = Some (STATE_QUIZ, 0, Rect.mk 205 555 50 50, None) /\
   option_map (fun g => (Game.state g, Player.lives (Game.player g)))
              (frames Sample.flat_sin Sample.crowded_run Sample.crowded)
   = Some (STATE_PLAY, 1)) /\
  (let start := Game.init 0 Sample.rnd Sample.ent in
   option_map outcome (frames Sample.flat_sin (firstn 78 Sample.fall_left) start)
   = Some (STATE_PLAY, 2, Rect.mk 250 769 50 50,
           Some (Rect.mk 101 640 104 16)) /\
   option_map outcome (frames Sample.flat_sin Sample.fall_left start)
   = Some (STATE_QUIZ, 1, Rect.mk 244 788 50 50,
           Some (Rect.mk 101 640 104 16)) /\
   option_map outcome (frames Sample.flat_sin Sample.fall_left_run start)
   = Some (STATE_PLAY, 2, Rect.mk 205 588 50 50,
           Some (Rect.mk 101 640 104 16)) /\
   Rect.colliderect (Rect.mk 205 588 50 50) (Rect.mk 101 640 104 16) = false /\
   Rect.right (Rect.mk 101 640 104 16) <= Rect.left (Rect.mk 205 588 50 50)).
Proof.
  split.
  - split; [vm_compute; reflexivity|].
    split; vm_compute; reflexivity.
  - cbv zeta. split; [vm_compute; reflexivity|].
    split; [vm_compute; reflexivity|].
    split; [vm_compute; reflexivity|].
    split; [vm_compute; reflexivity|].
    vm_compute. discriminate.
Qed.


(* ------------------------------------------------------------------------- *)
(** ** The score *)
(* ------------------------------------------------------------------------- *)

Lemma py_int_of_distance (a : Z) :
  0 <= a -> py_int (inject_Z a * 0.06)%Q = Qfloor (inject_Z a * 0.06)%Q.
Proof.
  intros H. apply py_int_floor.
  assert (0 <= inject_Z a)%Q by (change 0%Q with (inject_Z 0); now rewrite <- Zle_Qle).
  nra.
Qed.

Lemma resolve_quiz_result_totals (correct : bool) (g : Game.t) :
  let g' := Game.resolve_quiz_result correct g in
  Game.ascended_px g' = Game.ascended_px g /\
  (Game.score g' = Game.score g \/
   Game.score g'
   = Z.max (Game.score g) (py_int (inject_Z (Game.ascended_px g) * 0.06)%Q)).
Proof.
  unfold Game.resolve_quiz_result. destruct correct.
  - split; [reflexivity | left; reflexivity].
  - destruct (game_over_quiz g) as (_ & _ & _ & A).
    split; [exact A | right; apply game_over_score].
Qed.

Lemma update_score (sin : Q -> Q) (keys : Keys) (g : Game.t) :
  0 <= Game.ascended_px g ->
  let g' := Game.update sin keys g in
  Game.score g <= Game.score g' /\
  (Game.score g' = Game.score g \/
   Game.score g'
   = Z.max (Game.score g) (Qfloor (inject_Z (Game.ascended_px g') * 0.06)%Q)) /\
  (Game.state g = STATE_PLAY ->
   Game.score g'
   = Z.max (Game.score g) (Qfloor (inject_Z (Game.ascended_px g') * 0.06)%Q)) /\
  Game.ascended_px g <= Game.ascended_px g' /\
  Game.score (Game.game_over g)
  = Z.max (Game.score g) (Qfloor (inject_Z (Game.ascended_px g) * 0.06)%Q).
Proof.
  intros Ha. cbv zeta.
  assert (Hgo : Game.score (Game.game_over g)
                = Z.max (Game.score g)
                        (Qfloor (inject_Z (Game.ascended_px g) * 0.06)%Q))
    by (rewrite game_over_score, py_int_of_distance by exact Ha; reflexivity).
  unfold Game.update. destruct (Game.state g) eqn:Hs.
  - split; [lia|]. split; [left; reflexivity|].
    split; [discriminate|]. split; [lia | exact Hgo].
  - destruct (update_play_spec sin keys g) as (A & B & _).
    cbv zeta in A, B. rewrite py_int_of_distance in B by lia.
    split; [lia|]. split; [right; exact B|].
    split; [intros _; exact B|]. split; [exact A | exact Hgo].
  - split; [lia|]. split; [left; reflexivity|].
    split; [discriminate|]. split; [lia | exact Hgo].
  - split; [|split; [|split; [discriminate|split; [|exact Hgo]]]];
      (break_if;
       [ match goal with
         | |- context [Game.resolve_quiz_result ?c ?h] =>
             destruct (resolve_quiz_result_totals c h) as (A & B)
         end;
         cbv zeta in A, B;
         cbn [Game.ascended_px Game.score Game.set_quiz] in A, B;
         try rewrite A;
         rewrite py_int_of_distance in B by exact Ha;
         first [lia | exact B | destruct B as [B|B]; rewrite B; lia]
       | cbn [Game.ascended_px Game.score Game.set_quiz];
         first [lia | left; reflexivity] ]).
  - split; [lia|]. split; [left; reflexivity|].
    split; [discriminate|]. split; [lia | exact Hgo].
Qed.

(** C5.  No update lowers the score: after an update the score is either
    what it was or the maximum of what it was and
    floor(ascended distance * 0.06), and in the play state it is that
    maximum; [game_over] sets it the same way.  The ascended distance of a
    run starts at 0 and never decreases, which is what makes [int(...)] the
    floor. *)
Theorem score_never_decreases (sin : Q -> Q) (keys : Keys) (g : Game.t) :
  0 <= Game.ascended_px g ->
  let g' := Game.update sin keys g in
  Game.score g <= Game.score g' /\
  (Game.score g' = Game.score g \/
   Game.score g'
   = Z.max (Game.score g) (Qfloor (inject_Z (Game.ascended_px g') * 0.06)%Q)) /\
  (Game.state g = STATE_PLAY ->
   Game.score g'
   = Z.max (Game.score g) (Qfloor (inject_Z (Game.ascended_px g') * 0.06)%Q)) /\
  Game.ascended_px g <= Game.ascended_px g' /\
  Game.score (Game.game_over g)
  = Z.max (Game.score g) (Qfloor (inject_Z (Game.ascended_px g) * 0.06)%Q).
Proof. exact (update_score sin keys g). Qed.

Lemma score_never_decreases_witness :
  0 <= Game.ascended_px Sample.at_4000_px /\
  Game.score Sample.at_4000_px
  <= Game.score (Game.update Sample.flat_sin Sample.no_keys Sample.at_4000_px).
Proof.
  assert (H : 0 <= Game.ascended_px Sample.at_4000_px)
    by (vm_compute; discriminate).
  split; [exact H|].
  exact (proj1 (score_never_decreases Sample.flat_sin Sample.no_keys
                                      Sample.at_4000_px H)).
Defined.

(** Over any number of updates of one run. *)
Lemma updates_score_monotonic (sin : Q -> Q)
      (inputs : list (Keys * option Z)) :
  forall g : Game.t,
    0 <= Game.ascended_px g ->
    Game.score g <= Game.score (Game.updates sin inputs g) /\
    0 <= Game.ascended_px (Game.updates sin inputs g).
Proof.
  induction inputs as [|[keys touch] rest IH]; intros g Ha; cbn [Game.updates].
  - split; [lia | exact Ha].
  - destruct (update_score sin keys (Game.set_touch_x touch g) Ha)
      as (A & _ & _ & B & _).
    cbv zeta in A, B. cbn [Game.score Game.ascended_px Game.set_touch_x] in A, B.
    destruct (IH (Game.update sin keys (Game.set_touch_x touch g))) as [C D];
      [lia|]. split; [lia | exact D].
Qed.

(* ------------------------------------------------------------------------- *)
(** ** Landings *)
(* ------------------------------------------------------------------------- *)

(** The scan lands on the first active platform that passes the test, and
    on nothing else. *)
Lemma landing_scan_first (sf : Q) (pl : Player.t) (ps : list Platform.t) :
  fst (Game.landing_scan sf pl ps)
  = match find (fun p => Platform.active p && Game.lands_on pl p) ps with
    | Some p => fst (Game.land sf pl p)
    | None => pl
    end.
Proof.
  induction ps as [|p ps IH]; cbn [Game.landing_scan find].
  - reflexivity.
  - destruct (Platform.active p); cbn [negb andb].
    + destruct (Game.lands_on pl p).
      * destruct (Game.land sf pl p) as [pl' p']. reflexivity.
      * destruct (Game.landing_scan sf pl ps) as [pl' ps']. exact IH.
    + destruct (Game.landing_scan sf pl ps) as [pl' ps']. exact IH.
Qed.

Lemma landing_scan_skips (sf : Q) (pl : Player.t) (p : Platform.t)
      (l2 : list Platform.t) :
  forall l1 : list Platform.t,
    Platform.active p = false ->
    fst (Game.landing_scan sf pl (l1 ++ p :: l2))
    = fst (Game.landing_scan sf pl (l1 ++ l2)) /\
    nth_error (snd (Game.landing_scan sf pl (l1 ++ p :: l2))) (length l1)
    = Some p.
Proof.
  intros l1 Hp. induction l1 as [|q l1 IH].
  - cbn [app Game.landing_scan length]. rewrite Hp. cbn [negb].
    destruct (Game.landing_scan sf pl l2) as [pl' ps']. split; reflexivity.
  - cbn [app Game.landing_scan length].
    destruct (negb (Platform.active q)).
    + destruct (Game.landing_scan sf pl (l1 ++ p :: l2)) as [pl1 ps1].
      destruct (Game.landing_scan sf pl (l1 ++ l2)) as [pl2 ps2].
      exact IH.
    + destruct (Game.lands_on pl q).
      * destruct (Game.land sf pl q) as [pl' q']. cbn [fst snd nth_error].
        split; [reflexivity|]. clear IH.
        induction l1 as [|r l1 IH1]; [reflexivity | exact IH1].
      * destruct (Game.landing_scan sf pl (l1 ++ p :: l2)) as [pl1 ps1].
        destruct (Game.landing_scan sf pl (l1 ++ l2)) as [pl2 ps2].
        exact IH.
Qed.

(** C6.  While the player's vertical velocity is negative the collision
    resolver changes nothing at all, so no landing is applied.  When it
    does scan, the landing it applies is on the first platform that is
    active and passes the straddle test; a platform whose [active] flag
    is false has no influence on what happens to the player and is left
    as it is by the scan. *)
Theorem landing_guards (sf : Q) :
  (forall g : Game.t,
      (Player.vel_y (Game.player g) < 0)%Q ->
      Game.resolve_platform_collisions sf g = g) /\
  (forall (pl : Player.t) (ps : list Platform.t),
      fst (Game.landing_scan sf pl ps)
      = match find (fun p => Platform.active p && Game.lands_on pl p) ps with
        | Some p => fst (Game.land sf pl p)
        | None => pl
        end) /\
  (forall (pl : Player.t) (l1 l2 : list Platform.t) (p : Platform.t),
      Platform.active p = false ->
      fst (Game.landing_scan sf pl (l1 ++ p :: l2))
      = fst (Game.landing_scan sf pl (l1 ++ l2)) /\
      nth_error (snd (Game.landing_scan sf pl (l1 ++ p :: l2))) (length l1)
      = Some p).
Proof.
  split; [|split].
  - intros g Hv. unfold Game.resolve_platform_collisions.
    assert (E : Qle_bool (Player.vel_y (Game.player g)) 0 = true)
      by (apply Qle_bool_iff; lra).
    rewrite E. reflexivity.
  - intros pl ps. apply landing_scan_first.
  - intros pl l1 l2 p Hp. apply landing_scan_skips. exact Hp.
Qed.

Lemma landing_guards_witness :
  (* a rising player on an active platform that it straddles *)
  (let g := Sample.scene (Sample.straddler (-3)) [Sample.ledge 6 true] in
   Game.lands_on (Game.player g) (Sample.ledge 6 true) = true /\
   (Player.vel_y (Game.player g) < 0)%Q /\
   Game.resolve_platform_collisions 1 g = g /\
   Player.last_safe_platform
     (Game.player
        (Game.resolve_platform_collisions
           1 (Sample.scene (Sample.straddler 3) [Sample.ledge 6 true])))
   = Some 6%nat) /\
  (* a falling player on an inactive platform that it straddles *)
  (let pl := Sample.straddler 3 in
   let l1 := [Sample.far_ledge] in
   let l2 := [Sample.ledge 7 true] in
   Game.lands_on pl (Sample.ledge 6 false) = true /\
   Platform.active (Sample.ledge 6 false) = false /\
   fst (Game.landing_scan 1 pl (l1 ++ Sample.ledge 6 false :: l2))
   = fst (Game.landing_scan 1 pl (l1 ++ l2)) /\
   nth_error (snd (Game.landing_scan 1 pl (l1 ++ Sample.ledge 6 false :: l2)))
             (length l1)
   = Some (Sample.ledge 6 false) /\
   Player.last_safe_platform
     (fst (Game.landing_scan 1 pl (l1 ++ Sample.ledge 6 false :: l2)))
   = Some 7%nat /\
   Player.last_safe_platform
     (fst (Game.landing_scan 1 pl (l1 ++ Sample.ledge 6 true :: l2)))
   = Some 6%nat).
Proof.
  split.
  - cbv zeta.
    assert (H : (Player.vel_y
                   (Game.player
                      (Sample.scene (Sample.straddler (-3))
                                    [Sample.ledge 6 true])) < 0)%Q)
      by (vm_compute; reflexivity).
    split; [vm_compute; reflexivity|]. split; [exact H|].
    split; [|vm_compute; reflexivity].
    exact (proj1 (landing_guards 1) _ H).
  - cbv zeta.
    split; [vm_compute; reflexivity|]. split; [reflexivity|].
    destruct (proj2 (proj2 (landing_guards 1))
                (Sample.straddler 3) [Sample.far_ledge]
                [Sample.ledge 7 true] (Sample.ledge 6 false) eq_refl)
      as [A B].
    split; [exact A|]. split; [exact B|].
    split; vm_compute; reflexivity.
Defined.

(** C7 (counterexample).  Once the score has passed 4000 the speed factor
    is 1.5 and the landing impulse -21; a hydro landing leaves the
    velocity at -14.98, not at -21 * 1.07 = -22.47. *)
Lemma hydro_jump_ignores_speed_factor :
  ~ hydro_landing_as_stated
      (World.speed_factor (Game.world (Game.sync_world Sample.later)))
      (Game.player Sample.later) Sample.hydro.
Proof.
  intros H. destruct (H eq_refl) as [_ Hv]. vm_compute in Hv. discriminate Hv.
Qed.

(** C7 (amended).  A landing on a hydro platform sets the energy to
    clamp(energy + 9, 0, 100), the sum being the float sum: for an energy
    in range it is min(100, energy + 9), exactly so when the sum needs no
    rounding and within 2^-45 of it otherwise.  The vertical velocity
    is set to the base jump impulse times 1.07, that is -14.98, whatever
    the speed factor; this is the scaled landing impulse times 1.07 only
    at speed factor 1. *)
Theorem hydro_landing (sf : Q) (pl : Player.t) (p : Platform.t) :
  Platform.kind p = P_HYDRO ->
  let pl' := fst (Game.land sf pl p) in
  (Player.energy pl' == clamp (fadd (Player.energy pl) 9) 0 100)%Q /\
  (energy_in_range pl ->
   (Player.energy pl' == Qmin 100 (fadd (Player.energy pl) 9))%Q /\
   (Qabs (Player.energy pl' - Qmin 100 (Player.energy pl + 9))
    <= pow2 (-45))%Q) /\
  ((fadd (Player.energy pl) 9 == Player.energy pl + 9)%Q ->
   (Player.energy pl' == clamp (Player.energy pl + 9) 0 100)%Q) /\
  (Player.vel_y pl' == PLAYER_JUMP_VEL * 1.07)%Q /\
  (Player.vel_y pl' == - 14.98)%Q /\
  ((sf == 1)%Q -> (Player.vel_y pl' == PLAYER_JUMP_VEL * sf * 1.07)%Q).
Proof.
  intros Hk. unfold Game.land, Game.handle_platform_effect. rewrite Hk.
  cbn [fst Player.energy Player.vel_y Player.set_vel_y Player.set_energy
       Player.mark_safe_platform Player.bounce Player.set_rect].
  assert (E9 : (ENERGY_FROM_HYDRO == 9)%Q) by reflexivity.
  rewrite E9.
  split; [reflexivity|]. split; [|split; [|split; [reflexivity|split]]].
  - intros [H0 H1].
    destruct (clamp_gain64 (Player.energy pl) 9 H0 H1) as (_ & _ & A & B);
      [lra | lra |].
    split; [exact A | exact B].
  - intros E. apply clamp_comp; [exact E | reflexivity | reflexivity].
  - reflexivity.
  - intros Hs. rewrite Hs. reflexivity.
Qed.

Lemma hydro_landing_witness :
  Platform.kind Sample.hydro = P_HYDRO /\
  energy_in_range (Game.player Sample.fresh) /\
  (Player.energy (fst (Game.land 1.5 (Game.player Sample.fresh) Sample.hydro))
   == Qmin 100 (fadd (Player.energy (Game.player Sample.fresh)) 9))%Q /\
  (fadd (Player.energy (Sample.straddler 3)) 9
   == Player.energy (Sample.straddler 3) + 9)%Q /\
  (Player.energy (fst (Game.land 1.5 (Sample.straddler 3) Sample.hydro))
   == 59)%Q /\
  (Player.vel_y (fst (Game.land 1 (Game.player Sample.fresh) Sample.hydro))
   == PLAYER_JUMP_VEL * 1 * 1.07)%Q.
Proof.
  assert (He : energy_in_range (Game.player Sample.fresh))
    by (split; vm_compute; discriminate).
  assert (Hs : (fadd (Player.energy (Sample.straddler 3)) 9
                == Player.energy (Sample.straddler 3) + 9)%Q)
    by (vm_compute; reflexivity).
  split; [reflexivity|]. split; [exact He|]. split; [|split; [exact Hs|split]].
  - exact (proj1 (proj1 (proj2 (hydro_landing 1.5 (Game.player Sample.fresh)
                                              Sample.hydro eq_refl)) He)).
  - rewrite (proj1 (proj2 (proj2 (hydro_landing 1.5 (Sample.straddler 3)
                                                Sample.hydro eq_refl))) Hs).
    vm_compute. reflexivity.
  - exact (proj2 (proj2 (proj2 (proj2 (proj2
             (hydro_landing 1 (Game.player Sample.fresh)
                            Sample.hydro eq_refl))))) (Qeq_refl 1)).
Defined.

(** C8 (counterexample).  A breaking platform at full fade that is landed
    on has fade 0 at once, not 1. *)
Lemma breaking_platform_has_no_fade_out :
  ~ breaking_landing_as_stated 1 (Game.player Sample.fresh) Sample.breaking.
Proof.
  intros H. destruct (H eq_refl) as [_ Hf]. vm_compute in Hf. discriminate Hf.
Qed.

(** C8 (amended).  A landing on a breaking platform deactivates it at once
    and sets its fade to 0 at once; there is no fade-out: the fade loop
    passes over it, whatever the number of rounds, so its fade stays 0 and
    it is not destroyed by fading, and the landing scan no longer lands on
    it. *)
Theorem breaking_landing (sf : Q) (pl : Player.t) (p : Platform.t) :
  Platform.kind p = P_BREAKING ->
  let p' := snd (Game.land sf pl p) in
  Platform.active p' = false /\
  Platform.fade p' = 0.0%Q /\
  Platform.kind p' = P_BREAKING /\
  (forall n : nat, fade_rounds n [p'] = [p']) /\
  (forall (sf' : Q) (pl' : Player.t),
      Game.landing_scan sf' pl' [p'] = (pl', [p'])).
Proof.
  intros Hk. unfold Game.land, Game.handle_platform_effect. rewrite Hk.
  cbn [snd Platform.active Platform.fade Platform.kind Platform.set_fade
       Platform.set_active].
  split; [reflexivity|]. split; [reflexivity|]. split; [exact Hk|]. split.
  - intros n. induction n as [|n IH]; [reflexivity|].
    cbn [fade_rounds]. unfold Game.fade_out at 1. cbn [flat_map].
    unfold Game.fade_step at 1, Platform.is_kind.
    cbn [Platform.kind Platform.set_fade Platform.set_active].
    rewrite Hk. cbn [andb app]. exact IH.
  - intros sf' pl'. reflexivity.
Qed.

Lemma breaking_landing_witness :
  Platform.kind Sample.breaking = P_BREAKING /\
  Platform.fade (snd (Game.land 1 (Game.player Sample.fresh) Sample.breaking))
  = 0.0%Q.
Proof.
  split; [reflexivity|].
  exact (proj1 (proj2 (breaking_landing 1 (Game.player Sample.fresh)
                                        Sample.breaking eq_refl))).
Defined.

(* ------------------------------------------------------------------------- *)
(** ** Disappearing platforms *)
(* ------------------------------------------------------------------------- *)

(** What the landing does to a disappearing platform, and what the fade
    loop does to it afterwards, round by round: fifteen rounds destroy it,
    fourteen leave it at fade 0.01. *)
Lemma disappearing_landing (sf : Q) (pl : Player.t) (p : Platform.t) :
  Platform.kind p = P_DISAPPEARING ->
  let p' := snd (Game.land sf pl p) in
  Platform.active p' = false /\ Platform.fade p' = 0.85%Q /\
  Platform.kind p' = P_DISAPPEARING /\
  fade_rounds 15 [p'] = [] /\
  map (fun q => Qred (Platform.fade q)) (fade_rounds 14 [p']) = [0.01%Q] /\
  map (fun q => Qred (Platform.fade q)) (fade_rounds 1 [p']) = [0.79%Q].
Proof.
  intros Hk. unfold Game.land, Game.handle_platform_effect. rewrite Hk.
  cbn [snd Platform.active Platform.fade Platform.kind Platform.set_fade
       Platform.set_active].
  split; [reflexivity|]. split; [reflexivity|]. split; [exact Hk|].
  destruct p as [id k r a f ph sx]. cbn [Platform.kind] in Hk. subst k.
  split; [vm_compute; reflexivity|].
  split; vm_compute; reflexivity.
Qed.

(** The fade loop is not reached while the player is not falling. *)
Lemma rising_player_freezes_fade (sf : Q) (g : Game.t) :
  (Player.vel_y (Game.player g) <= 0)%Q ->
  Game.resolve_platform_collisions sf g = g.
Proof.
  intros H. unfold Game.resolve_platform_collisions.
  apply Qle_bool_iff in H. rewrite H. reflexivity.
Qed.

(** When the player is falling, every triggered disappearing platform that
    the scan leaves in the group goes through one round of the loop. *)
Lemma falling_player_fades (sf : Q) (g : Game.t) :
  (0 < Player.vel_y (Game.player g))%Q ->
  Game.platforms (Game.resolve_platform_collisions sf g)
  = Game.fade_out
      (snd (Game.landing_scan sf (Game.player g) (Game.platforms g))).
Proof.
  intros H. unfold Game.resolve_platform_collisions.
  apply Qle_bool_false in H. rewrite H.
  destruct (Game.landing_scan sf (Game.player g) (Game.platforms g)).
  reflexivity.
Qed.

(** C9.  The fade loop sits behind the early return of the collision
    resolver: it runs only in updates in which the player is falling.  In
    the sample run the player lands on the disappearing platform, whose
    fade is 0.79 when that same update ends; for the next 28 updates the
    player is rising and the fade stays 0.79; it goes down again from the
    29th update on and the platform is destroyed in the 42nd update after
    the landing, not the 15th. *)
Theorem fade_stalls_while_player_rises :
  Sample.fade_of 10 Sample.vanishing = Some 1%Q /\
  Sample.fade_of 10 Sample.landed = Some 0.79%Q /\
  (Player.vel_y (Game.player Sample.landed) == - 14)%Q /\
  Sample.fade_of 10 (Game.updates Sample.flat_sin (Sample.idle 1) Sample.landed)
  = Some 0.79%Q /\
  Sample.fade_of 10 (Game.updates Sample.flat_sin (Sample.idle 15) Sample.landed)
  = Some 0.79%Q /\
  Sample.fade_of 10 (Game.updates Sample.flat_sin (Sample.idle 28) Sample.landed)
  = Some 0.79%Q /\
  Sample.fade_of 10 (Game.updates Sample.flat_sin (Sample.idle 29) Sample.landed)
  = Some 0.73%Q /\
  Sample.fade_of 10 (Game.updates Sample.flat_sin (Sample.idle 41) Sample.landed)
  = Some 0.01%Q /\
  Sample.fade_of 10 (Game.updates Sample.flat_sin (Sample.idle 42) Sample.landed)
  = None.
Proof.
  do 8 (split; [vm_compute; reflexivity|]). vm_compute. reflexivity.
Qed.

(* ------------------------------------------------------------------------- *)
(** ** Passive drain and life loss *)
(* ------------------------------------------------------------------------- *)


Lemma enemy_life_loss_needs_contact (sin : Q -> Q) (sf : Q)
      (es : list Enemy.t) :
  forall pl : Player.t,
    forallb (fun e => negb (Game.enemy_contact sin sf pl e)) es = true ->
    enemy_life_loss sin sf pl es = false.
Proof.
  induction es as [|e es IH]; intros pl H; cbn [enemy_life_loss forallb] in *.
  - reflexivity.
  - apply andb_true_iff in H. destruct H as [H1 H2].
    apply negb_true_iff in H1. rewrite H1. apply IH. exact H2.
Qed.





Lemma update_is_update_play (sin : Q -> Q) (keys : Keys) (g : Game.t) :
  Game.state g = STATE_PLAY ->
  Game.update sin keys g = Game.update_play sin keys g.
Proof. intros Hs. unfold Game.update. rewrite Hs. reflexivity. Qed.









(* ------------------------------------------------------------------------- *)
(** ** Utilities *)
(* ------------------------------------------------------------------------- *)

(** X1.  With [lo <= hi], [clamp] returns a value of [lo, hi]: the argument
    itself when it is inside, [lo] when it is below, [hi] when it is above;
    clamping twice is clamping once.  [lerp] returns its first argument at
    0 and its second at 1. *)
Theorem clamp_and_lerp (v lo hi : Q) :
  (lo <= hi)%Q ->
  (lo <= clamp v lo hi)%Q /\ (clamp v lo hi <= hi)%Q /\
  ((lo <= v)%Q -> (v <= hi)%Q -> (clamp v lo hi == v)%Q) /\
  ((v <= lo)%Q -> (clamp v lo hi == lo)%Q) /\
  ((hi <= v)%Q -> (clamp v lo hi == hi)%Q) /\
  (clamp (clamp v lo hi) lo hi == clamp v lo hi)%Q /\
  (lerp lo hi 0 == lo)%Q /\ (lerp lo hi 1 == hi)%Q.
Proof.
  intros H. destruct (clamp_bounds v lo hi H) as [A B].
  split; [exact A|]. split; [exact B|].
  split; [intros; now apply clamp_inside|].
  split; [intros; now apply clamp_below|].
  split; [intros; now apply clamp_above|].
  split; [now apply clamp_inside|].
  unfold lerp. split; ring.
Qed.

Lemma clamp_and_lerp_witness :
  (0 <= 100)%Q /\ (clamp 122 0 100 == 100)%Q /\ (clamp (- 17) 0 100 == 0)%Q.
Proof.
  assert (H : (0 <= 100)%Q) by (vm_compute; discriminate).
  split; [exact H|]. split.
  - apply (proj1 (proj2 (proj2 (proj2 (proj2 (clamp_and_lerp 122 0 100 H)))))).
    vm_compute; discriminate.
  - apply (proj1 (proj2 (proj2 (proj2 (clamp_and_lerp (- 17) 0 100 H))))).
    vm_compute; discriminate.
Defined.

(* ------------------------------------------------------------------------- *)
(** ** The player *)
(* ------------------------------------------------------------------------- *)

Lemma py_int_move_speed :
  py_int PLAYER_MOVE_SPEED = 6 /\ py_int (- PLAYER_MOVE_SPEED)%Q = -6
  /\ py_int 0.0 = 0.
Proof. repeat split; vm_compute; reflexivity. Qed.

Lemma steer_cases (keys : Keys) (touch_x : option Z) (speed : Q) :
  Player.steer keys touch_x speed = Some speed \/
  Player.steer keys touch_x speed = Some (- speed)%Q \/
  Player.steer keys touch_x speed = None.
Proof.
  unfold Player.steer. destruct touch_x as [tx|].
  - destruct (tx <? WIDTH / 2); auto.
  - destruct (K_LEFT keys || K_a keys); [auto|].
    destruct (K_RIGHT keys || K_d keys); auto.
Qed.

(** The horizontal step of one update: 6 px to either side or nothing. *)
Lemma update_step (keys : Keys) (touch_x : option Z) :
  let d := py_int match Player.steer keys touch_x PLAYER_MOVE_SPEED with
                  | Some v => v
                  | None => 0.0%Q
                  end in
  d = 6 \/ d = -6 \/ d = 0.
Proof.
  cbv zeta. destruct py_int_move_speed as (A & B & C).
  destruct (steer_cases keys touch_x PLAYER_MOVE_SPEED) as [E|[E|E]];
    rewrite E; auto.
Qed.

(** X2.  The player's own update keeps the player inside the horizontal
    band of the wrap: a player of width PLAYER_W whose left edge is within
    [-PLAYER_W, WIDTH] is so afterwards; it moves by 6 px to one side or
    not at all, or re-enters at the opposite edge; the rectangle of before
    is remembered as [prev_rect]. *)
Theorem update_wraps_horizontally (keys : Keys) (touch_x : option Z)
        (pl : Player.t) :
  Rect.w (Player.rect pl) = PLAYER_W ->
  - PLAYER_W <= Rect.left (Player.rect pl) <= WIDTH ->
  let pl' := Player.update keys touch_x pl in
  Rect.w (Player.rect pl') = PLAYER_W /\
  Rect.h (Player.rect pl') = Rect.h (Player.rect pl) /\
  - PLAYER_W <= Rect.left (Player.rect pl') <= WIDTH /\
  (Rect.left (Player.rect pl') = Rect.left (Player.rect pl) + 6 \/
   Rect.left (Player.rect pl') = Rect.left (Player.rect pl) - 6 \/
   Rect.left (Player.rect pl') = Rect.left (Player.rect pl) \/
   Rect.left (Player.rect pl') = WIDTH \/
   Rect.right (Player.rect pl') = 0) /\
  Player.prev_rect pl' = Player.rect pl.
Proof.
  intros Hw Hx. cbv zeta. unfold Player.update.
  cbn [Player.rect Player.prev_rect].
  pose proof (update_step keys touch_x) as Hd. cbv zeta in Hd.
  set (d := py_int match Player.steer keys touch_x PLAYER_MOVE_SPEED with
                   | Some v => v
                   | None => 0.0%Q
                   end) in *.
  unfold Rect.left, Rect.right, Rect.set_left, Rect.set_right, Rect.set_x,
    Rect.set_y in *.
  cbn [Rect.x Rect.y Rect.w Rect.h] in *.
  unfold PLAYER_W, WIDTH in *.
  destruct (Rect.x (Player.rect pl) + d + Rect.w (Player.rect pl) <? 0) eqn:E1.
  - apply Z.ltb_lt in E1. cbn [Rect.x Rect.y Rect.w Rect.h].
    repeat split; try reflexivity; try lia.
  - apply Z.ltb_ge in E1.
    destruct (Rect.x (Player.rect pl) + d >? 460) eqn:E2;
      rewrite Z.gtb_ltb in E2;
      [apply Z.ltb_lt in E2 | apply Z.ltb_ge in E2];
      cbn [Rect.x Rect.y Rect.w Rect.h];
      repeat split; try reflexivity; try lia.
Qed.

Lemma update_wraps_horizontally_witness :
  let pl := Player.init 455 580 2 in
  Rect.w (Player.rect pl) = PLAYER_W /\
  - PLAYER_W <= Rect.left (Player.rect pl) <= WIDTH /\
  - PLAYER_W
  <= Rect.left (Player.rect (Player.update Sample.right_keys None pl))
  <= WIDTH.
Proof.
  cbv zeta.
  assert (Hw : Rect.w (Player.rect (Player.init 455 580 2)) = PLAYER_W)
    by reflexivity.
  assert (Hx : - PLAYER_W <= Rect.left (Player.rect (Player.init 455 580 2))
               <= WIDTH) by (vm_compute; split; discriminate).
  split; [exact Hw|]. split; [exact Hx|].
  exact (proj1 (proj2 (proj2 (update_wraps_horizontally
                                Sample.right_keys None
                                (Player.init 455 580 2) Hw Hx)))).
Defined.

Lemma update_timers (keys : Keys) (touch_x : option Z) (pl : Player.t) :
  let pl' := Player.update keys touch_x pl in
  let tick (t : Z) := if t >? 0 then t - 1 else t in
  Player.drain_slow pl' = tick (Player.drain_slow pl) /\
  Player.shield pl' = tick (Player.shield pl) /\
  Player.invincible pl' = tick (Player.invincible pl) /\
  Player.jet pl' = tick (Player.jet pl).
Proof. repeat split; reflexivity. Qed.

Lemma tick_max (t : Z) :
  0 <= t -> (if t >? 0 then t - 1 else t) = Z.max 0 (t - 1).
Proof.
  intros H. destruct (t >? 0) eqn:E; rewrite Z.gtb_ltb in E;
    [apply Z.ltb_lt in E | apply Z.ltb_ge in E]; lia.
Qed.

(** X3.  Every effect timer (reduced drain, shield, invincibility, jet) is
    a count of updates: a timer that stands at [t >= 0] stands at
    [max(0, t - n)] after [n] updates of the player, so an effect of [t]
    frames ends with the [t]-th update and no timer goes below zero. *)
Theorem timers_count_updates (keys : Keys) (touch_x : option Z) (n : nat)
        (pl : Player.t) :
  0 <= Player.drain_slow pl -> 0 <= Player.shield pl ->
  0 <= Player.invincible pl -> 0 <= Player.jet pl ->
  let pl' := Nat.iter n (Player.update keys touch_x) pl in
  Player.drain_slow pl' = Z.max 0 (Player.drain_slow pl - Z.of_nat n) /\
  Player.shield pl' = Z.max 0 (Player.shield pl - Z.of_nat n) /\
  Player.invincible pl' = Z.max 0 (Player.invincible pl - Z.of_nat n) /\
  Player.jet pl' = Z.max 0 (Player.jet pl - Z.of_nat n).
Proof.
  intros H1 H2 H3 H4. cbv zeta.
  induction n as [|n IH].
  - change (Nat.iter 0 (Player.update keys touch_x) pl) with pl.
    cbn [Z.of_nat]. rewrite !Z.sub_0_r.
    split; [lia|]. split; [lia|]. split; lia.
  - change (Nat.iter (S n) (Player.update keys touch_x) pl)
      with (Player.update keys touch_x
              (Nat.iter n (Player.update keys touch_x) pl)).
    rewrite Nat2Z.inj_succ. destruct IH as (I1 & I2 & I3 & I4).
    destruct (update_timers keys touch_x
                (Nat.iter n (Player.update keys touch_x) pl))
      as (U1 & U2 & U3 & U4).
    cbv zeta in U1, U2, U3, U4.
    rewrite U1, U2, U3, U4, I1, I2, I3, I4, !tick_max by lia.
    split; [lia|]. split; [lia|]. split; lia.
Qed.

Lemma timers_count_updates_witness :
  let pl := Player.set_shield DUR_SHIELD (Player.init 230 580 2) in
  0 <= Player.shield pl /\
  Player.shield (Nat.iter 3 (Player.update Sample.no_keys None) pl)
  = Z.max 0 (Player.shield pl - 3).
Proof.
  cbv zeta. split; [vm_compute; discriminate|].
  refine (proj1 (proj2 (timers_count_updates
                          Sample.no_keys None 3
                          (Player.set_shield DUR_SHIELD (Player.init 230 580 2))
                          _ _ _ _))); vm_compute; discriminate.
Defined.

(** X4.  The horizontal velocity that the controller scales by the speed
    factor never moves the player: the player's update overwrites [vel.x]
    before it uses it, so its result does not depend on the [vel.x] it
    finds, and after the controller's block the player's horizontal
    position is the same at every speed factor. *)
Theorem horizontal_speed_never_scales :
  (forall (keys : Keys) (touch_x : option Z) (v : Q) (pl : Player.t),
      Player.update keys touch_x (Player.set_vel_x v pl)
      = Player.update keys touch_x pl) /\
  (forall (sin : Q -> Q) (sf sf' : Q) (keys : Keys) (g : Game.t),
      Rect.x (Player.rect (Game.player (Game.move sin sf keys g)))
      = Rect.x (Player.rect (Game.player (Game.move sin sf' keys g))) /\
      Rect.x (Player.rect (Game.player (Game.move sin sf keys g)))
      = Rect.x (Player.rect
                  (Player.update keys (Game.touch_x g) (Game.player g)))).
Proof.
  split.
  - intros keys touch_x v pl. reflexivity.
  - intros sin sf sf' keys g.
    assert (H : forall s,
               Rect.x (Player.rect (Game.player (Game.move sin s keys g)))
               = Rect.x (Player.rect
                           (Player.update keys (Game.touch_x g)
                                          (Game.player g)))).
    { intros s. unfold Game.move.
      destruct (Player.steer keys (Game.touch_x g) (PLAYER_MOVE_SPEED * s)%Q);
        cbn [Game.player Game.set_player Game.set_platforms Player.rect
             Player.set_vel_x];
        unfold Player.update; cbn [Player.rect Player.set_vel_y];
        unfold Rect.set_y; cbn [Rect.x]; reflexivity. }
    split; [rewrite (H sf), (H sf'); reflexivity | apply H].
Qed.


Lemma hit_energy (e : Q) :
  let e' := clamp (fsub e ENEMY_HIT_ENERGY_LOSS) 0.0 100.0 in
  (e' == clamp (fsub e 22) 0 100)%Q /\
  ((22 <= e)%Q -> (e <= 100)%Q ->
   (e' == fsub e 22)%Q /\ (Qabs (e' - (e - 22)) <= pow2 (-45))%Q) /\
  ((fsub e 22 == e - 22)%Q -> (e' == clamp (e - 22) 0 100)%Q) /\
  ((e <= 22)%Q -> (e' == 0)%Q).
Proof.
  cbv zeta.
  assert (Hc : (clamp (fsub e ENEMY_HIT_ENERGY_LOSS) 0.0 100.0
                == clamp (fsub e 22) 0 100)%Q).
  { assert (E22 : (ENEMY_HIT_ENERGY_LOSS == 22)%Q) by reflexivity.
    rewrite E22. apply clamp_comp; reflexivity. }
  split; [exact Hc|]. split; [|split].
  - intros A B.
    assert (I : (clamp (fsub e 22) 0 100 == fsub e 22)%Q).
    { apply clamp_inside; unfold fsub.
      - apply b64_nonneg. lra.
      - apply Qle_trans with (y := b64 78).
        + apply b64_mono. lra.
        + vm_compute. discriminate. }
    split; [rewrite Hc; exact I|].
    rewrite Hc, I. apply fsub_close; lra.
  - intros E. rewrite Hc. apply clamp_comp; [exact E| |]; reflexivity.
  - intros A. rewrite Hc. apply clamp_below; [|lra].
    unfold fsub. apply b64_nonpos. lra.
Qed.

(** X6.  An enemy hit does nothing to an invincible player; it uses up the
    shield of a shielded one and leaves the energy alone; otherwise it
    takes 22 energy by a float subtraction, down to 0 at least: that is
    the energy less 22 exactly when the difference needs no rounding, and
    within 2^-45 of it for an energy in [22, 100].  It caps the upward
    velocity at 8.  It never touches lives, position or the other
    timers. *)
Theorem take_enemy_hit_cases (pl : Player.t) :
  let pl' := Player.take_enemy_hit pl in
  (0 < Player.invincible pl -> pl' = pl) /\
  (Player.invincible pl <= 0 -> 0 < Player.shield pl ->
   Player.shield pl' = 0 /\ Player.energy pl' = Player.energy pl /\
   Player.vel_y pl' = Player.vel_y pl) /\
  (Player.invincible pl <= 0 -> Player.shield pl <= 0 ->
   (Player.energy pl' == clamp (fsub (Player.energy pl) 22) 0 100)%Q /\
   ((22 <= Player.energy pl)%Q -> (Player.energy pl <= 100)%Q ->
    (Player.energy pl' == fsub (Player.energy pl) 22)%Q /\
    (Qabs (Player.energy pl' - (Player.energy pl - 22)) <= pow2 (-45))%Q) /\
   ((fsub (Player.energy pl) 22 == Player.energy pl - 22)%Q ->
    (Player.energy pl' == clamp (Player.energy pl - 22) 0 100)%Q) /\
   ((Player.energy pl <= 22)%Q -> (Player.energy pl' == 0)%Q) /\
   (- 8 <= Player.vel_y pl')%Q /\
   ((- 8 <= Player.vel_y pl)%Q -> Player.vel_y pl' = Player.vel_y pl)) /\
  Player.lives pl' = Player.lives pl /\
  Player.rect pl' = Player.rect pl /\
  Player.invincible pl' = Player.invincible pl /\
  Player.jet pl' = Player.jet pl /\
  Player.drain_slow pl' = Player.drain_slow pl.
Proof.
  cbv zeta. unfold Player.take_enemy_hit.
  destruct (hit_energy (Player.energy pl)) as (H1 & H2 & H3 & H4).
  destruct (Player.invincible pl >? 0) eqn:Ei; rewrite Z.gtb_ltb in Ei;
    [apply Z.ltb_lt in Ei | apply Z.ltb_ge in Ei].
  { split; [reflexivity|]. split; [lia|]. split; [lia|].
    repeat split; reflexivity. }
  split; [lia|].
  destruct (Player.shield pl >? 0) eqn:Es; rewrite Z.gtb_ltb in Es;
    [apply Z.ltb_lt in Es | apply Z.ltb_ge in Es].
  { split; [intros _ _; repeat split; reflexivity|]. split; [lia|].
    repeat split; reflexivity. }
  split; [lia|].
  cbn [Player.vel_y Player.set_energy].
  destruct (Qlt_bool (Player.vel_y pl) (- 8)) eqn:Ev.
  - apply Qlt_bool_true in Ev.
    cbn [Player.energy Player.vel_y Player.set_vel_y Player.set_energy
         Player.lives Player.rect Player.invincible Player.jet
         Player.drain_slow].
    split; [|repeat split; reflexivity].
    intros _ _. split; [exact H1|]. split; [exact H2|].
    split; [exact H3|]. split; [exact H4|].
    split; [lra | intros A; lra].
  - assert (Hv : (- 8 <= Player.vel_y pl)%Q).
    { destruct (Qlt_le_dec (Player.vel_y pl) (- 8)) as [L|L]; [|exact L].
      apply Qlt_bool_true in L. congruence. }
    cbn [Player.energy Player.vel_y Player.set_vel_y Player.set_energy
         Player.lives Player.rect Player.invincible Player.jet
         Player.drain_slow].
    split; [|repeat split; reflexivity].
    intros _ _. split; [exact H1|]. split; [exact H2|].
    split; [exact H3|]. split; [exact H4|].
    split; [exact Hv | intros _; reflexivity].
Qed.

(* ------------------------------------------------------------------------- *)
(** ** Platforms, enemies and bonuses in motion *)
(* ------------------------------------------------------------------------- *)

Lemma py_int_bounds (q : Q) (a b : Z) :
  a <= 0 -> 0 <= b ->
  (inject_Z a <= q)%Q -> (q <= inject_Z b)%Q ->
  a <= py_int q <= b.
Proof.
  intros Ha Hb Hl Hu. unfold py_int.
  destruct (Qle_bool 0 q) eqn:E.
  - apply Qle_bool_iff in E. split.
    + pose proof (Qfloor_resp_le 0 q E) as F. change (Qfloor 0) with 0 in F. lia.
    + pose proof (Qfloor_le q) as F.
      rewrite Zle_Qle. apply Qle_trans with q; assumption.
  - apply Qle_bool_false in E. split.
    + pose proof (Qle_ceiling q) as F.
      rewrite Zle_Qle. apply Qle_trans with q; assumption.
    + pose proof (Qceiling_lt q) as F.
      assert (G : (inject_Z (Qceiling q - 1) < inject_Z 0)%Q)
        by (apply Qlt_trans with q; assumption).
      rewrite <- Zlt_Qlt in G. lia.
Qed.

Lemma py_int_zero (q : Q) : (- 1 < q)%Q -> (q < 1)%Q -> py_int q = 0.
Proof.
  intros Hl Hu. unfold py_int.
  destruct (Qle_bool 0 q) eqn:E.
  - apply Qle_bool_iff in E.
    pose proof (Qfloor_resp_le 0 q E) as F. change (Qfloor 0) with 0 in F.
    pose proof (Qfloor_le q) as G.
    assert (K : (inject_Z (Qfloor q) < inject_Z 1)%Q)
      by (apply Qle_lt_trans with q; assumption).
    rewrite <- Zlt_Qlt in K. lia.
  - apply Qle_bool_false in E.
    pose proof (Qle_ceiling q) as F. pose proof (Qceiling_lt q) as G.
    assert (K1 : (inject_Z (- 1) < inject_Z (Qceiling q))%Q)
      by (apply Qlt_le_trans with q; assumption).
    assert (K2 : (inject_Z (Qceiling q - 1) < inject_Z 0)%Q)
      by (apply Qlt_trans with q; assumption).
    rewrite <- Zlt_Qlt in K1. rewrite <- Zlt_Qlt in K2. lia.
Qed.

(** X7.  Only an active moving platform is moved by its update; it never
    leaves its height, and, the sine being within [-1, 1], it stays within
    80 px of the x it was created at while its phase advances by 0.02
    times the speed factor. *)
Theorem moving_platform_oscillates (sin : Q -> Q) (msf : Q) (p : Platform.t) :
  (forall q : Q, (- 1 <= sin q)%Q /\ (sin q <= 1)%Q) ->
  let p' := Platform.update sin msf p in
  Rect.y (Platform.rect p') = Rect.y (Platform.rect p) /\
  Rect.w (Platform.rect p') = Rect.w (Platform.rect p) /\
  Platform.start_x p' = Platform.start_x p /\
  Platform.active p' = Platform.active p /\
  Platform.fade p' = Platform.fade p /\
  (Platform.is_kind P_MOVING p && Platform.active p = false -> p' = p) /\
  (Platform.is_kind P_MOVING p && Platform.active p = true ->
   Platform.start_x p - 80 <= Rect.x (Platform.rect p')
   <= Platform.start_x p + 80 /\
   Platform.phase p' = (Platform.phase p + 0.02 * msf)%Q).
Proof.
  intros Hs. cbv zeta. unfold Platform.update.
  destruct (Platform.is_kind P_MOVING p && Platform.active p).
  - cbn [Platform.rect Platform.set_rect Platform.set_phase Platform.start_x
         Platform.active Platform.fade Platform.phase Rect.set_x Rect.x Rect.y
         Rect.w].
    do 5 (split; [reflexivity|]). split; [discriminate|]. intros _.
    split; [|reflexivity].
    destruct (Hs (Platform.phase p + 0.02 * msf)%Q) as [A B].
    assert (H : -80 <= py_int (sin (Platform.phase p + 0.02 * msf) * 80)%Q <= 80).
    { apply py_int_bounds; try lia.
      - change (inject_Z (-80)) with (- 80)%Q. lra.
      - change (inject_Z 80) with 80%Q. lra. }
    lia.
  - do 5 (split; [reflexivity|]). split; [reflexivity | discriminate].
Qed.

Lemma moving_platform_oscillates_witness :
  (forall q : Q, (- 1 <= Sample.flat_sin q)%Q /\ (Sample.flat_sin q <= 1)%Q) /\
  Rect.y (Platform.rect
            (Platform.update Sample.flat_sin 1
                             (Platform.init 0 0 100 600 P_MOVING)))
  = Rect.y (Platform.rect (Platform.init 0 0 100 600 P_MOVING)).
Proof.
  assert (H : forall q : Q,
             (- 1 <= Sample.flat_sin q)%Q /\ (Sample.flat_sin q <= 1)%Q)
    by (intros q; unfold Sample.flat_sin; split; lra).
  split; [exact H|].
  exact (proj1 (moving_platform_oscillates
                  Sample.flat_sin 1 (Platform.init 0 0 100 600 P_MOVING) H)).
Defined.

(** X8.  A bonus never moves: the bob is the truncation of half a sine,
    which is 0; its update only advances the phase by 0.06. *)
Theorem bonus_never_moves (sin : Q -> Q) (b : Bonus.t) :
  (forall q : Q, (- 1 <= sin q)%Q /\ (sin q <= 1)%Q) ->
  Bonus.rect (Bonus.update sin b) = Bonus.rect b /\
  Bonus.kind (Bonus.update sin b) = Bonus.kind b /\
  Bonus.phase (Bonus.update sin b) = (Bonus.phase b + 0.06)%Q.
Proof.
  intros Hs. unfold Bonus.update. cbn [Bonus.rect Bonus.kind Bonus.phase].
  split; [|split; reflexivity].
  destruct (Hs (Bonus.phase b + 0.06)%Q) as [A B].
  rewrite py_int_zero by lra.
  destruct (Bonus.rect b) as [x y w h]. unfold Rect.set_y. cbn.
  rewrite Z.add_0_r. reflexivity.
Qed.

Lemma bonus_never_moves_witness :
  (forall q : Q, (- 1 <= Sample.flat_sin q)%Q /\ (Sample.flat_sin q <= 1)%Q) /\
  Bonus.rect (Bonus.update Sample.flat_sin (Bonus.init 0 100 200 B_CELL))
  = Bonus.rect (Bonus.init 0 100 200 B_CELL).
Proof.
  assert (H : forall q : Q,
             (- 1 <= Sample.flat_sin q)%Q /\ (Sample.flat_sin q <= 1)%Q)
    by (intros q; unfold Sample.flat_sin; split; lra).
  split; [exact H|].
  exact (proj1 (bonus_never_moves Sample.flat_sin
                                  (Bonus.init 0 100 200 B_CELL) H)).
Defined.

Lemma py_int_range (q : Q) (a b : Z) :
  (inject_Z a <= q)%Q -> (q <= inject_Z b)%Q -> a <= py_int q <= b.
Proof.
  intros Hl Hu. unfold py_int. destruct (Qle_bool 0 q).
  - split.
    + rewrite <- (Qfloor_Z a). now apply Qfloor_resp_le.
    + pose proof (Qfloor_le q). rewrite Zle_Qle.
      apply Qle_trans with q; assumption.
  - split.
    + pose proof (Qle_ceiling q). rewrite Zle_Qle.
      apply Qle_trans with q; assumption.
    + rewrite <- (Qceiling_Z b). now apply Qceiling_resp_le.
Qed.

Lemma py_int_within (q : Q) (a b : Z) :
  a <= 0 -> 0 <= b ->
  (inject_Z a - 1 < q)%Q -> (q < inject_Z b + 1)%Q ->
  a <= py_int q <= b.
Proof.
  intros Ha Hb Hl Hu. unfold py_int.
  destruct (Qle_bool 0 q) eqn:E.
  - apply Qle_bool_iff in E. split.
    + pose proof (Qfloor_resp_le 0 q E) as F. change (Qfloor 0) with 0 in F. lia.
    + pose proof (Qfloor_le q) as F.
      assert (G : (inject_Z (Qfloor q) < inject_Z (b + 1))%Q)
        by (rewrite inject_Z_plus; apply Qle_lt_trans with q; assumption).
      rewrite <- Zlt_Qlt in G. lia.
  - apply Qle_bool_false in E. split.
    + pose proof (Qle_ceiling q) as F.
      assert (G : (inject_Z (a - 1) < inject_Z (Qceiling q))%Q).
      { unfold Z.sub. rewrite inject_Z_plus.
        apply Qlt_le_trans with q; assumption. }
      rewrite <- Zlt_Qlt in G. lia.
    + pose proof (Qceiling_lt q) as F.
      assert (G : (inject_Z (Qceiling q - 1) < inject_Z 0)%Q)
        by (apply Qlt_trans with q; assumption).
      rewrite <- Zlt_Qlt in G. lia.
Qed.

(** X9.  What an enemy's update can do, the sine being within [-1, 1] and
    the speed factor within [1, 1.5]: a bulb moves by at most 2 px
    sideways and keeps its height; a pipe moves by at most 1 px up or down
    and keeps its x; smoke keeps its x and rises by 1 px or stays; a
    chaser keeps its height (its bob is truncated to 0) and, when the
    player's centre is more than 4 px away, steps 2 or 3 px toward it,
    never past it, and otherwise stays.  Kind and size never change and
    the phase advances by 0.03 times the speed factor. *)
Theorem enemy_motion (sin : Q -> Q) (pl : Player.t) (esf : Q) (e : Enemy.t) :
  (forall q : Q, (- 1 <= sin q)%Q /\ (sin q <= 1)%Q) ->
  (1 <= esf)%Q -> (esf <= 1.5)%Q ->
  let e' := Enemy.update sin pl esf e in
  let x := Rect.x (Enemy.rect e) in
  let y := Rect.y (Enemy.rect e) in
  let x' := Rect.x (Enemy.rect e') in
  let y' := Rect.y (Enemy.rect e') in
  let d := Rect.centerx (Player.rect pl) - Rect.centerx (Enemy.rect e) in
  Enemy.kind e' = Enemy.kind e /\
  Rect.w (Enemy.rect e') = Rect.w (Enemy.rect e) /\
  Rect.h (Enemy.rect e') = Rect.h (Enemy.rect e) /\
  Enemy.phase e' = (Enemy.phase e + ENEMY_SINE_SPEED * esf)%Q /\
  match Enemy.kind e with
  | E_BULB => y' = y /\ x - 2 <= x' <= x + 2
  | E_PIPE => x' = x /\ y - 1 <= y' <= y + 1
  | E_SMOKE => x' = x /\ y - 1 <= y' <= y
  | E_CHASER =>
      y' = y /\
      (Z.abs d <= 4 -> x' = x) /\
      (4 < d -> x + 2 <= x' <= x + 3) /\
      (d < -4 -> x - 3 <= x' <= x - 2)
  end.
Proof.
  intros Hs H1 H2. cbv zeta. unfold Enemy.update.
  set (ph := (Enemy.phase e + ENEMY_SINE_SPEED * esf)%Q).
  destruct (Hs ph) as [A B]. destruct (Hs (ph * 0.9)%Q) as [A9 B9].
  destruct (Enemy.kind e) eqn:K.
  - (* bulb *)
    assert (R : -2 <= py_int (sin ph * ENEMY_PATROL_SPEED * 1.4 * esf)%Q <= 2).
    { apply py_int_within; try lia; unfold ENEMY_PATROL_SPEED;
        change (inject_Z (-2)) with (- 2)%Q; change (inject_Z 2) with 2%Q; nra. }
    unfold Enemy.move_x, Rect.set_x.
    cbn [Enemy.kind Enemy.rect Enemy.phase Rect.x Rect.y Rect.w Rect.h].
    repeat split; try reflexivity; lia.
  - (* pipe *)
    assert (R : -1 <= py_int (sin (ph * 0.9) * 1.0 * esf)%Q <= 1).
    { apply py_int_within; try lia;
        change (inject_Z (-1)) with (- 1)%Q; change (inject_Z 1) with 1%Q; nra. }
    unfold Enemy.move_y, Rect.set_y.
    cbn [Enemy.kind Enemy.rect Enemy.phase Rect.x Rect.y Rect.w Rect.h].
    repeat split; try reflexivity; lia.
  - (* smoke *)
    assert (R : -1 <= py_int ((- 0.5 + sin ph * 0.25) * esf)%Q <= 0).
    { apply py_int_within; try lia;
        change (inject_Z (-1)) with (- 1)%Q; change (inject_Z 0) with 0%Q; nra. }
    unfold Enemy.move_y, Rect.set_y.
    cbn [Enemy.kind Enemy.rect Enemy.phase Rect.x Rect.y Rect.w Rect.h].
    repeat split; try reflexivity; lia.
  - (* chaser *)
    assert (R0 : py_int (sin ph * 0.6 * esf)%Q = 0)
      by (apply py_int_zero; nra).
    assert (Rp : 2 <= py_int (inject_Z 1 * ENEMY_CHASER_SPEED * esf)%Q <= 3).
    { apply py_int_range; unfold ENEMY_CHASER_SPEED;
        change (inject_Z 1) with 1%Q; change (inject_Z 2) with 2%Q;
        change (inject_Z 3) with 3%Q; lra. }
    assert (Rn : -3 <= py_int (inject_Z (-1) * ENEMY_CHASER_SPEED * esf)%Q <= -2).
    { apply py_int_range; unfold ENEMY_CHASER_SPEED;
        change (inject_Z (-1)) with (- 1)%Q; change (inject_Z (-2)) with (- 2)%Q;
        change (inject_Z (-3)) with (- 3)%Q; lra. }
    rewrite R0. cbn [Enemy.rect].
    set (pcx := Rect.centerx (Player.rect pl)) in *.
    set (ecx := Rect.centerx (Enemy.rect e)) in *.
    destruct (Z.abs (pcx - ecx) >? 4) eqn:D; rewrite Z.gtb_ltb in D;
      [apply Z.ltb_lt in D | apply Z.ltb_ge in D].
    + destruct (pcx >? ecx) eqn:G; rewrite Z.gtb_ltb in G;
        [apply Z.ltb_lt in G | apply Z.ltb_ge in G];
        unfold Enemy.move_x, Enemy.move_y, Rect.set_x, Rect.set_y;
        cbn [Enemy.kind Enemy.rect Enemy.phase Rect.x Rect.y Rect.w Rect.h];
        repeat split; try reflexivity; lia.
    + unfold Enemy.move_x, Enemy.move_y, Rect.set_x, Rect.set_y;
        cbn [Enemy.kind Enemy.rect Enemy.phase Rect.x Rect.y Rect.w Rect.h];
        repeat split; try reflexivity; lia.
Qed.

Lemma enemy_motion_witness :
  (forall q : Q, (- 1 <= Sample.flat_sin q)%Q /\ (Sample.flat_sin q <= 1)%Q) /\
  (1 <= 1.5)%Q /\ (1.5 <= 1.5)%Q /\
  Enemy.kind (Enemy.update Sample.flat_sin (Player.init 230 580 2) 1.5
                           (Enemy.init 0 100 200 E_CHASER))
  = E_CHASER.
Proof.
  assert (H : forall q : Q,
             (- 1 <= Sample.flat_sin q)%Q /\ (Sample.flat_sin q <= 1)%Q)
    by (intros q; unfold Sample.flat_sin; split; lra).
  assert (H1 : (1 <= 1.5)%Q) by lra.
  assert (H2 : (1.5 <= 1.5)%Q) by lra.
  split; [exact H|]. split; [exact H1|]. split; [exact H2|].
  exact (proj1 (enemy_motion Sample.flat_sin (Player.init 230 580 2) 1.5
                             (Enemy.init 0 100 200 E_CHASER) H H1 H2)).
Defined.

(* ------------------------------------------------------------------------- *)
(** ** The world generator *)
(* ------------------------------------------------------------------------- *)

Lemma clamp_monotone (v v' lo hi : Q) :
  (v <= v')%Q -> (clamp v lo hi <= clamp v' lo hi)%Q.
Proof.
  intros H. unfold clamp.
  apply Q.max_le_compat_l. apply Q.min_le_compat_l. exact H.
Qed.

Lemma enemy_spawn_chance_bounds (w : World.t) :
  (0.06 <= World.enemy_spawn_chance w)%Q /\
  (World.enemy_spawn_chance w <= 0.24)%Q.
Proof.
  unfold World.enemy_spawn_chance, ENEMY_BASE_SPAWN_CHANCE.
  destruct (progress_factor_bounds w). split; lra.
Qed.

(** X10.  Whatever the score, the progress factor is within [0, 1], the
    speed factor within [1, 1.5] and the enemy spawn chance within
    [0.06, 0.24]; all three grow with the score, and a score of 0 or less
    gives the base values 0, 1 and 0.06. *)
Theorem difficulty_is_bounded_and_monotone (w w' : World.t) :
  ((0 <= World.progress_factor w)%Q /\ (World.progress_factor w <= 1)%Q) /\
  ((1 <= World.speed_factor w)%Q /\ (World.speed_factor w <= 1.5)%Q) /\
  ((0.06 <= World.enemy_spawn_chance w)%Q /\
   (World.enemy_spawn_chance w <= 0.24)%Q) /\
  (World.score w <= World.score w' ->
   (World.progress_factor w <= World.progress_factor w')%Q /\
   (World.speed_factor w <= World.speed_factor w')%Q /\
   (World.enemy_spawn_chance w <= World.enemy_spawn_chance w')%Q) /\
  (World.score w <= 0 ->
   (World.progress_factor w == 0)%Q /\ (World.speed_factor w == 1)%Q /\
   (World.enemy_spawn_chance w == 0.06)%Q).
Proof.
  split; [apply progress_factor_bounds|].
  split; [apply speed_factor_bounds|].
  split; [apply enemy_spawn_chance_bounds|]. split.
  - intros H.
    assert (P : (World.progress_factor w <= World.progress_factor w')%Q).
    { unfold World.progress_factor. apply clamp_monotone.
      unfold Qdiv. apply Qmult_le_compat_r; [|vm_compute; discriminate].
      rewrite <- Zle_Qle. exact H. }
    unfold World.speed_factor, World.enemy_spawn_chance.
    split; [exact P | split; lra].
  - intros H.
    assert (P : (World.progress_factor w == 0)%Q).
    { unfold World.progress_factor.
      transitivity 0.0%Q; [|reflexivity].
      apply clamp_below; [|lra].
      assert (K : (inject_Z (World.score w) <= inject_Z 0)%Q)
        by (rewrite <- Zle_Qle; exact H).
      change (inject_Z 0) with 0%Q in K.
      assert (Qi : (/ 4000.0 == 1 # 4000)%Q) by reflexivity.
      unfold Qdiv. rewrite Qi. lra. }
    unfold World.speed_factor, World.enemy_spawn_chance,
      ENEMY_BASE_SPAWN_CHANCE.
    split; [exact P | split; rewrite P; reflexivity].
Qed.

Lemma Qlt_bool_false (a b : Q) : Qlt_bool a b = false <-> (b <= a)%Q.
Proof.
  unfold Qlt_bool. rewrite negb_false_iff. apply Qle_bool_iff.
Qed.

Ltac decide_bands :=
  repeat match goal with
         | |- context [Qlt_bool ?a ?b] =>
             first [ rewrite (proj2 (Qlt_bool_true a b)) by lra
                   | rewrite (proj2 (Qlt_bool_false a b)) by lra ]
         end.

Section Doubles.
Open Scope Q_scope.

Lemma pow2_tiny : pow2 (-1075) <= 1 # 1152921504606846976.
Proof.
  apply Qle_trans with (y := pow2 (-60)); [apply pow2_le; lia|].
  vm_compute. discriminate.
Qed.

Lemma b64_near (x : Q) (b : Q) :
  Qabs x <= b -> Qabs (b64 x - x) <= b * pow2 (-53) + pow2 (-1075).
Proof.
  intros H. eapply Qle_trans; [apply b64_error|].
  apply Qplus_le_l. apply Qmult_le_compat_r; [exact H|].
  apply Qlt_le_weak. apply pow2_pos.
Qed.

Lemma Qabs_bound (x lo hi : Q) :
  - lo <= x -> x <= hi -> lo <= hi -> Qabs x <= hi.
Proof. intros A B C. apply Qabs_Qle_condition. split; lra. Qed.

Lemma progress_factor64_bounds (w : World.t) :
  0 <= World.progress_factor64 w /\ World.progress_factor64 w <= 1.
Proof.
  unfold World.progress_factor64.
  destruct (clamp_bounds (fdiv (b64 (inject_Z (World.score w))) 4000.0)
                         0.0 1.0) as [A B]; [lra | split; lra].
Qed.

Lemma div_4000 (x : Q) : x / 4000.0 == x * (1 # 4000).
Proof. unfold Qdiv. assert (Qi : / 4000.0 == 1 # 4000) by reflexivity.
       rewrite Qi. reflexivity. Qed.

Lemma progress_factor64_low (w : World.t) :
  (World.score w <= 0)%Z -> World.progress_factor64 w == 0.
Proof.
  intros H. unfold World.progress_factor64.
  transitivity 0.0; [|reflexivity].
  apply clamp_below; [|lra].
  assert (K : inject_Z (World.score w) <= inject_Z 0)
    by (rewrite <- Zle_Qle; exact H).
  change (inject_Z 0) with 0 in K.
  apply b64_nonpos in K.
  unfold fdiv. apply Qle_trans with (y := 0); [|lra].
  apply b64_nonpos. rewrite div_4000.
  generalize dependent (b64 (inject_Z (World.score w))). intros. lra.
Qed.

Lemma progress_factor64_high (w : World.t) :
  (4000 <= World.score w)%Z -> World.progress_factor64 w == 1.
Proof.
  intros H. unfold World.progress_factor64.
  transitivity 1.0; [|reflexivity].
  apply clamp_above; [|lra].
  assert (K : inject_Z 4000 <= inject_Z (World.score w))
    by (rewrite <- Zle_Qle; exact H).
  apply b64_mono in K.
  assert (E : b64 (inject_Z 4000) == 4000) by (vm_compute; reflexivity).
  rewrite E in K.
  unfold fdiv. apply Qle_trans with (y := b64 1).
  - vm_compute. discriminate.
  - apply b64_mono. rewrite div_4000.
    generalize dependent (b64 (inject_Z (World.score w))). intros. lra.
Qed.

Lemma progress_factor64_mono (w w' : World.t) :
  (World.score w <= World.score w')%Z ->
  World.progress_factor64 w <= World.progress_factor64 w'.
Proof.
  intros H. unfold World.progress_factor64. apply clamp_monotone.
  unfold fdiv. apply b64_mono. rewrite !div_4000.
  assert (K : inject_Z (World.score w) <= inject_Z (World.score w'))
    by (rewrite <- Zle_Qle; exact H).
  apply b64_mono in K.
  generalize dependent (b64 (inject_Z (World.score w))).
  generalize dependent (b64 (inject_Z (World.score w'))). intros. lra.
Qed.

Lemma progress_factor64_near (w : World.t) :
  Qabs (World.progress_factor64 w - World.progress_factor w) <= pow2 (-51).
Proof.
  assert (P51 : pow2 (-51) == 1 # 2251799813685248) by reflexivity.
  destruct (Z_le_gt_dec (World.score w) 0) as [L|L].
  { rewrite (progress_factor64_low w L).
    assert (E : World.progress_factor w == 0).
    { unfold World.progress_factor. transitivity 0.0; [|reflexivity].
      apply clamp_below; [|lra].
      assert (K : inject_Z (World.score w) <= inject_Z 0)
        by (rewrite <- Zle_Qle; exact L).
      change (inject_Z 0) with 0 in K. rewrite div_4000. lra. }
    rewrite E, P51. vm_compute. discriminate. }
  destruct (Z_le_gt_dec 4000 (World.score w)) as [U|U].
  { rewrite (progress_factor64_high w U).
    assert (E : World.progress_factor w == 1).
    { unfold World.progress_factor. transitivity 1.0; [|reflexivity].
      apply clamp_above; [|lra].
      assert (K : inject_Z 4000 <= inject_Z (World.score w))
        by (rewrite <- Zle_Qle; exact U).
      rewrite div_4000. change (inject_Z 4000) with 4000 in K. lra. }
    rewrite E, P51. vm_compute. discriminate. }
  unfold World.progress_factor64, World.progress_factor.
  apply clamp_close. unfold fdiv.
  set (x := inject_Z (World.score w)).
  assert (X0 : 0 <= x).
  { change 0 with (inject_Z 0). unfold x. rewrite <- Zle_Qle. lia. }
  assert (X1 : x <= 4000).
  { change 4000 with (inject_Z 4000). unfold x. rewrite <- Zle_Qle. lia. }
  clearbody x.
  pose proof pow2_tiny as T. pose proof pow2_m53 as P53.
  assert (A : Qabs (b64 x - x) <= 4000 * pow2 (-53) + pow2 (-1075)).
  { apply b64_near. apply Qabs_bound with (lo := 0); lra. }
  apply Qabs_Qle_condition in A. destruct A as [A1 A2].
  rewrite !div_4000.
  set (y := b64 x * (1 # 4000)).
  assert (B : Qabs (b64 y - y) <= 2 * pow2 (-53) + pow2 (-1075)).
  { apply b64_near. apply Qabs_bound with (lo := 2); unfold y.
    - generalize dependent (b64 x). generalize dependent (pow2 (-1075)).
      generalize dependent (pow2 (-53)). intros. lra.
    - generalize dependent (b64 x). generalize dependent (pow2 (-1075)).
      generalize dependent (pow2 (-53)). intros. lra.
    - lra. }
  apply Qabs_Qle_condition in B. destruct B as [B1 B2].
  apply Qabs_Qle_condition. unfold y in *.
  generalize dependent (b64 (b64 x * (1 # 4000))).
  generalize dependent (b64 x). generalize dependent (pow2 (-1075)).
  generalize dependent (pow2 (-53)). generalize dependent (pow2 (-51)).
  intros. split; lra.
Qed.

(** A band edge [a - c * p], evaluated in floats for [p] in [0, 1], lies
    between its values at [p = 1] and [p = 0]. *)
Lemma edge_bounds (a c p : Q) :
  0 <= p -> p <= 1 -> 0 <= c ->
  b64 (a - b64 (c * 1)) <= fsub a (fmul c p) /\ fsub a (fmul c p) <= b64 a.
Proof.
  intros P0 P1 C0. unfold fsub, fmul.
  assert (L : 0 <= b64 (c * p)).
  { apply b64_nonneg. apply Qmult_le_0_compat; assumption. }
  assert (U : b64 (c * p) <= b64 (c * 1)).
  { apply b64_mono. nra. }
  split; apply b64_mono.
  - generalize dependent (b64 (c * p)). generalize dependent (b64 (c * 1)).
    intros. lra.
  - generalize dependent (b64 (c * p)). intros. lra.
Qed.

(** ... and is within [2^-50] of the decimal formula when [a] and [c] are
    the doubles of decimals [a0] and [c0] in [0, 1]. *)
Lemma edge_near (a0 c0 p : Q) :
  0 <= p -> p <= 1 -> 0 <= c0 -> c0 <= 1 -> 0 <= a0 -> a0 <= 1 ->
  Qabs (fsub (b64 a0) (fmul (b64 c0) p) - (a0 - c0 * p)) <= pow2 (-50).
Proof.
  intros P0 P1 C0 C1 A0 A1.
  pose proof pow2_tiny as T. pose proof pow2_m53 as P53.
  assert (P50 : pow2 (-50) == 1 # 1125899906842624) by reflexivity.
  assert (Ea : Qabs (b64 a0 - a0) <= 1 * pow2 (-53) + pow2 (-1075))
    by (apply b64_near; apply Qabs_bound with (lo := 0); lra).
  assert (Ec : Qabs (b64 c0 - c0) <= 1 * pow2 (-53) + pow2 (-1075))
    by (apply b64_near; apply Qabs_bound with (lo := 0); lra).
  apply Qabs_Qle_condition in Ea. destruct Ea as [Ea1 Ea2].
  apply Qabs_Qle_condition in Ec. destruct Ec as [Ec1 Ec2].
  unfold fsub, fmul.
  set (a := b64 a0) in *. set (c := b64 c0) in *.
  assert (Cb : 0 <= c) by (apply b64_nonneg; exact C0).
  assert (Cp : 0 <= c * p) by (apply Qmult_le_0_compat; assumption).
  assert (Cq : c * p <= c) by (clear - Cb P0 P1; clearbody c; nra).
  assert (Cr : (c - c0) * p <= 1 * pow2 (-53) + pow2 (-1075) /\
               - (1 * pow2 (-53) + pow2 (-1075)) <= (c - c0) * p).
  { clear - P0 P1 Ec1 Ec2 T P53.
    generalize dependent (pow2 (-1075)). generalize dependent (pow2 (-53)).
    intros. split; nra. }
  destruct Cr as [Cr1 Cr2].
  assert (Em : Qabs (b64 (c * p) - c * p) <= 2 * pow2 (-53) + pow2 (-1075)).
  { apply b64_near. apply Qabs_bound with (lo := 0).
    - lra.
    - clear - Cq Ec2 C1 T P53.
      generalize dependent (pow2 (-1075)). generalize dependent (pow2 (-53)).
      intros. lra.
    - lra. }
  apply Qabs_Qle_condition in Em. destruct Em as [Em1 Em2].
  set (m := b64 (c * p)) in *.
  assert (Es : Qabs (b64 (a - m) - (a - m)) <= 2 * pow2 (-53) + pow2 (-1075)).
  { apply b64_near. apply Qabs_bound with (lo := 2).
    - clear - Ea1 Ea2 A0 A1 Em1 Em2 Cp Cq Ec2 C1 T P53.
      generalize dependent (pow2 (-1075)). generalize dependent (pow2 (-53)).
      intros. lra.
    - clear - Ea1 Ea2 A0 A1 Em1 Em2 Cp Cq Ec2 C1 T P53.
      generalize dependent (pow2 (-1075)). generalize dependent (pow2 (-53)).
      intros. lra.
    - lra. }
  apply Qabs_Qle_condition in Es. destruct Es as [Es1 Es2].
  apply Qabs_Qle_condition.
  assert (D : c * p - c0 * p == (c - c0) * p) by ring.
  clearbody a c m.
  generalize dependent (b64 (a - m)). generalize dependent ((c - c0) * p).
  generalize dependent (c * p). generalize dependent (c0 * p).
  generalize dependent (pow2 (-1075)). generalize dependent (pow2 (-53)).
  generalize dependent (pow2 (-50)).
  intros. split; lra.
Qed.
End Doubles.

Lemma platform_edges (p : Q) :
  (0 <= p)%Q -> (p <= 1)%Q ->
  ((1 # 8 <= edge 0.24 0.08 p)%Q /\ (edge 0.24 0.08 p <= 0.25)%Q) /\
  ((0.35 <= edge 0.44 0.08 p)%Q /\ (edge 0.44 0.08 p <= 0.45)%Q) /\
  ((0.53 <= edge 0.60 0.06 p)%Q /\ (edge 0.60 0.06 p <= 0.61)%Q) /\
  ((0.69 <= edge 0.78 0.08 p)%Q /\ (edge 0.78 0.08 p <= 0.79)%Q) /\
  ((0.87 <= b64 0.88)%Q /\ (b64 0.88 <= 0.89)%Q) /\
  ((0.93 <= b64 0.94)%Q /\ (b64 0.94 <= 0.95)%Q).
Proof.
  intros P0 P1. unfold edge.
  repeat match goal with
         | |- _ /\ _ => split
         end;
    lazymatch goal with
    | |- (_ <= fsub ?a (fmul ?c p))%Q =>
        apply Qle_trans with (y := b64 (a - b64 (c * 1)));
        [vm_compute; discriminate
        | apply (edge_bounds a c p P0 P1); vm_compute; discriminate]
    | |- (fsub ?a (fmul ?c p) <= _)%Q =>
        apply Qle_trans with (y := b64 a);
        [apply (edge_bounds a c p P0 P1); vm_compute; discriminate
        | vm_compute; discriminate]
    | |- _ => vm_compute; discriminate
    end.
Qed.

Lemma band_chain (r e1 e2 e3 e4 e5 e6 : Q) :
  let k :=
    if Qlt_bool r e1 then P_SOLAR
    else if Qlt_bool r e2 then P_WIND
    else if Qlt_bool r e3 then P_HYDRO
    else if Qlt_bool r e4 then P_NORMAL
    else if Qlt_bool r e5 then P_MOVING
    else if Qlt_bool r e6 then P_DISAPPEARING
    else P_BREAKING in
  (e1 <= e2)%Q -> (e2 <= e3)%Q -> (e3 <= e4)%Q -> (e4 <= e5)%Q ->
  (e5 <= e6)%Q ->
  ((r < e1)%Q -> k = P_SOLAR) /\
  ((e1 <= r)%Q -> (r < e2)%Q -> k = P_WIND) /\
  ((e2 <= r)%Q -> (r < e3)%Q -> k = P_HYDRO) /\
  ((e3 <= r)%Q -> (r < e4)%Q -> k = P_NORMAL) /\
  ((e4 <= r)%Q -> (r < e5)%Q -> k = P_MOVING) /\
  ((e5 <= r)%Q -> (r < e6)%Q -> k = P_DISAPPEARING) /\
  ((e6 <= r)%Q -> k = P_BREAKING) /\
  k <> P_SPRING.
Proof.
  cbv zeta. intros O1 O2 O3 O4 O5.
  repeat split; intros; try (decide_bands; reflexivity).
  repeat break_if; discriminate.
Qed.

Lemma choose_platform_type_bands (w : World.t) :
  let p := World.progress_factor64 w in
  let r := fst (Random.random (World.rng w)) in
  let k := fst (World.choose_platform_type w) in
  let e1 := edge 0.24 0.08 p in
  let e2 := edge 0.44 0.08 p in
  let e3 := edge 0.60 0.06 p in
  let e4 := edge 0.78 0.08 p in
  ((r < e1)%Q -> k = P_SOLAR) /\
  ((e1 <= r)%Q -> (r < e2)%Q -> k = P_WIND) /\
  ((e2 <= r)%Q -> (r < e3)%Q -> k = P_HYDRO) /\
  ((e3 <= r)%Q -> (r < e4)%Q -> k = P_NORMAL) /\
  ((e4 <= r)%Q -> (r < b64 0.88)%Q -> k = P_MOVING) /\
  ((b64 0.88 <= r)%Q -> (r < b64 0.94)%Q -> k = P_DISAPPEARING) /\
  ((b64 0.94 <= r)%Q -> k = P_BREAKING) /\
  k <> P_SPRING.
Proof.
  cbv zeta.
  destruct (progress_factor64_bounds w) as [P0 P1].
  destruct (platform_edges _ P0 P1)
    as ([A1 B1] & [A2 B2] & [A3 B3] & [A4 B4] & [A5 B5] & [A6 B6]).
  unfold World.choose_platform_type.
  destruct (Random.random (World.rng w)) as [r g]. cbn [fst].
  unfold edge in *.
  apply band_chain.
  - apply Qle_trans with (y := 0.25%Q); [exact B1|].
    apply Qle_trans with (y := 0.35%Q); [lra | exact A2].
  - apply Qle_trans with (y := 0.45%Q); [exact B2|].
    apply Qle_trans with (y := 0.53%Q); [lra | exact A3].
  - apply Qle_trans with (y := 0.61%Q); [exact B3|].
    apply Qle_trans with (y := 0.69%Q); [lra | exact A4].
  - apply Qle_trans with (y := 0.79%Q); [exact B4|].
    apply Qle_trans with (y := 0.87%Q); [lra | exact A5].
  - apply Qle_trans with (y := 0.89%Q); [exact B5|].
    apply Qle_trans with (y := 0.93%Q); [lra | exact A6].
Qed.

(** X11.  The platform kind is read off one draw [r] by bands whose edges
    are doubles that move with the progress [p], itself a double within
    2^-51 of the exact progress: solar below 0.24 - 0.08p, wind up to
    0.44 - 0.08p, hydro up to 0.60 - 0.06p, normal up to 0.78 - 0.08p,
    moving up to 0.88, disappearing up to 0.94, breaking from there on,
    every literal, product and difference being rounded.  The edges are
    in this order and within 2^-50 of the decimal formulas.  The kind
    "spring" is never chosen, and at every score each of the seven other
    kinds is chosen by some draw.  A draw equal to the double 0.24, which
    is below the decimal 0.24, gives wind at score 0, and a draw equal to
    the double 0.94, below the decimal 0.94, gives breaking. *)
Theorem platform_kind_bands :
  (forall w : World.t,
      let p := World.progress_factor64 w in
      let r := fst (Random.random (World.rng w)) in
      let k := fst (World.choose_platform_type w) in
      let e1 := edge 0.24 0.08 p in
      let e2 := edge 0.44 0.08 p in
      let e3 := edge 0.60 0.06 p in
      let e4 := edge 0.78 0.08 p in
      ((0 <= p)%Q /\ (p <= 1)%Q /\
       (Qabs (p - World.progress_factor w) <= pow2 (-51))%Q) /\
      ((e1 <= e2)%Q /\ (e2 <= e3)%Q /\ (e3 <= e4)%Q /\ (e4 <= b64 0.88)%Q /\
       (b64 0.88 <= b64 0.94)%Q) /\
      ((Qabs (e1 - (0.24 - 0.08 * p)) <= pow2 (-50))%Q /\
       (Qabs (e2 - (0.44 - 0.08 * p)) <= pow2 (-50))%Q /\
       (Qabs (e3 - (0.60 - 0.06 * p)) <= pow2 (-50))%Q /\
       (Qabs (e4 - (0.78 - 0.08 * p)) <= pow2 (-50))%Q) /\
      ((r < e1)%Q -> k = P_SOLAR) /\
      ((e1 <= r)%Q -> (r < e2)%Q -> k = P_WIND) /\
      ((e2 <= r)%Q -> (r < e3)%Q -> k = P_HYDRO) /\
      ((e3 <= r)%Q -> (r < e4)%Q -> k = P_NORMAL) /\
      ((e4 <= r)%Q -> (r < b64 0.88)%Q -> k = P_MOVING) /\
      ((b64 0.88 <= r)%Q -> (r < b64 0.94)%Q -> k = P_DISAPPEARING) /\
      ((b64 0.94 <= r)%Q -> k = P_BREAKING) /\
      k <> P_SPRING) /\
  (forall (spawn_y score : Z) (k : PlatformKind),
      k <> P_SPRING ->
      exists n : N,
        fst (World.choose_platform_type
               (World.mk spawn_y (Random.mk (fun _ => n) 0) score))
        = k) /\
  (let w := World.mk 0 (Random.mk (fun _ => 2161727821137838%N) 0) 0 in
   (fst (Random.random (World.rng w)) == b64 0.24)%Q /\
   (b64 0.24 < 0.24)%Q /\
   fst (World.choose_platform_type w) = P_WIND) /\
  (forall (spawn_y score : Z),
      let w := World.mk spawn_y
                        (Random.mk (fun _ => 8466767299456532%N) 0) score in
      (fst (Random.random (World.rng w)) == b64 0.94)%Q /\
      (b64 0.94 < 0.94)%Q /\
      fst (World.choose_platform_type w) = P_BREAKING).
Proof.
  split; [|split; [|split]].
  - intros w. cbv zeta.
    destruct (progress_factor64_bounds w) as [P0 P1].
    destruct (platform_edges _ P0 P1)
      as ([A1 B1] & [A2 B2] & [A3 B3] & [A4 B4] & [A5 B5] & [A6 B6]).
    split; [split; [exact P0|split; [exact P1|apply progress_factor64_near]]|].
    split.
    { split; [apply Qle_trans with (y := 0.25%Q); [exact B1|];
              apply Qle_trans with (y := 0.35%Q); [lra | exact A2]|].
      split; [apply Qle_trans with (y := 0.45%Q); [exact B2|];
              apply Qle_trans with (y := 0.53%Q); [lra | exact A3]|].
      split; [apply Qle_trans with (y := 0.61%Q); [exact B3|];
              apply Qle_trans with (y := 0.69%Q); [lra | exact A4]|].
      split; [apply Qle_trans with (y := 0.79%Q); [exact B4|];
              apply Qle_trans with (y := 0.87%Q); [lra | exact A5]|].
      apply Qle_trans with (y := 0.89%Q); [exact B5|].
      apply Qle_trans with (y := 0.93%Q); [lra | exact A6]. }
    split.
    { unfold edge. repeat split; apply edge_near; lra. }
    exact (choose_platform_type_bands w).
  - intros sy s k Hk.
    assert (pick : forall n : N,
               (n < 2 ^ 53)%N ->
               fst (Random.random
                      (World.rng (World.mk sy (Random.mk (fun _ => n) 0) s)))
               = Qmake (Z.of_N n) (2 ^ 53)).
    { intros n Hn. unfold Random.random, Random.next.
      cbn [fst Random.raw World.rng Random.pos].
      rewrite N.mod_small by exact Hn. reflexivity. }
    assert (at_draw : forall (n : N) (q : Q),
               (n < 2 ^ 53)%N -> (Qmake (Z.of_N n) (2 ^ 53) == q)%Q ->
               let w := World.mk sy (Random.mk (fun _ => n) 0) s in
               let p := World.progress_factor64 w in
               (((q < edge 0.24 0.08 p)%Q -> fst (World.choose_platform_type w) = P_SOLAR) /\
                ((edge 0.24 0.08 p <= q)%Q -> (q < edge 0.44 0.08 p)%Q ->
                 fst (World.choose_platform_type w) = P_WIND) /\
                ((edge 0.44 0.08 p <= q)%Q -> (q < edge 0.60 0.06 p)%Q ->
                 fst (World.choose_platform_type w) = P_HYDRO) /\
                ((edge 0.60 0.06 p <= q)%Q -> (q < edge 0.78 0.08 p)%Q ->
                 fst (World.choose_platform_type w) = P_NORMAL) /\
                ((edge 0.78 0.08 p <= q)%Q -> (q < b64 0.88)%Q ->
                 fst (World.choose_platform_type w) = P_MOVING) /\
                ((b64 0.88 <= q)%Q -> (q < b64 0.94)%Q ->
                 fst (World.choose_platform_type w) = P_DISAPPEARING) /\
                ((b64 0.94 <= q)%Q -> fst (World.choose_platform_type w) = P_BREAKING)) /\
               ((1 # 8 <= edge 0.24 0.08 p)%Q /\ (edge 0.24 0.08 p <= 0.25)%Q) /\
               ((0.35 <= edge 0.44 0.08 p)%Q /\ (edge 0.44 0.08 p <= 0.45)%Q) /\
               ((0.53 <= edge 0.60 0.06 p)%Q /\ (edge 0.60 0.06 p <= 0.61)%Q) /\
               ((0.69 <= edge 0.78 0.08 p)%Q /\ (edge 0.78 0.08 p <= 0.79)%Q) /\
               ((0.87 <= b64 0.88)%Q /\ (b64 0.88 <= 0.89)%Q) /\
               ((0.93 <= b64 0.94)%Q /\ (b64 0.94 <= 0.95)%Q)).
    { intros n q Hn Eq. cbv zeta.
      pose proof (choose_platform_type_bands
                    (World.mk sy (Random.mk (fun _ => n) 0) s)) as H.
      cbv zeta in H. rewrite (pick n Hn) in H.
      destruct (progress_factor64_bounds
                  (World.mk sy (Random.mk (fun _ => n) 0) s)) as [P0 P1].
      split; [|exact (platform_edges _ P0 P1)].
      destruct H as (H1 & H2 & H3 & H4 & H5 & H6 & H7 & _).
      repeat split; intros;
        [apply H1|apply H2|apply H3|apply H4|apply H5|apply H6|apply H7];
        rewrite Eq; assumption. }
    destruct k; try congruence.
    + exists (5 * 2 ^ 50)%N.
      destruct (at_draw (5 * 2 ^ 50)%N 0.625%Q eq_refl eq_refl)
        as ((_ & _ & _ & H & _) & _ & _ & [A3 B3] & [A4 B4] & _).
      apply H; lra.
    + exists 0%N.
      destruct (at_draw 0%N 0%Q eq_refl eq_refl)
        as ((H & _) & [A1 B1] & _).
      apply H; lra.
    + exists (2 ^ 51)%N.
      destruct (at_draw (2 ^ 51)%N 0.25%Q eq_refl eq_refl)
        as ((_ & H & _) & [A1 B1] & [A2 B2] & _).
      apply H; lra.
    + exists (2 ^ 52)%N.
      destruct (at_draw (2 ^ 52)%N 0.5%Q eq_refl eq_refl)
        as ((_ & _ & H & _) & _ & [A2 B2] & [A3 B3] & _).
      apply H; lra.
    + exists (13 * 2 ^ 49)%N.
      destruct (at_draw (13 * 2 ^ 49)%N 0.8125%Q eq_refl eq_refl)
        as ((_ & _ & _ & _ & H & _) & _ & _ & _ & [A4 B4] & [A5 B5] & _).
      apply H; lra.
    + exists (31 * 2 ^ 48)%N.
      destruct (at_draw (31 * 2 ^ 48)%N 0.96875%Q eq_refl eq_refl)
        as ((_ & _ & _ & _ & _ & _ & H) & _ & _ & _ & _ & _ & [A6 B6]).
      apply H; lra.
    + exists (29 * 2 ^ 48)%N.
      destruct (at_draw (29 * 2 ^ 48)%N 0.90625%Q eq_refl eq_refl)
        as ((_ & _ & _ & _ & _ & H & _) & _ & _ & _ & _ & [A5 B5] & [A6 B6]).
      apply H; lra.
  - cbv zeta. split; [vm_compute; reflexivity|].
    split; [vm_compute; reflexivity|]. vm_compute. reflexivity.
  - intros sy s. cbv zeta.
    assert (R : (fst (Random.random
                        (World.rng
                           (World.mk sy
                              (Random.mk (fun _ => 8466767299456532%N) 0) s)))
                 == b64 0.94)%Q) by (vm_compute; reflexivity).
    split; [exact R|]. split; [vm_compute; reflexivity|].
    destruct (choose_platform_type_bands
                (World.mk sy (Random.mk (fun _ => 8466767299456532%N) 0) s))
      as (_ & _ & _ & _ & _ & _ & H & _).
    apply H. rewrite R. apply Qle_refl.
Qed.

Lemma enemy_spawn_chance64_bounds (w : World.t) :
  (b64 0.06 <= World.enemy_spawn_chance64 w)%Q /\
  (World.enemy_spawn_chance64 w <= b64 0.24)%Q.
Proof.
  destruct (progress_factor64_bounds w) as [P0 P1].
  unfold World.enemy_spawn_chance64, fadd, fmul, ENEMY_BASE_SPAWN_CHANCE.
  cbv zeta.
  assert (C : (0 <= b64 0.18)%Q) by (vm_compute; discriminate).
  assert (L : (0 <= b64 (World.progress_factor64 w * b64 0.18))%Q).
  { apply b64_nonneg. apply Qmult_le_0_compat; assumption. }
  assert (U : (b64 (World.progress_factor64 w * b64 0.18)
               <= b64 (1 * b64 0.18))%Q).
  { apply b64_mono. apply Qmult_le_compat_r; assumption. }
  split.
  - apply Qle_trans with (y := b64 (b64 0.06 + 0)).
    + vm_compute. discriminate.
    + apply b64_mono.
      generalize dependent (b64 (World.progress_factor64 w * b64 0.18)).
      intros. lra.
  - apply Qle_trans with (y := b64 (b64 0.06 + b64 (1 * b64 0.18))).
    + apply b64_mono.
      generalize dependent (b64 (World.progress_factor64 w * b64 0.18)).
      generalize dependent (b64 (1 * b64 0.18)).
      intros. lra.
    + vm_compute. discriminate.
Qed.

Lemma enemy_spawn_chance64_ends (w : World.t) :
  (World.score w <= 0 -> (World.enemy_spawn_chance64 w == b64 0.06)%Q) /\
  (4000 <= World.score w -> (World.enemy_spawn_chance64 w == b64 0.24)%Q).
Proof.
  unfold World.enemy_spawn_chance64. cbv zeta. split; intros H.
  - rewrite (progress_factor64_low w H). vm_compute. reflexivity.
  - rewrite (progress_factor64_high w H). vm_compute. reflexivity.
Qed.

Lemma enemy_spawn_chance64_mono (w w' : World.t) :
  World.score w <= World.score w' ->
  (World.enemy_spawn_chance64 w <= World.enemy_spawn_chance64 w')%Q.
Proof.
  intros H. apply progress_factor64_mono in H.
  unfold World.enemy_spawn_chance64, fadd, fmul. cbv zeta.
  assert (C : (0 <= b64 0.18)%Q) by (vm_compute; discriminate).
  apply b64_mono. apply Qplus_le_r. apply b64_mono.
  apply Qmult_le_compat_r; assumption.
Qed.

Lemma enemy_spawn_chance64_near (w : World.t) :
  (Qabs (World.enemy_spawn_chance64 w - World.enemy_spawn_chance w)
   <= pow2 (-50))%Q.
Proof.
  destruct (progress_factor64_bounds w) as [P0 P1].
  destruct (progress_factor_bounds w) as [Q0 Q1].
  pose proof (progress_factor64_near w) as N.
  apply Qabs_Qle_condition in N. destruct N as [N1 N2].
  pose proof pow2_tiny as T. pose proof pow2_m53 as P53.
  assert (P50 : (pow2 (-50) == 1 # 1125899906842624)%Q) by reflexivity.
  assert (P51 : (pow2 (-51) == 1 # 2251799813685248)%Q) by reflexivity.
  unfold World.enemy_spawn_chance64, World.enemy_spawn_chance,
    fadd, fmul, ENEMY_BASE_SPAWN_CHANCE.
  cbv zeta.
  set (p := World.progress_factor64 w) in *.
  set (p0 := World.progress_factor w) in *.
  assert (Ea : (Qabs (b64 0.06 - 0.06) <= 1 * pow2 (-53) + pow2 (-1075))%Q)
    by (apply b64_near; vm_compute; discriminate).
  assert (Ec : (Qabs (b64 0.18 - 0.18) <= 1 * pow2 (-53) + pow2 (-1075))%Q)
    by (apply b64_near; vm_compute; discriminate).
  apply Qabs_Qle_condition in Ea. destruct Ea as [Ea1 Ea2].
  apply Qabs_Qle_condition in Ec. destruct Ec as [Ec1 Ec2].
  set (a := b64 0.06) in *. set (c := b64 0.18) in *.
  clearbody a c p p0.
  assert (Cr : ((c - 0.18) * p <= 1 * pow2 (-53) + pow2 (-1075) /\
                - (1 * pow2 (-53) + pow2 (-1075)) <= (c - 0.18) * p)%Q).
  { clear - P0 P1 Ec1 Ec2 T P53.
    generalize dependent (pow2 (-1075)). generalize dependent (pow2 (-53)).
    intros. split; nra. }
  destruct Cr as [Cr1 Cr2].
  assert (D : (p * c == 0.18 * p + (c - 0.18) * p)%Q) by ring.
  assert (Em : (Qabs (b64 (p * c) - p * c)
                <= 1 * pow2 (-53) + pow2 (-1075))%Q).
  { apply b64_near. apply Qabs_bound with (lo := 1%Q).
    - clear - D Cr1 Cr2 P0 P1 T P53.
      generalize dependent ((c - 0.18) * p)%Q.
      generalize dependent (p * c)%Q.
      generalize dependent (pow2 (-1075)). generalize dependent (pow2 (-53)).
      intros. lra.
    - clear - D Cr1 Cr2 P0 P1 T P53.
      generalize dependent ((c - 0.18) * p)%Q.
      generalize dependent (p * c)%Q.
      generalize dependent (pow2 (-1075)). generalize dependent (pow2 (-53)).
      intros. lra.
    - lra. }
  apply Qabs_Qle_condition in Em. destruct Em as [Em1 Em2].
  set (m := b64 (p * c)) in *. clearbody m.
  assert (Es : (Qabs (b64 (a + m) - (a + m))
                <= 1 * pow2 (-53) + pow2 (-1075))%Q).
  { apply b64_near. apply Qabs_bound with (lo := 1%Q).
    - clear - D Cr1 Cr2 P0 P1 T P53 Em1 Em2 Ea1 Ea2.
      generalize dependent ((c - 0.18) * p)%Q.
      generalize dependent (p * c)%Q.
      generalize dependent (pow2 (-1075)). generalize dependent (pow2 (-53)).
      intros. lra.
    - clear - D Cr1 Cr2 P0 P1 T P53 Em1 Em2 Ea1 Ea2.
      generalize dependent ((c - 0.18) * p)%Q.
      generalize dependent (p * c)%Q.
      generalize dependent (pow2 (-1075)). generalize dependent (pow2 (-53)).
      intros. lra.
    - lra. }
  apply Qabs_Qle_condition in Es. destruct Es as [Es1 Es2].
  apply Qabs_Qle_condition.
  assert (D2 : (p0 * 0.18 == 0.18 * p - 0.18 * (p - p0))%Q) by ring.
  generalize dependent (b64 (a + m)).
  generalize dependent ((c - 0.18) * p)%Q.
  generalize dependent (p * c)%Q. generalize dependent (p0 * 0.18)%Q.
  generalize dependent (pow2 (-1075)). generalize dependent (pow2 (-53)).
  generalize dependent (pow2 (-50)). generalize dependent (pow2 (-51)).
  intros. split; lra.
Qed.

(** X12.  An enemy is spawned exactly when the first draw is below the
    spawn chance as the code holds it: a double between the doubles 0.06
    and 0.24, within 2^-50 of the exact chance, equal to the double 0.06
    up to score 0 and to the double 0.24 from score 4000 on.  So no enemy
    is spawned on a draw of the double 0.24 or more, and one always is on
    a draw below the double 0.06; at score 4000 a draw equal to the double
    0.24 spawns none although it is below the exact chance 0.24.  A bonus
    is spawned exactly when the first draw is below the double 0.22.
    Either choice uses one draw of the world's generator when it returns
    nothing and two when it returns a kind, and leaves the spawn frontier
    and the score of the world alone. *)
Theorem spawn_presence (w : World.t) :
  let r := fst (Random.random (World.rng w)) in
  let c := World.enemy_spawn_chance64 w in
  let used (w' : World.t) :=
    (Random.pos (World.rng w') - Random.pos (World.rng w))%nat in
  (fst (World.choose_enemy w) = None <-> (c <= r)%Q) /\
  ((b64 0.06 <= c)%Q /\ (c <= b64 0.24)%Q /\
   (Qabs (c - World.enemy_spawn_chance w) <= pow2 (-50))%Q) /\
  (World.score w <= 0 -> (c == b64 0.06)%Q) /\
  (4000 <= World.score w -> (c == b64 0.24)%Q) /\
  ((b64 0.24 <= r)%Q -> fst (World.choose_enemy w) = None) /\
  ((0.24 <= r)%Q -> fst (World.choose_enemy w) = None) /\
  ((r < b64 0.06)%Q -> fst (World.choose_enemy w) <> None) /\
  (forall spawn_y : Z,
      let w4 := World.mk spawn_y
                         (Random.mk (fun _ => 2161727821137838%N) 0) 4000 in
      let r4 := fst (Random.random (World.rng w4)) in
      (r4 == b64 0.24)%Q /\ (r4 < World.enemy_spawn_chance w4)%Q /\
      fst (World.choose_enemy w4) = None) /\
  (fst (World.choose_bonus w) = None <-> (b64 BONUS_CHANCE_BASE <= r)%Q) /\
  used (snd (World.choose_enemy w))
  = match fst (World.choose_enemy w) with Some _ => 2 | None => 1 end%nat /\
  used (snd (World.choose_bonus w))
  = match fst (World.choose_bonus w) with Some _ => 2 | None => 1 end%nat /\
  World.spawn_y (snd (World.choose_enemy w)) = World.spawn_y w /\
  World.score (snd (World.choose_enemy w)) = World.score w /\
  World.spawn_y (snd (World.choose_bonus w)) = World.spawn_y w /\
  World.score (snd (World.choose_bonus w)) = World.score w.
Proof.
  cbv zeta.
  destruct (choose_enemy_world w) as [E1 E2].
  destruct (choose_bonus_world w) as [B1 B2].
  assert (He : forall v : World.t,
             fst (World.choose_enemy v) = None
             <-> (World.enemy_spawn_chance64 v
                  <= fst (Random.random (World.rng v)))%Q).
  { intros v. unfold World.choose_enemy.
    destruct (Random.random (World.rng v)) as [r g]. cbn [fst].
    destruct (Qlt_bool r (World.enemy_spawn_chance64 v)) eqn:E.
    - apply Qlt_bool_true in E. destruct (Random.random g) as [r' g'].
      cbn [fst]. split; [intros X; discriminate X|].
      generalize dependent (World.enemy_spawn_chance64 v). intros; lra.
    - apply Qlt_bool_false in E. cbn [fst].
      split; [intros _; exact E | reflexivity]. }
  assert (Hb : fst (World.choose_bonus w) = None
               <-> (b64 BONUS_CHANCE_BASE
                    <= fst (Random.random (World.rng w)))%Q).
  { unfold World.choose_bonus.
    destruct (Random.random (World.rng w)) as [r g]. cbn [fst].
    destruct (Qlt_bool r (b64 BONUS_CHANCE_BASE)) eqn:E.
    - apply Qlt_bool_true in E. destruct (Random.random g) as [r' g'].
      cbn [fst]. split; [intros X; discriminate X|].
      generalize dependent (b64 BONUS_CHANCE_BASE). intros; lra.
    - apply Qlt_bool_false in E. cbn [fst].
      split; [intros _; exact E | reflexivity]. }
  destruct (enemy_spawn_chance64_bounds w) as [C0 C1].
  destruct (enemy_spawn_chance64_ends w) as [L0 L1].
  assert (D24 : (b64 0.24 <= 0.24)%Q) by (vm_compute; discriminate).
  split; [exact (He w)|].
  split; [split; [exact C0|split; [exact C1|apply enemy_spawn_chance64_near]]|].
  split; [exact L0|]. split; [exact L1|].
  split; [intros H; apply He; eapply Qle_trans; [exact C1 | exact H]|].
  split; [intros H; apply He; eapply Qle_trans; [exact C1|];
          eapply Qle_trans; [exact D24 | exact H]|].
  split.
  { intros H N. apply He in N.
    assert (K : (b64 0.06 <= fst (Random.random (World.rng w)))%Q)
      by (eapply Qle_trans; [exact C0 | exact N]).
    generalize dependent (b64 0.06). intros. lra. }
  split.
  { intros sy.
    assert (R : (fst (Random.random
                        (World.rng
                           (World.mk sy
                              (Random.mk (fun _ => 2161727821137838%N) 0)
                              4000)))
                 == b64 0.24)%Q) by (vm_compute; reflexivity).
    split; [exact R|]. split; [vm_compute; reflexivity|].
    apply He. rewrite R.
    destruct (enemy_spawn_chance64_ends
                (World.mk sy (Random.mk (fun _ => 2161727821137838%N) 0)
                          4000)) as [_ K].
    rewrite K; [apply Qle_refl | cbn; lia]. }
  split; [exact Hb|].
  split.
  { unfold World.choose_enemy, Random.random, Random.next.
    cbn [fst snd]. break_if; cbn [fst snd World.rng World.set_rng Random.pos];
      lia. }
  split.
  { unfold World.choose_bonus, Random.random, Random.next.
    cbn [fst snd]. break_if; cbn [fst snd World.rng World.set_rng Random.pos];
      lia. }
  repeat split; assumption.
Qed.

(* ------------------------------------------------------------------------- *)
(** ** The quiz *)
(* ------------------------------------------------------------------------- *)

(** X13.  The selection cursor of the quiz is always one of the four
    options after a move, wraps from the first option up to the last and
    from the last down to the first, and a move up followed by a move down
    (or the reverse) returns to where it was.  A confirmation reports the
    answer as given, right exactly when the selection is the question's
    answer index, stores the matching feedback and opens a feedback window
    of 54 frames; no key changes the question, and other events change
    nothing. *)
Theorem quiz_cursor_and_confirm (q : QuizUI.t) :
  let up := fst (QuizUI.handle (KEYDOWN K_UP) q) in
  let down := fst (QuizUI.handle (KEYDOWN K_DOWN) q) in
  let ok := fst (QuizUI.handle (KEYDOWN K_RETURN) q) in
  let right := match QuizUI.cur q with
               | Some c => QuizUI.selected q =? ans c
               | None => false
               end in
  (0 <= QuizUI.selected up < 4 /\ 0 <= QuizUI.selected down < 4) /\
  (QuizUI.selected q = 0 -> QuizUI.selected up = 3) /\
  (QuizUI.selected q = 3 -> QuizUI.selected down = 0) /\
  (0 <= QuizUI.selected q < 4 ->
   QuizUI.selected (fst (QuizUI.handle (KEYDOWN K_DOWN) up))
   = QuizUI.selected q /\
   QuizUI.selected (fst (QuizUI.handle (KEYDOWN K_UP) down))
   = QuizUI.selected q) /\
  QuizUI.handle (KEYDOWN K_w) q = QuizUI.handle (KEYDOWN K_UP) q /\
  QuizUI.handle (KEYDOWN K_s) q = QuizUI.handle (KEYDOWN K_DOWN) q /\
  QuizUI.handle (KEYDOWN K_SPACE) q = QuizUI.handle (KEYDOWN K_RETURN) q /\
  snd (QuizUI.handle (KEYDOWN K_RETURN) q) = (true, right) /\
  QuizUI.has_feedback ok = true /\
  QuizUI.feedback_says_correct ok = right /\
  QuizUI.feedback_timer ok = 54 /\
  QuizUI.selected ok = QuizUI.selected q /\
  (forall ev : Event, QuizUI.cur (fst (QuizUI.handle ev q)) = QuizUI.cur q) /\
  (forall ev : Event,
      match ev with KEYDOWN _ => True | _ => QuizUI.handle ev q = (q, (false, false)) end).
Proof.
  cbv zeta. unfold QuizUI.handle.
  cbn [fst snd QuizUI.selected QuizUI.cur QuizUI.feedback
       QuizUI.feedback_timer].
  set (right := match QuizUI.cur q with
                | Some c => QuizUI.selected q =? ans c
                | None => false
                end).
  split.
  { split; apply Z.mod_pos_bound; lia. }
  split; [intros H; rewrite H; reflexivity|].
  split; [intros H; rewrite H; reflexivity|].
  split.
  { intros H.
    assert (C : QuizUI.selected q = 0 \/ QuizUI.selected q = 1 \/
                QuizUI.selected q = 2 \/ QuizUI.selected q = 3) by lia.
    destruct C as [C|[C|[C|C]]]; rewrite C; split; reflexivity. }
  do 3 (split; [reflexivity|]).
  split; [reflexivity|].
  split; [unfold QuizUI.has_feedback; cbn [QuizUI.feedback];
          destruct right; reflexivity|].
  split; [unfold QuizUI.feedback_says_correct; cbn [QuizUI.feedback];
          destruct right; reflexivity|].
  split; [vm_compute; reflexivity|]. split; [reflexivity|].
  split.
  - intros ev. destruct ev as [|k| | |]; try reflexivity.
    destruct k; reflexivity.
  - intros ev. destruct ev; try exact I; reflexivity.
Qed.

Lemma quiz_update_waits (sin : Q -> Q) (keys : Keys) (t : Z) (q : QuizUI.t)
      (g : Game.t) :
  Game.state g = STATE_QUIZ -> QuizUI.has_feedback q = true -> 2 <= t ->
  Game.update sin keys (Game.set_quiz (quiz_with_timer t q) g)
  = Game.set_quiz (quiz_with_timer (t - 1) q) g.
Proof.
  intros Hs Hf Ht. unfold Game.update. cbn [Game.state Game.set_quiz].
  rewrite Hs. unfold QuizUI.update, quiz_with_timer.
  cbn [QuizUI.feedback_timer QuizUI.selected QuizUI.cur QuizUI.feedback
       Game.quiz Game.set_quiz].
  assert (E1 : (t >? 0) = true) by (rewrite Z.gtb_ltb; apply Z.ltb_lt; lia).
  rewrite E1. cbn [QuizUI.feedback_timer].
  assert (E2 : (t - 1 =? 0) = false) by (apply Z.eqb_neq; lia).
  rewrite E2, andb_false_r. reflexivity.
Qed.

Lemma quiz_update_resolves (sin : Q -> Q) (keys : Keys) (q : QuizUI.t)
      (g : Game.t) :
  Game.state g = STATE_QUIZ -> QuizUI.has_feedback q = true ->
  Game.update sin keys (Game.set_quiz (quiz_with_timer 1 q) g)
  = Game.resolve_quiz_result (QuizUI.feedback_says_correct q)
                             (Game.set_quiz (quiz_with_timer 0 q) g).
Proof.
  intros Hs Hf. unfold Game.update. cbn [Game.state Game.set_quiz].
  rewrite Hs. unfold QuizUI.update, quiz_with_timer.
  cbn [QuizUI.feedback_timer QuizUI.selected QuizUI.cur QuizUI.feedback
       Game.quiz Game.set_quiz].
  cbn [Z.gtb Z.compare Z.sub Z.add Z.opp Z.pos_sub Z.eqb].
  unfold QuizUI.has_feedback, QuizUI.feedback_says_correct in *.
  cbn [QuizUI.feedback] in *. rewrite Hf. reflexivity.
Qed.

Lemma quiz_with_own_timer (g : Game.t) :
  Game.set_quiz
    (quiz_with_timer (QuizUI.feedback_timer (Game.quiz g)) (Game.quiz g)) g
  = g.
Proof. destruct g as [s [sel c f t] w ps es bs pl hs sc a tx r en ws ni]. reflexivity. Qed.

Lemma quiz_waits (sin : Q -> Q) (keys : Keys) (n : nat) (g : Game.t) :
  Game.state g = STATE_QUIZ ->
  QuizUI.has_feedback (Game.quiz g) = true ->
  QuizUI.feedback_timer (Game.quiz g) = Z.of_nat (S n) ->
  forall k : nat,
    (k <= n)%nat ->
    Nat.iter k (Game.update sin keys) g
    = Game.set_quiz
        (quiz_with_timer (Z.of_nat (S n) - Z.of_nat k) (Game.quiz g)) g.
Proof.
  intros Hs Hf Ht k. induction k as [|k IH]; intros Hk.
  - change (Nat.iter 0 (Game.update sin keys) g) with g.
    change (Z.of_nat 0) with 0. rewrite Z.sub_0_r, <- Ht. symmetry.
    apply quiz_with_own_timer.
  - change (Nat.iter (S k) (Game.update sin keys) g)
      with (Game.update sin keys (Nat.iter k (Game.update sin keys) g)).
    rewrite IH by lia.
    rewrite quiz_update_waits by (try assumption; lia).
    f_equal. f_equal. lia.
Qed.

(** X14.  After a confirmation the quiz stays open for the feedback
    window: with the timer at n + 1, the first n updates only count the
    timer down to 1 and change nothing else of the game, and the update
    after them resolves the quiz with the answer the feedback records.  A
    confirmation sets the timer to 54 frames, so the resolution is the
    54th update after it. *)
Theorem feedback_window (sin : Q -> Q) (keys : Keys) (n : nat) (g : Game.t) :
  Game.state g = STATE_QUIZ ->
  QuizUI.has_feedback (Game.quiz g) = true ->
  QuizUI.feedback_timer (Game.quiz g) = Z.of_nat (S n) ->
  Nat.iter n (Game.update sin keys) g
  = Game.set_quiz (quiz_with_timer 1 (Game.quiz g)) g /\
  Nat.iter (S n) (Game.update sin keys) g
  = Game.resolve_quiz_result
      (QuizUI.feedback_says_correct (Game.quiz g))
      (Game.set_quiz (quiz_with_timer 0 (Game.quiz g)) g).
Proof.
  intros Hs Hf Ht.
  assert (E : Nat.iter n (Game.update sin keys) g
              = Game.set_quiz (quiz_with_timer 1 (Game.quiz g)) g).
  { rewrite (quiz_waits sin keys n g Hs Hf Ht n) by lia.
    f_equal. f_equal. lia. }
  split; [exact E|].
  change (Nat.iter (S n) (Game.update sin keys) g)
    with (Game.update sin keys (Nat.iter n (Game.update sin keys) g)).
  rewrite E. apply quiz_update_resolves; assumption.
Qed.

Lemma feedback_window_witness :
  let g := Game.set_quiz (QuizUI.mk 1 (Some (mkQuestion 2)) FB_WRONG 54)
                         (Game.set_state STATE_QUIZ Sample.fresh) in
  Game.state g = STATE_QUIZ /\
  QuizUI.has_feedback (Game.quiz g) = true /\
  QuizUI.feedback_timer (Game.quiz g) = Z.of_nat 54 /\
  Nat.iter 53 (Game.update Sample.flat_sin Sample.no_keys) g
  = Game.set_quiz (quiz_with_timer 1 (Game.quiz g)) g.
Proof.
  cbv zeta. split; [reflexivity|]. split; [reflexivity|].
  split; [reflexivity|].
  exact (proj1 (feedback_window
                  Sample.flat_sin Sample.no_keys 53
                  (Game.set_quiz (QuizUI.mk 1 (Some (mkQuestion 2)) FB_WRONG 54)
                                 (Game.set_state STATE_QUIZ Sample.fresh))
                  eq_refl eq_refl eq_refl)).
Defined.

(** X15.  Outside the play state an update leaves the run frozen: in the
    menu, the pause and the game-over state it changes nothing at all.  In
    the quiz state, until the resolution (no feedback yet, or a feedback
    timer that is not 0 or 1), the game after the update is the game
    before it with the quiz timer one lower if it was positive: cursor,
    question, feedback, player, scores and everything else are the same.
    With feedback and the timer at 0 or 1 the update is the resolution of
    the quiz with the timer at 0.  In no case does an update of the quiz
    state change the platforms, enemies, bonuses, the world, the ascended
    distance, the random source or the touch. *)
Theorem update_is_frozen_outside_play (sin : Q -> Q) (keys : Keys)
        (g : Game.t) :
  let g' := Game.update sin keys g in
  let t := QuizUI.feedback_timer (Game.quiz g) in
  (Game.state g = STATE_MENU \/ Game.state g = STATE_PAUSE \/
   Game.state g = STATE_GAMEOVER -> g' = g) /\
  (Game.state g = STATE_QUIZ ->
   (QuizUI.has_feedback (Game.quiz g) = false \/ 2 <= t \/ t < 0 ->
    g' = Game.set_quiz
           (quiz_with_timer (if t >? 0 then t - 1 else t) (Game.quiz g)) g) /\
   (QuizUI.has_feedback (Game.quiz g) = true -> 0 <= t <= 1 ->
    g' = Game.resolve_quiz_result
           (QuizUI.feedback_says_correct (Game.quiz g))
           (Game.set_quiz (quiz_with_timer 0 (Game.quiz g)) g)) /\
   Game.platforms g' = Game.platforms g /\
   Game.enemies g' = Game.enemies g /\
   Game.bonuses g' = Game.bonuses g /\
   Game.world g' = Game.world g /\
   Game.ascended_px g' = Game.ascended_px g /\
   Game.random g' = Game.random g /\
   Game.touch_x g' = Game.touch_x g).
Proof.
  cbv zeta. unfold Game.update. split.
  - intros [H|[H|H]]; rewrite H; reflexivity.
  - intros H. rewrite H.
    assert (K : forall c h,
               Game.platforms (Game.resolve_quiz_result c h) = Game.platforms h /\
               Game.enemies (Game.resolve_quiz_result c h) = Game.enemies h /\
               Game.bonuses (Game.resolve_quiz_result c h) = Game.bonuses h /\
               Game.world (Game.resolve_quiz_result c h) = Game.world h /\
               Game.ascended_px (Game.resolve_quiz_result c h)
               = Game.ascended_px h /\
               Game.random (Game.resolve_quiz_result c h) = Game.random h /\
               Game.touch_x (Game.resolve_quiz_result c h) = Game.touch_x h).
    { intros c h. unfold Game.resolve_quiz_result, Game.game_over.
      destruct c; [repeat split; reflexivity|].
      break_if; repeat split; reflexivity. }
    assert (U : QuizUI.update (Game.quiz g)
                = quiz_with_timer
                    (if QuizUI.feedback_timer (Game.quiz g) >? 0
                     then QuizUI.feedback_timer (Game.quiz g) - 1
                     else QuizUI.feedback_timer (Game.quiz g))
                    (Game.quiz g)).
    { unfold QuizUI.update, quiz_with_timer.
      destruct (QuizUI.feedback_timer (Game.quiz g) >? 0); [reflexivity|].
      destruct (Game.quiz g). reflexivity. }
    cbn [Game.quiz Game.set_quiz]. rewrite U.
    set (t := QuizUI.feedback_timer (Game.quiz g)) in *.
    assert (F : QuizUI.has_feedback
                  (quiz_with_timer (if t >? 0 then t - 1 else t) (Game.quiz g))
                = QuizUI.has_feedback (Game.quiz g)) by reflexivity.
    assert (C : QuizUI.feedback_says_correct
                  (quiz_with_timer (if t >? 0 then t - 1 else t) (Game.quiz g))
                = QuizUI.feedback_says_correct (Game.quiz g)) by reflexivity.
    assert (T : QuizUI.feedback_timer
                  (quiz_with_timer (if t >? 0 then t - 1 else t) (Game.quiz g))
                = if t >? 0 then t - 1 else t) by reflexivity.
    rewrite F, C, T.
    assert (T0 : ((if t >? 0 then t - 1 else t) =? 0) = true <-> 0 <= t <= 1).
    { rewrite Z.eqb_eq. destruct (t >? 0) eqn:G; rewrite Z.gtb_ltb in G;
        [apply Z.ltb_lt in G | apply Z.ltb_ge in G]; lia. }
    split; [|split].
    + intros Hw.
      assert (E : QuizUI.has_feedback (Game.quiz g)
                  && ((if t >? 0 then t - 1 else t) =? 0) = false).
      { destruct Hw as [Hw|Hw]; [rewrite Hw; reflexivity|].
        apply andb_false_iff. right. apply Z.eqb_neq.
        destruct (t >? 0) eqn:G; rewrite Z.gtb_ltb in G;
          [apply Z.ltb_lt in G | apply Z.ltb_ge in G]; lia. }
      rewrite E. reflexivity.
    + intros Hf Ht. rewrite Hf. rewrite (proj2 T0 Ht). cbn [andb].
      assert (Et : (if t >? 0 then t - 1 else t) = 0)
        by (apply Z.eqb_eq, T0; exact Ht).
      rewrite Et. reflexivity.
    + destruct (QuizUI.has_feedback (Game.quiz g)
                && ((if t >? 0 then t - 1 else t) =? 0)).
      * match goal with
        | |- context [Game.resolve_quiz_result ?c ?h] =>
            destruct (K c h) as (K1 & K2 & K3 & K4 & K5 & K6 & K7)
        end.
        repeat split; assumption.
      * repeat split; reflexivity.
Qed.

(* ------------------------------------------------------------------------- *)
(** ** Run reset and events *)
(* ------------------------------------------------------------------------- *)

Lemma clampZ_bounds (v lo hi : Z) : lo <= hi -> lo <= clampZ v lo hi <= hi.
Proof. unfold clampZ. lia. Qed.

Lemma add_platform_all (P : Platform.t -> Prop) (x y : Z) (k : PlatformKind)
      (g : Game.t) :
  (forall id r, P (Platform.set_start_x x (Platform.init id r x y k))) ->
  Forall P (Game.platforms g) ->
  Forall P (Game.platforms (snd (Game.add_platform x y k g))).
Proof.
  intros HP H. unfold Game.add_platform. break_pair.
  cbn [snd Game.platforms]. apply Forall_app. split; [exact H|].
  constructor; [apply HP | constructor].
Qed.

Lemma initial_platform_all (P : Platform.t -> Prop) (base_y i : Z)
      (st : Z * Game.t) :
  (forall id r x y k,
      within_margins x ->
      P (Platform.set_start_x x (Platform.init id r x y k))) ->
  Forall P (Game.platforms (snd st)) ->
  Forall P (Game.platforms (snd (Game.initial_platform base_y i st))).
Proof.
  destruct st as [prev_x g]. intros HP H. unfold Game.initial_platform.
  destruct (Random.randint (-90) 90 (Game.random g)) as [d rnd].
  match goal with
  | |- context [Game.add_platform ?x ?y ?k ?h] =>
      pose proof (add_platform_all P x y k h) as E;
      destruct (Game.add_platform x y k h) as [p g1]
  end.
  cbn [snd Game.platforms Game.set_world Game.set_random] in *.
  apply E; [|exact H]. intros id r. apply HP.
  apply clampZ_bounds. vm_compute. discriminate.
Qed.

Lemma ladder_all (P : Platform.t -> Prop) (base_y : Z) (l : list Z) :
  (forall id r x y k,
      within_margins x ->
      P (Platform.set_start_x x (Platform.init id r x y k))) ->
  forall st : Z * Game.t,
    Forall P (Game.platforms (snd st)) ->
    Forall P (Game.platforms
                (snd (fold_left
                        (fun st i => Game.initial_platform base_y i st)
                        l st))).
Proof.
  intros HP. induction l as [|i l IH]; intros st H; cbn [fold_left].
  - exact H.
  - apply IH. apply initial_platform_all; assumption.
Qed.

Lemma init_run_all (P : Platform.t -> Prop) (g : Game.t) :
  (forall id r x y k,
      within_margins x ->
      P (Platform.set_start_x x (Platform.init id r x y k))) ->
  Forall P (Game.platforms (Game.init_run g)).
Proof.
  intros HP. unfold Game.init_run.
  match goal with
  | |- context [fold_left ?f ?l ?st] =>
      pose proof (ladder_all P (HEIGHT - 80) l HP st) as H;
      destruct (fold_left f l st) as [x g1]
  end.
  cbn [snd] in H. apply add_platform_all.
  - intros id r. apply HP. vm_compute. split; discriminate.
  - apply H. constructor.
Qed.

(** X16.  A run reset keeps the state, the quiz and the high score, zeroes
    the score and the ascended distance, forgets the touch, empties the
    enemies and bonuses and puts a new player with 2 lives and full
    energy at the start position.  It lays eleven platforms with fresh
    consecutive identifiers: a ladder of ten, 70 px apart from y = 640 up
    to y = 10, the first solar and the others normal, and a normal
    platform 60 px under the player's feet; all are active, at full fade,
    104 by 16 px, within the horizontal margins, and anchored at their own
    x.  The spawn frontier is left at the top of the ladder. *)
Theorem init_run_lays_the_ladder (g : Game.t) :
  let g' := Game.init_run g in
  let ps := Game.platforms g' in
  (Game.state g' = Game.state g /\ Game.quiz g' = Game.quiz g /\
   Game.high_score g' = Game.high_score g) /\
  (Game.score g' = 0 /\ Game.ascended_px g' = 0 /\ Game.touch_x g' = None /\
   Game.enemies g' = [] /\ Game.bonuses g' = []) /\
  (Game.player g' = Player.init 230 580 2 /\
   Player.lives (Game.player g') = 2 /\
   Player.energy (Game.player g') = INITIAL_ENERGY /\
   Rect.bottom (Player.rect (Game.player g')) = 605) /\
  map Platform.kind ps = P_SOLAR :: repeat P_NORMAL 10 /\
  map (fun p => Rect.y (Platform.rect p)) ps
  = [640; 570; 500; 430; 360; 290; 220; 150; 80; 10; 665] /\
  map Platform.ident ps = seq (Game.next_id g) 11 /\
  Game.next_id g' = (Game.next_id g + 11)%nat /\
  map Platform.active ps = repeat true 11 /\
  map Platform.fade ps = repeat 1.0%Q 11 /\
  map (fun p => (Rect.w (Platform.rect p), Rect.h (Platform.rect p))) ps
  = repeat (PLATFORM_W, PLATFORM_H) 11 /\
  Forall (fun p => Platform.start_x p = Rect.x (Platform.rect p) /\
                  within_margins (Rect.x (Platform.rect p))) ps /\
  nth_error (map (fun p => Rect.x (Platform.rect p)) ps) 10 = Some 178 /\
  World.spawn_y (Game.world g') = 10 /\
  World.score (Game.world g') = 0.
Proof.
  cbv zeta.
  split; [repeat split; reflexivity|].
  split; [repeat split; reflexivity|].
  split; [repeat split; reflexivity|].
  do 3 (split; [reflexivity|]).
  split; [rewrite Nat.add_comm; reflexivity|].
  do 3 (split; [reflexivity|]).
  split.
  { apply init_run_all. intros id r x y k Hx. split; [reflexivity | exact Hx]. }
  split; [reflexivity|].
  split; reflexivity.
Qed.

(* ------------------------------------------------------------------------- *)
(** ** Events *)
(* ------------------------------------------------------------------------- *)

Lemma set_touch_x_same (g : Game.t) : Game.set_touch_x (Game.touch_x g) g = g.
Proof. destruct g. reflexivity. Qed.

Lemma resume_after_pause (g : Game.t) :
  Game.state g = STATE_PLAY ->
  Game.set_state STATE_PLAY (Game.set_state STATE_PAUSE g) = g.
Proof. destruct g. cbn. intros ->. reflexivity. Qed.

(** X17.  During play only Escape pauses: every other event but the
    window's close request leaves the game as it is up to the stored
    pointer position (the P key, which resumes a paused game, does not
    pause a running one).  Pausing with Escape and resuming with Escape, P
    or Space gives back exactly the game that was paused; resuming with a
    tap gives it back with the tap stored. *)
Theorem pause_and_resume (g : Game.t) :
  Game.state g = STATE_PLAY ->
  Game.handle_event (KEYDOWN K_ESCAPE) g
  = Some (Game.set_state STATE_PAUSE g) /\
  (forall ev : Event,
      ev <> QUIT -> ev <> KEYDOWN K_ESCAPE ->
      exists g' : Game.t,
        Game.handle_event ev g = Some g' /\
        Game.set_touch_x (Game.touch_x g) g' = g) /\
  (forall k : Key,
      In k [K_ESCAPE; K_p; K_SPACE] ->
      Game.handle_events_from [KEYDOWN K_ESCAPE; KEYDOWN k] g = Some g) /\
  (forall x : Z,
      Game.handle_events_from [KEYDOWN K_ESCAPE; MOUSEBUTTONDOWN x] g
      = Some (Game.set_touch_x (Some x) g)).
Proof.
  intros Hs.
  assert (E : Game.handle_event (KEYDOWN K_ESCAPE) g
              = Some (Game.set_state STATE_PAUSE g)).
  { unfold Game.handle_event. rewrite Hs. reflexivity. }
  split; [exact E|]. split; [|split].
  - intros ev Hq He.
    destruct ev as [|k|x|x b|]; try congruence.
    + exists g. split; [|apply set_touch_x_same].
      unfold Game.handle_event. rewrite Hs.
      destruct k; try reflexivity. congruence.
    + exists (Game.set_touch_x (Some x) g). split.
      * unfold Game.handle_event.
        change (Game.state (Game.set_touch_x (Some x) g)) with (Game.state g).
        rewrite Hs. reflexivity.
      * destruct g. reflexivity.
    + destruct b.
      * exists (Game.set_touch_x (Some x) g). split.
        -- unfold Game.handle_event.
           change (Game.state (Game.set_touch_x (Some x) g))
             with (Game.state g).
           rewrite Hs. reflexivity.
        -- destruct g. reflexivity.
      * exists g. split; [|apply set_touch_x_same].
        unfold Game.handle_event. rewrite Hs. reflexivity.
    + exists g. split; [|apply set_touch_x_same].
      unfold Game.handle_event. rewrite Hs. reflexivity.
  - intros k Hk. cbn [Game.handle_events_from]. rewrite E.
    rewrite <- (resume_after_pause g Hs) at 2.
    cbn [In] in Hk.
    destruct Hk as [<-|[<-|[<-|[]]]]; reflexivity.
  - intros x. cbn [Game.handle_events_from]. rewrite E.
    rewrite <- (resume_after_pause g Hs) at 2. reflexivity.
Qed.

Lemma pause_and_resume_witness :
  Game.state Sample.fresh = STATE_PLAY /\
  Game.handle_event (KEYDOWN K_ESCAPE) Sample.fresh
  = Some (Game.set_state STATE_PAUSE Sample.fresh).
Proof.
  split; [reflexivity|].
  exact (proj1 (pause_and_resume Sample.fresh eq_refl)).
Defined.

Lemma init_run_resets (g : Game.t) :
  let g' := Game.init_run g in
  Game.state g' = Game.state g /\ Game.high_score g' = Game.high_score g /\
  Game.score g' = 0 /\ Game.ascended_px g' = 0 /\ Game.touch_x g' = None /\
  Player.lives (Game.player g') = 2 /\
  Player.energy (Game.player g') = INITIAL_ENERGY /\
  Game.enemies g' = [] /\ Game.bonuses g' = [] /\
  length (Game.platforms g') = 11%nat.
Proof. cbv zeta. do 9 (split; [reflexivity|]). reflexivity. Qed.

Lemma menu_starts_the_play (g : Game.t) (ev : Event) :
  Game.state g = STATE_MENU ->
  In ev [KEYDOWN K_RETURN; KEYDOWN K_SPACE] ->
  Game.handle_event ev g = Some (Game.set_state STATE_PLAY g).
Proof.
  intros Hs Hev. cbn [In] in Hev.
  destruct Hev as [<-|[<-|[]]]; unfold Game.handle_event; rewrite Hs;
    reflexivity.
Qed.

(** X18.  After a game over, Return or Space does not start the next run
    at once: it resets the run and shows the menu, with the high score
    kept, the score at zero, two lives, full energy, eleven platforms and
    no enemies or bonuses; the same key once more starts the play.  The Q
    key does the same to a paused game, and a tap does it after a game
    over. *)
Theorem restart_goes_through_the_menu (g : Game.t) (ev : Event) :
  In ev [KEYDOWN K_RETURN; KEYDOWN K_SPACE] ->
  let g1 := Game.init_run (Game.set_state STATE_MENU g) in
  (Game.state g = STATE_GAMEOVER -> Game.handle_event ev g = Some g1) /\
  (Game.state g = STATE_PAUSE ->
   Game.handle_event (KEYDOWN K_q) g = Some g1) /\
  (Game.state g = STATE_GAMEOVER ->
   forall x : Z,
     Game.handle_event (MOUSEBUTTONDOWN x) g
     = Some (Game.init_run
               (Game.set_state STATE_MENU (Game.set_touch_x (Some x) g)))) /\
  (Game.state g1 = STATE_MENU /\ Game.high_score g1 = Game.high_score g /\
   Game.score g1 = 0 /\ Game.ascended_px g1 = 0 /\ Game.touch_x g1 = None /\
   Player.lives (Game.player g1) = 2 /\
   Player.energy (Game.player g1) = INITIAL_ENERGY /\
   Game.enemies g1 = [] /\ Game.bonuses g1 = [] /\
   length (Game.platforms g1) = 11%nat) /\
  Game.handle_event ev g1 = Some (Game.set_state STATE_PLAY g1).
Proof.
  intros Hev g1. split; [|split; [|split; [|split]]].
  - intros Hs. cbn [In] in Hev.
    destruct Hev as [<-|[<-|[]]]; unfold Game.handle_event; rewrite Hs;
      reflexivity.
  - intros Hs. unfold Game.handle_event. rewrite Hs. reflexivity.
  - intros Hs x. unfold Game.handle_event.
    change (Game.state (Game.set_touch_x (Some x) g)) with (Game.state g).
    rewrite Hs. reflexivity.
  - exact (init_run_resets (Game.set_state STATE_MENU g)).
  - apply menu_starts_the_play; [|exact Hev].
    exact (proj1 (init_run_resets (Game.set_state STATE_MENU g))).
Qed.

Lemma restart_goes_through_the_menu_witness :
  In (KEYDOWN K_RETURN) [KEYDOWN K_RETURN; KEYDOWN K_SPACE] /\
  Game.state (Game.init_run (Game.set_state STATE_MENU Sample.fresh))
  = STATE_MENU.
Proof.
  split; [left; reflexivity|].
  exact (proj1 (proj1 (proj2 (proj2 (proj2
    (restart_goes_through_the_menu Sample.fresh (KEYDOWN K_RETURN)
       (or_introl eq_refl))))))).
Defined.

(* ------------------------------------------------------------------------- *)
(** ** Spawning *)
(* ------------------------------------------------------------------------- *)

Lemma group_kept_trans (g1 g2 g3 : Game.t) :
  group_kept g1 g2 -> group_kept g2 g3 -> group_kept g1 g3.
Proof. intros [A1 A2] [B1 B2]. split; congruence. Qed.

Lemma group_kept_set_random (r : Random.t) (g : Game.t) :
  group_kept g (Game.set_random r g).
Proof. split; reflexivity. Qed.

Lemma group_kept_set_world (w : World.t) (g : Game.t) :
  group_kept g (Game.set_world w g).
Proof. split; reflexivity. Qed.

Lemma group_kept_add_bonus (x y : Z) (k : BonusKind) (g : Game.t) :
  group_kept g (Game.add_bonus x y k g).
Proof. unfold Game.add_bonus. break_pair. split; reflexivity. Qed.

Lemma group_kept_add_enemy (x y : Z) (k : EnemyKind) (g : Game.t) :
  group_kept g (Game.add_enemy x y k g).
Proof. unfold Game.add_enemy. break_pair. split; reflexivity. Qed.

Ltac then_group tac :=
  eapply group_kept_trans; [|tac].

Lemma add_platform_spec (x y : Z) (k : PlatformKind) (g : Game.t) :
  let p := fst (Game.add_platform x y k g) in
  let g' := snd (Game.add_platform x y k g) in
  Game.platforms g' = Game.platforms g ++ [p] /\
  Game.next_id g' = S (Game.next_id g) /\
  Platform.ident p = Game.next_id g /\
  Platform.kind p = k /\
  Platform.rect p = Rect.of_topleft PLATFORM_W PLATFORM_H x y /\
  Platform.start_x p = x /\
  Platform.active p = true /\ Platform.fade p = 1.0%Q.
Proof. unfold Game.add_platform. break_pair. repeat split; reflexivity. Qed.

Lemma spawn_one_platform (sf : Q) (g : Game.t) :
  let g' := Game.spawn_one sf g in
  exists p : Platform.t,
    Game.platforms g' = Game.platforms g ++ [p] /\
    Game.next_id g' = S (Game.next_id g) /\
    Platform.ident p = Game.next_id g /\
    Rect.top (Platform.rect p) = World.spawn_y (Game.world g') /\
    within_margins (Rect.x (Platform.rect p)) /\
    Platform.start_x p = Rect.x (Platform.rect p) /\
    Platform.active p = true /\ Platform.fade p = 1.0%Q.
Proof.
  cbv zeta.
  destruct (spawn_one_frontier_kept sf g) as [_ Hy]. rewrite Hy. clear Hy.
  unfold Game.spawn_one.
  destruct (Random.randint _ _ (Game.random g)) as [gap rnd1]. cbn [fst].
  match goal with
  | |- context [World.choose_platform_type ?w] =>
      pose proof (choose_platform_type_world w) as Hw2;
      destruct (World.choose_platform_type w) as [k w2]
  end.
  cbn [snd] in Hw2.
  destruct (Random.randint _ _ rnd1) as [x0 rnd2].
  match goal with
  | |- context [Game.add_platform ?x ?y ?k ?h] =>
      pose proof (add_platform_spec x y k h) as Hp;
      assert (Hx : within_margins x)
        by (apply clampZ_bounds; vm_compute; discriminate);
      destruct (Game.add_platform x y k h) as [p g1]
  end.
  cbv zeta in Hp. cbn [fst snd] in Hp.
  destruct Hp as (P1 & P2 & P3 & P4 & P5 & P6 & P7 & P8).
  cbn [Game.platforms Game.next_id Game.set_random Game.set_world] in P1, P2, P3.
  exists p.
  match goal with
  | |- context [World.choose_enemy (Game.world ?h)] =>
      assert (H2 : group_kept g1 h)
  end.
  { destruct k; try (split; reflexivity);
      (break_pair; break_if;
       [then_group ltac:(apply group_kept_add_bonus)|];
       apply group_kept_set_random). }
  match goal with
  | |- context [World.choose_enemy ?w] =>
      destruct (World.choose_enemy w) as [ek w3]
  end.
  match goal with
  | |- context [World.choose_bonus (Game.world ?h)] =>
      assert (H3 : group_kept g1 h)
  end.
  { destruct ek.
    - break_pair.
      then_group ltac:(apply group_kept_add_enemy).
      then_group ltac:(apply group_kept_set_random).
      then_group ltac:(apply group_kept_set_world). exact H2.
    - then_group ltac:(apply group_kept_set_world). exact H2. }
  match goal with
  | |- context [World.choose_bonus ?w] =>
      destruct (World.choose_bonus w) as [bk w4]
  end.
  match goal with
  | |- context [Game.platforms ?h] =>
      assert (H4 : group_kept g1 h)
  end.
  { destruct bk.
    - do 2 break_pair.
      then_group ltac:(apply group_kept_add_bonus).
      then_group ltac:(apply group_kept_set_random).
      then_group ltac:(apply group_kept_set_world). exact H3.
    - then_group ltac:(apply group_kept_set_world). exact H3. }
  destruct H4 as [A B]. rewrite A, B, P1, P2, P3, P5, P6, P7, P8.
  cbn [Game.world Game.set_world World.spawn_y World.set_spawn_y].
  repeat split; try reflexivity; try apply Hx.
  apply Hw2.
Qed.
Lemma spawn_gap_upper (sf : Q) :
  (1 <= sf)%Q -> (sf <= 1.5)%Q ->
  py_int (inject_Z SPAWN_MAX_GAP / sf)%Q <= 170.
Proof.
  intros H1 H2.
  assert (Hpos : (0 < sf)%Q) by lra.
  assert (Hmax : (inject_Z SPAWN_MAX_GAP / sf <= 170)%Q).
  { apply Qle_shift_div_r; [exact Hpos|].
    change (inject_Z SPAWN_MAX_GAP) with 170%Q. nra. }
  assert (Hnn : (0 <= inject_Z SPAWN_MAX_GAP / sf)%Q).
  { apply Qle_shift_div_l; [exact Hpos|].
    change (inject_Z SPAWN_MAX_GAP) with 170%Q. lra. }
  rewrite py_int_floor by exact Hnn.
  change 170 with (Qfloor 170). now apply Qfloor_resp_le.
Qed.

Lemma spawn_one_drop (sf : Q) (g : Game.t) :
  (1 <= sf)%Q -> (sf <= 1.5)%Q ->
  World.spawn_y (Game.world g) - 170
  <= World.spawn_y (Game.world (Game.spawn_one sf g))
  <= World.spawn_y (Game.world g) - 60.
Proof.
  intros H1 H2.
  destruct (spawn_one_frontier_kept sf g) as [_ E]. rewrite E.
  cbn [Game.world Game.set_world World.spawn_y World.set_spawn_y].
  destruct (spawn_gap_bounds sf H1 H2) as [A B].
  pose proof (spawn_gap_upper sf H1 H2) as C.
  pose proof (randint_range _ _ (Game.random g) B). lia.
Qed.

(** X19.  One round of the spawn loop lowers the frontier by a gap of 60 to
    170 px and appends exactly one platform, with the next fresh
    identifier, its top on the new frontier, within the horizontal margins,
    anchored at its own x, active and at full fade; the platforms already
    there, the player, the state, the score and the lives are as before. *)
Theorem spawn_round (sf : Q) (g : Game.t) :
  (1 <= sf)%Q -> (sf <= 1.5)%Q ->
  let g' := Game.spawn_one sf g in
  World.spawn_y (Game.world g) - 170 <= World.spawn_y (Game.world g')
  <= World.spawn_y (Game.world g) - 60 /\
  (exists p : Platform.t,
      Game.platforms g' = Game.platforms g ++ [p] /\
      Game.next_id g' = S (Game.next_id g) /\
      Platform.ident p = Game.next_id g /\
      Rect.top (Platform.rect p) = World.spawn_y (Game.world g') /\
      within_margins (Rect.x (Platform.rect p)) /\
      Platform.start_x p = Rect.x (Platform.rect p) /\
      Platform.active p = true /\ Platform.fade p = 1.0%Q) /\
  Game.player g' = Game.player g /\ Game.state g' = Game.state g /\
  Game.score g' = Game.score g /\ Game.high_score g' = Game.high_score g /\
  Game.ascended_px g' = Game.ascended_px g.
Proof.
  intros H1 H2 g'.
  split; [exact (spawn_one_drop sf g H1 H2)|].
  split; [exact (spawn_one_platform sf g)|].
  destruct (spawn_one_kept sf g) as (F & T & P & _).
  apply flow_eq in F. apply totals_eq in T.
  destruct F as (F1 & _). destruct T as (T1 & T2 & T3).
  repeat split; assumption.
Qed.

Lemma spawn_round_witness :
  World.spawn_y (Game.world Sample.fresh) - 170
  <= World.spawn_y (Game.world (Game.spawn_one 1 Sample.fresh))
  <= World.spawn_y (Game.world Sample.fresh) - 60.
Proof.
  apply (spawn_round 1 Sample.fresh); vm_compute; discriminate.
Defined.

Lemma spawn_loop_descends (fuel : nat) (sf : Q) :
  (1 <= sf)%Q -> (sf <= 1.5)%Q ->
  forall g : Game.t,
    World.spawn_y (Game.world (Game.spawn_loop fuel sf g))
    <= World.spawn_y (Game.world g) /\
    (- HEIGHT - 170 < World.spawn_y (Game.world g) ->
     - HEIGHT - 170 < World.spawn_y (Game.world (Game.spawn_loop fuel sf g))).
Proof.
  intros H1 H2.
  induction fuel as [|n IH]; intros g; cbn [Game.spawn_loop].
  - split; [lia | intros H; exact H].
  - destruct (World.spawn_y (Game.world g) >? - HEIGHT) eqn:E.
    + rewrite Z.gtb_ltb in E. apply Z.ltb_lt in E.
      pose proof (spawn_one_drop sf g H1 H2) as D.
      destruct (IH (Game.spawn_one sf g)) as [A B].
      split; [lia | intros _; apply B; lia].
    + split; [lia | intros H; exact H].
Qed.

Lemma spawn_loop_platforms (fuel : nat) (sf : Q) :
  (1 <= sf)%Q -> (sf <= 1.5)%Q ->
  forall g : Game.t,
    let g' := Game.spawn_loop fuel sf g in
    exists new : list Platform.t,
      Game.platforms g' = Game.platforms g ++ new /\
      map Platform.ident new = seq (Game.next_id g) (length new) /\
      Forall (fun p =>
                within_margins (Rect.x (Platform.rect p)) /\
                Platform.active p = true /\
                World.spawn_y (Game.world g') <= Rect.top (Platform.rect p)
                <= World.spawn_y (Game.world g) - 60) new.
Proof.
  intros H1 H2.
  induction fuel as [|n IH]; intros g; cbn [Game.spawn_loop]; cbv zeta.
  - exists []. rewrite app_nil_r. repeat split; constructor.
  - destruct (World.spawn_y (Game.world g) >? - HEIGHT) eqn:E.
    + destruct (spawn_one_platform sf g)
        as (p & P1 & P2 & P3 & P4 & P5 & _ & P7 & _).
      pose proof (spawn_one_drop sf g H1 H2) as D.
      destruct (IH (Game.spawn_one sf g)) as (new & N1 & N2 & N3).
      destruct (spawn_loop_descends n sf H1 H2 (Game.spawn_one sf g))
        as [L _].
      exists (p :: new). split; [|split].
      * rewrite N1, P1, <- app_assoc. reflexivity.
      * cbn [map length seq]. rewrite P3. f_equal.
        rewrite N2, P2. reflexivity.
      * constructor.
        -- split; [exact P5|]. split; [exact P7|]. lia.
        -- eapply Forall_impl; [|exact N3].
           cbv beta. intros q (Q1 & Q2 & Q3). split; [exact Q1|].
           split; [exact Q2|]. lia.
    + exists []. rewrite app_nil_r. repeat split; constructor.
Qed.

(** X20.  The spawn loop ends by its own test: after [spawn_next] the
    frontier is at or above the line one screen height over the top,
    and less than one largest gap beyond it when the loop had to run.  A
    frontier already there makes [spawn_next] the platform cap alone.
    Before the cap the platforms are the old ones followed by the new ones,
    which carry consecutive fresh identifiers, are active, lie within the
    horizontal margins and between the new frontier and 60 px above the
    old one.  The player, the state and the score are untouched. *)
Theorem spawn_next_fills_to_the_line (g : Game.t) :
  let g' := Game.spawn_next g in
  World.spawn_y (Game.world g') <= - HEIGHT /\
  (- HEIGHT < World.spawn_y (Game.world g) ->
   - HEIGHT - 170 < World.spawn_y (Game.world g')) /\
  (World.spawn_y (Game.world g) <= - HEIGHT ->
   g' = Game.set_platforms (Game.limit_platforms (Game.platforms g)) g) /\
  (exists new : list Platform.t,
      Game.platforms g'
      = Game.limit_platforms (Game.platforms g ++ new) /\
      map Platform.ident new = seq (Game.next_id g) (length new) /\
      Forall (fun p =>
                within_margins (Rect.x (Platform.rect p)) /\
                Platform.active p = true /\
                World.spawn_y (Game.world g') <= Rect.top (Platform.rect p)
                <= World.spawn_y (Game.world g) - 60) new) /\
  Game.player g' = Game.player g /\ Game.state g' = Game.state g /\
  Game.score g' = Game.score g.
Proof.
  cbv zeta.
  destruct (speed_factor_bounds (Game.world g)) as [A B].
  split; [apply spawn_next_frontier|].
  split; [|split; [|split]].
  - intros H. unfold Game.spawn_next. cbn [Game.world Game.set_platforms].
    apply spawn_loop_descends; [exact A | exact B | lia].
  - intros H. unfold Game.spawn_next.
    destruct (Z.to_nat (World.spawn_y (Game.world g) + HEIGHT)) as [|n];
      cbn [Game.spawn_loop]; [reflexivity|].
    destruct (World.spawn_y (Game.world g) >? - HEIGHT) eqn:E;
      [|reflexivity].
    rewrite Z.gtb_ltb in E. apply Z.ltb_lt in E. lia.
  - unfold Game.spawn_next. cbn [Game.world Game.platforms Game.set_platforms].
    destruct (spawn_loop_platforms
                (Z.to_nat (World.spawn_y (Game.world g) + HEIGHT))
                (World.speed_factor (Game.world g)) A B g)
      as (new & N1 & N2 & N3).
    exists new. rewrite N1. repeat split; assumption.
  - destruct (spawn_next_kept g) as (F & T & P & _).
    apply flow_eq in F. apply totals_eq in T.
    destruct F as (F1 & _). destruct T as (T1 & _).
    repeat split; assumption.
Qed.

(* ------------------------------------------------------------------------- *)
(** ** The platform cap *)
(* ------------------------------------------------------------------------- *)

Lemma nodup_app_disjoint (l1 l2 : list nat) (x : nat) :
  NoDup (l1 ++ l2) -> In x l1 -> In x l2 -> False.
Proof.
  induction l1 as [|a l1 IH]; intros H H1 H2; [destruct H1|].
  cbn [app] in H. inversion H as [|? ? Hn Hd]; subst.
  destruct H1 as [<-|H1].
  - apply Hn. apply in_or_app. right. exact H2.
  - apply IH; assumption.
Qed.

Lemma insert_desc_perm (a : nat * Platform.t) (l : list (nat * Platform.t)) :
  Permutation (Game.insert_desc a l) (a :: l).
Proof.
  induction l as [|b l IH]; cbn [Game.insert_desc].
  - apply Permutation_refl.
  - break_if.
    + eapply perm_trans; [apply perm_skip; exact IH | apply perm_swap].
    + apply Permutation_refl.
Qed.

Lemma sorted_desc_perm (l : list (nat * Platform.t)) :
  Permutation (Game.sorted_desc l) l.
Proof.
  induction l as [|a l IH]; cbn [Game.sorted_desc fold_right].
  - apply perm_nil.
  - eapply perm_trans; [apply insert_desc_perm | apply perm_skip; exact IH].
Qed.

Lemma insert_desc_sorted (a : nat * Platform.t)
      (l : list (nat * Platform.t)) :
  StronglySorted (fun b c => top_of c <= top_of b) l ->
  StronglySorted (fun b c => top_of c <= top_of b) (Game.insert_desc a l).
Proof.
  induction l as [|b l IH]; intros H; cbn [Game.insert_desc].
  - constructor; [constructor | constructor].
  - inversion H as [|? ? Hs Hf]; subst.
    destruct (Rect.top (Platform.rect (snd b))
              >? Rect.top (Platform.rect (snd a))) eqn:E.
    + rewrite Z.gtb_ltb in E. apply Z.ltb_lt in E.
      constructor; [apply IH; exact Hs|].
      eapply Permutation_Forall;
        [apply Permutation_sym, insert_desc_perm|].
      constructor; [unfold top_of; lia | exact Hf].
    + rewrite Z.gtb_ltb in E. apply Z.ltb_ge in E.
      constructor; [exact H|].
      constructor; [unfold top_of; lia|].
      eapply Forall_impl; [|exact Hf]. unfold top_of. cbv beta. intros c Hc.
      lia.
Qed.

Lemma sorted_desc_sorted (l : list (nat * Platform.t)) :
  StronglySorted (fun b c => top_of c <= top_of b) (Game.sorted_desc l).
Proof.
  induction l as [|a l IH]; cbn [Game.sorted_desc fold_right].
  - constructor.
  - apply insert_desc_sorted. exact IH.
Qed.

Lemma sorted_app_le (l1 l2 : list (nat * Platform.t)) :
  StronglySorted (fun b c => top_of c <= top_of b) (l1 ++ l2) ->
  forall b c, In b l1 -> In c l2 -> top_of c <= top_of b.
Proof.
  induction l1 as [|a l1 IH]; intros H b c Hb Hc; [destruct Hb|].
  cbn [app] in H. inversion H as [|? ? Hs Hf]; subst.
  destruct Hb as [<-|Hb].
  - rewrite Forall_forall in Hf. apply Hf. apply in_or_app. right. exact Hc.
  - apply (IH Hs b c Hb Hc).
Qed.

Lemma indexed_fst (ps : list Platform.t) :
  forall s : nat, map fst (combine (seq s (length ps)) ps) = seq s (length ps).
Proof.
  induction ps as [|p ps IH]; intros s; cbn; [reflexivity|].
  rewrite IH. reflexivity.
Qed.

Lemma indexed_snd (ps : list Platform.t) :
  forall s : nat, map snd (combine (seq s (length ps)) ps) = ps.
Proof.
  induction ps as [|p ps IH]; intros s; cbn; [reflexivity|].
  rewrite IH. reflexivity.
Qed.

Lemma nodup_fst_inj (l : list (nat * Platform.t)) :
  NoDup (map fst l) ->
  forall a b, In a l -> In b l -> fst a = fst b -> a = b.
Proof.
  induction l as [|c l IH]; intros H a b Ha Hb E; [destruct Ha|].
  cbn [map] in H. inversion H as [|? ? Hn Hd]; subst.
  destruct Ha as [<-|Ha], Hb as [<-|Hb].
  - reflexivity.
  - exfalso. apply Hn. rewrite E. apply in_map. exact Hb.
  - exfalso. apply Hn. rewrite <- E. apply in_map. exact Ha.
  - apply IH; assumption.
Qed.

Lemma filter_length_perm (f : nat * Platform.t -> bool)
      (l l' : list (nat * Platform.t)) :
  Permutation l l' -> length (filter f l) = length (filter f l').
Proof.
  induction 1 as [|a l l' _ IH|a b l|l l' l'' _ IH1 _ IH2]; cbn [filter].
  - reflexivity.
  - destruct (f a); cbn [length]; rewrite IH; reflexivity.
  - destruct (f a), (f b); reflexivity.
  - congruence.
Qed.

Lemma killed_spec (killed : list (nat * Platform.t)) (ip : nat * Platform.t) :
  existsb (Nat.eqb (fst ip)) (map fst killed) = true
  <-> exists c, In c killed /\ fst c = fst ip.
Proof.
  rewrite existsb_exists. split.
  - intros (i & Hi & E). apply Nat.eqb_eq in E. apply in_map_iff in Hi.
    destruct Hi as (c & Hc & Hin). exists c. split; [exact Hin | congruence].
  - intros (c & Hin & E). exists (fst c). split.
    + apply in_map. exact Hin.
    + apply Nat.eqb_eq. symmetry. exact E.
Qed.

Lemma filter_keeps_all (f : nat * Platform.t -> bool)
      (l : list (nat * Platform.t)) :
  (forall a, In a l -> f a = true) -> filter f l = l.
Proof.
  induction l as [|a l IH]; intros H; cbn [filter]; [reflexivity|].
  rewrite (H a (or_introl eq_refl)). f_equal. apply IH.
  intros b Hb. apply H. right. exact Hb.
Qed.

Lemma filter_keeps_none (f : nat * Platform.t -> bool)
      (l : list (nat * Platform.t)) :
  (forall a, In a l -> f a = false) -> filter f l = [].
Proof.
  induction l as [|a l IH]; intros H; cbn [filter]; [reflexivity|].
  rewrite (H a (or_introl eq_refl)). apply IH.
  intros b Hb. apply H. right. exact Hb.
Qed.

(** The cap in terms of the sorted list: with [low] the indexed platforms
    sorted by falling top, the survivors are the members of [low[:22]]. *)
Lemma limit_platforms_split (ps : list Platform.t) :
  let indexed := combine (seq 0 (length ps)) ps in
  let low := Game.sorted_desc indexed in
  let f := fun ip : nat * Platform.t =>
             negb (existsb (Nat.eqb (fst ip))
                           (map fst (skipn MAX_PLATFORMS_ON_SCREEN low))) in
  NoDup (map fst low) /\
  (forall a, In a (firstn MAX_PLATFORMS_ON_SCREEN low) -> f a = true) /\
  (forall a, In a (skipn MAX_PLATFORMS_ON_SCREEN low) -> f a = false).
Proof.
  intros indexed low f.
  assert (Hp : Permutation low indexed) by apply sorted_desc_perm.
  assert (Hn : NoDup (map fst low)).
  { eapply Permutation_NoDup;
      [apply Permutation_map, Permutation_sym; exact Hp|].
    unfold indexed. rewrite indexed_fst. apply seq_NoDup. }
  split; [exact Hn|].
  pose proof (firstn_skipn MAX_PLATFORMS_ON_SCREEN low) as Hs.
  split.
  - intros a Ha. unfold f. apply negb_true_iff.
    destruct (existsb (Nat.eqb (fst a))
                      (map fst (skipn MAX_PLATFORMS_ON_SCREEN low))) eqn:E;
      [|reflexivity].
    exfalso. apply killed_spec in E. destruct E as (c & Hc & E).
    assert (Hac : c = a).
    { apply (nodup_fst_inj low Hn); [| |exact E];
        rewrite <- Hs; apply in_or_app; [right | left]; assumption. }
    subst c. rewrite <- Hs in Hn. rewrite map_app in Hn.
    apply (nodup_app_disjoint _ _ (fst a) Hn); apply in_map; assumption.
  - intros a Ha. unfold f. apply negb_false_iff. apply killed_spec.
    exists a. split; [exact Ha | reflexivity].
Qed.

Lemma limit_platforms_length (ps : list Platform.t) :
  (MAX_PLATFORMS_ON_SCREEN < length ps)%nat ->
  length (Game.limit_platforms ps) = MAX_PLATFORMS_ON_SCREEN.
Proof.
  intros H. unfold Game.limit_platforms.
  rewrite (proj2 (Nat.ltb_lt _ _) H).
  destruct (limit_platforms_split ps) as (_ & Hk & Hd).
  cbv zeta in Hk, Hd. cbv zeta.
  set (indexed := combine (seq 0 (length ps)) ps) in *.
  set (low := Game.sorted_desc indexed) in *.
  set (f := fun ip : nat * Platform.t =>
              negb (existsb (Nat.eqb (fst ip))
                            (map fst (skipn MAX_PLATFORMS_ON_SCREEN low))))
    in *.
  rewrite length_map.
  rewrite (filter_length_perm f indexed low)
    by (apply Permutation_sym, sorted_desc_perm).
  replace (filter f low)
    with (filter f (firstn MAX_PLATFORMS_ON_SCREEN low
                    ++ skipn MAX_PLATFORMS_ON_SCREEN low))
    by (rewrite firstn_skipn; reflexivity).
  rewrite filter_app, (filter_keeps_all f _ Hk), (filter_keeps_none f _ Hd).
  rewrite app_nil_r, length_firstn.
  assert (L : length low = length ps).
  { unfold low. rewrite (Permutation_length (sorted_desc_perm indexed)).
    unfold indexed. rewrite length_combine, length_seq. apply Nat.min_id. }
  rewrite L. apply Nat.min_l. apply Nat.lt_le_incl. exact H.
Qed.

Lemma limit_platforms_members (ps : list Platform.t) :
  (MAX_PLATFORMS_ON_SCREEN < length ps)%nat ->
  let low := Game.sorted_desc (combine (seq 0 (length ps)) ps) in
  forall p : Platform.t,
    (In p (Game.limit_platforms ps) ->
     exists i, In (i, p) (firstn MAX_PLATFORMS_ON_SCREEN low)) /\
    (In p ps -> ~ In p (Game.limit_platforms ps) ->
     exists i, In (i, p) (skipn MAX_PLATFORMS_ON_SCREEN low)).
Proof.
  intros H low p. unfold Game.limit_platforms.
  rewrite (proj2 (Nat.ltb_lt _ _) H).
  destruct (limit_platforms_split ps) as (Hn & Hk & Hd).
  cbv zeta in Hn, Hk, Hd. cbv zeta.
  set (indexed := combine (seq 0 (length ps)) ps) in *.
  fold low in Hn, Hk, Hd. fold low.
  set (f := fun ip : nat * Platform.t =>
              negb (existsb (Nat.eqb (fst ip))
                            (map fst (skipn MAX_PLATFORMS_ON_SCREEN low))))
    in *.
  assert (Hp : Permutation indexed low)
    by apply Permutation_sym, sorted_desc_perm.
  pose proof (firstn_skipn MAX_PLATFORMS_ON_SCREEN low) as Hs.
  assert (Hcase : forall a, In a indexed ->
                            (f a = true -> In a (firstn MAX_PLATFORMS_ON_SCREEN low)) /\
                            (f a = false -> In a (skipn MAX_PLATFORMS_ON_SCREEN low))).
  { intros a Ha. apply (Permutation_in _ Hp) in Ha. rewrite <- Hs in Ha.
    apply in_app_or in Ha. destruct Ha as [Ha|Ha].
    - split; [intros _; exact Ha|]. intros Hf.
      pose proof (Hk a Ha) as Hk'. change (f a = true) in Hk'. congruence.
    - split; [|intros _; exact Ha]. intros Hf.
      pose proof (Hd a Ha) as Hd'. change (f a = false) in Hd'. congruence. }
  split.
  - intros Hin. apply in_map_iff in Hin. destruct Hin as ([i q] & E & Hin).
    cbn [snd] in E. subst q. apply filter_In in Hin. destruct Hin as [Hin Hf].
    exists i. apply (proj1 (Hcase _ Hin) Hf).
  - intros Hin Hout.
    assert (Hq : In p (map snd indexed))
      by (unfold indexed; rewrite indexed_snd; exact Hin).
    apply in_map_iff in Hq. destruct Hq as ([i q] & E & Hq).
    cbn [snd] in E. subst q. exists i.
    apply (proj2 (Hcase _ Hq)).
    destruct (f (i, p)) eqn:Ef; [|reflexivity].
    exfalso. apply Hout. apply in_map_iff. exists (i, p).
    split; [reflexivity|]. apply filter_In. split; assumption.
Qed.

(** X21.  The platform cap leaves a group of at most 22 platforms alone
    and cuts a larger one down to exactly 22.  The survivors are platforms
    of the group, and none of them is higher on the screen than a platform
    the cap has removed: the cap keeps the lowest and removes the
    highest. *)
Theorem platform_cap_keeps_the_lowest (ps : list Platform.t) :
  let ps' := Game.limit_platforms ps in
  ((length ps <= MAX_PLATFORMS_ON_SCREEN)%nat -> ps' = ps) /\
  ((MAX_PLATFORMS_ON_SCREEN < length ps)%nat ->
   length ps' = MAX_PLATFORMS_ON_SCREEN) /\
  incl ps' ps /\
  (forall p q : Platform.t,
      In p ps' -> In q ps -> ~ In q ps' ->
      Rect.top (Platform.rect q) <= Rect.top (Platform.rect p)).
Proof.
  cbv zeta.
  assert (Hsmall : (length ps <= MAX_PLATFORMS_ON_SCREEN)%nat ->
                   Game.limit_platforms ps = ps).
  { intros H. unfold Game.limit_platforms.
    rewrite (proj2 (Nat.ltb_ge _ _) H). reflexivity. }
  split; [exact Hsmall|].
  split; [apply limit_platforms_length|].
  destruct (Nat.le_gt_cases (length ps) MAX_PLATFORMS_ON_SCREEN) as [H|H].
  - rewrite (Hsmall H). split; [apply incl_refl|].
    intros p q _ Hq Hn. contradiction.
  - split.
    + unfold Game.limit_platforms. rewrite (proj2 (Nat.ltb_lt _ _) H).
      intros p Hp. apply in_map_iff in Hp. destruct Hp as (ip & E & Hp).
      apply filter_In in Hp. destruct Hp as [Hp _].
      rewrite <- (indexed_snd ps 0). rewrite <- E. apply in_map. exact Hp.
    + intros p q Hp Hq Hn.
      destruct (proj1 (limit_platforms_members ps H p) Hp) as (i & Hi).
      destruct (proj2 (limit_platforms_members ps H q) Hq Hn) as (j & Hj).
      apply (sorted_app_le _ _
               ltac:(rewrite firstn_skipn; apply sorted_desc_sorted)
               (i, p) (j, q) Hi Hj).
Qed.

(* ------------------------------------------------------------------------- *)
(** ** Landings, enemies, pick-ups *)
(* ------------------------------------------------------------------------- *)

(** X22.  Whatever the platform, a landing puts the player's feet on the
    platform's top without moving the player sideways, records the
    platform as the last safe one and keeps the lives.  The player leaves
    upwards at -14 times the speed factor, or at -14 * 1.07 from a hydro
    platform.  Solar, wind and hydro platforms add 14, 7 and 9 energy by a
    float sum, capped at 100; the other kinds leave the energy as it is.
    For an energy in range the new energy is within 2^-45 of the exact
    capped sum, at most 100 and never below the old one, so a landing
    never costs energy.  Only breaking and disappearing platforms are
    switched off, and no landing moves the platform.  Afterwards the
    player's rectangle no longer overlaps the platform. *)
Theorem landing_effects (sf : Q) (pl : Player.t) (p : Platform.t) :
  let pl' := fst (Game.land sf pl p) in
  let p' := snd (Game.land sf pl p) in
  Rect.bottom (Player.rect pl') = Rect.top (Platform.rect p) /\
  Rect.x (Player.rect pl') = Rect.x (Player.rect pl) /\
  Player.last_safe_platform pl' = Some (Platform.ident p) /\
  Player.lives pl' = Player.lives pl /\
  Player.vel_y pl'
  = (if Platform.is_kind P_HYDRO p then PLAYER_JUMP_VEL * 1.07
     else PLAYER_JUMP_VEL * sf)%Q /\
  Player.energy pl'
  = match Platform.kind p with
    | P_SOLAR => clamp (fadd (Player.energy pl) 14.0) 0 100
    | P_WIND => clamp (fadd (Player.energy pl) 7.0) 0 100
    | P_HYDRO => clamp (fadd (Player.energy pl) 9.0) 0 100
    | _ => Player.energy pl
    end /\
  (energy_in_range pl ->
   (Player.energy pl <= Player.energy pl')%Q /\
   (Player.energy pl' <= 100)%Q /\
   (Qabs (Player.energy pl'
          - match Platform.kind p with
            | P_SOLAR => Qmin 100 (Player.energy pl + 14.0)
            | P_WIND => Qmin 100 (Player.energy pl + 7.0)
            | P_HYDRO => Qmin 100 (Player.energy pl + 9.0)
            | _ => Player.energy pl
            end) <= pow2 (-45))%Q) /\
  Platform.rect p' = Platform.rect p /\
  Platform.ident p' = Platform.ident p /\
  Platform.kind p' = Platform.kind p /\
  Platform.active p'
  = (if Platform.is_kind P_BREAKING p || Platform.is_kind P_DISAPPEARING p
     then false else Platform.active p) /\
  Rect.colliderect (Player.rect pl') (Platform.rect p') = false.
Proof.
  cbv zeta.
  assert (Hb : Rect.bottom
                 (Rect.set_bottom (Rect.top (Platform.rect p))
                                  (Player.rect pl))
               = Rect.top (Platform.rect p))
    by (unfold Rect.bottom, Rect.set_bottom, Rect.set_y; cbn; lia).
  assert (Hc : Rect.colliderect
                 (Rect.set_bottom (Rect.top (Platform.rect p))
                                  (Player.rect pl))
                 (Platform.rect p) = false).
  { unfold Rect.colliderect. rewrite Hb.
    rewrite (proj2 (Z.ltb_ge _ _) (Z.le_refl _)).
    apply andb_false_r. }
  assert (He : energy_in_range pl ->
               forall gain : Q,
                 (1 <= gain)%Q -> (gain <= 28)%Q ->
                 (Player.energy pl
                  <= clamp (fadd (Player.energy pl) gain) 0 100)%Q /\
                 (clamp (fadd (Player.energy pl) gain) 0 100 <= 100)%Q /\
                 (Qabs (clamp (fadd (Player.energy pl) gain) 0 100
                        - Qmin 100 (Player.energy pl + gain))
                  <= pow2 (-45))%Q).
  { intros [H0 H1] gain Hg Hg'.
    destruct (clamp_gain64 (Player.energy pl) gain H0 H1 Hg Hg')
      as (A & B & _ & C).
    split; [exact A | split; [exact B | exact C]]. }
  assert (Hz : (Qabs (Player.energy pl - Player.energy pl) <= pow2 (-45))%Q).
  { assert (Z : (Player.energy pl - Player.energy pl == 0)%Q) by ring.
    rewrite Z. vm_compute. discriminate. }
  unfold Game.land, Game.handle_platform_effect, Platform.is_kind.
  destruct (Platform.kind p) eqn:K;
    cbn [fst snd Player.rect Player.set_rect Player.bounce Player.set_vel_y
         Player.mark_safe_platform Player.set_energy Player.energy
         Player.lives Player.vel_y Player.last_safe_platform
         Platform.rect Platform.set_fade Platform.set_active Platform.ident
         Platform.kind Platform.active orb];
    (split; [exact Hb|]); (split; [reflexivity|]); (split; [reflexivity|]);
    (split; [reflexivity|]); (split; [reflexivity|]);
    (split; [reflexivity|]);
    (split; [first [ intros Hr; apply (He Hr); vm_compute; discriminate
                   | intros [H0 H1];
                     split; [apply Qle_refl | split; [exact H1 | exact Hz]] ]
            |]);
    (split; [reflexivity|]); (split; [reflexivity|]);
    (split; [first [exact K | reflexivity]|]);
    (split; [reflexivity | exact Hc]).
Qed.

Lemma choice_of_two (r : Random.t) :
  fst (Random.choice 0 [-10; 10] r) = -10 \/
  fst (Random.choice 0 [-10; 10] r) = 10.
Proof.
  unfold Random.choice, Random.next. cbn [fst length].
  pose proof (Nat.mod_upper_bound (N.to_nat (Random.raw r (Random.pos r))) 2
                                  ltac:(discriminate)) as H.
  destruct (N.to_nat (Random.raw r (Random.pos r)) mod 2)%nat as [|[|n]];
    [left; reflexivity | right; reflexivity | lia].
Qed.

Lemma trigger_quiz_groups (g : Game.t) :
  Game.platforms (Game.trigger_quiz g) = Game.platforms g /\
  Game.enemies (Game.trigger_quiz g) = Game.enemies g /\
  Game.bonuses (Game.trigger_quiz g) = Game.bonuses g /\
  Player.rect (Game.player (Game.trigger_quiz g))
  = Player.rect (Game.player g).
Proof.
  unfold Game.trigger_quiz, Game.game_over.
  repeat first [break_if | break_pair]; repeat split; reflexivity.
Qed.

Lemma enemy_loop_moves (sin : Q -> Q) (sf : Q) (pl0 : Player.t)
      (es : list Enemy.t) :
  forall g : Game.t,
    Player.rect (Game.player g) = Player.rect pl0 ->
    let r := Game.enemy_loop sin sf g es in
    Forall2 (fun e e' =>
               let e1 := Enemy.update sin pl0 sf e in
               if Game.enemy_contact sin sf pl0 e
               then e' = Enemy.move_x (-10) e1 \/ e' = Enemy.move_x 10 e1
               else e' = e1)
            es (snd r) /\
    Game.platforms (fst r) = Game.platforms g /\
    Game.bonuses (fst r) = Game.bonuses g /\
    (forallb (fun e => negb (Game.enemy_contact sin sf pl0 e)) es = true ->
     fst r = g).
Proof.
  induction es as [|e es IH]; intros g Hr; cbn [Game.enemy_loop]; cbv zeta.
  - cbn [fst snd forallb]. repeat split. constructor.
  - rewrite (enemy_update_rect sin sf (Game.player g) pl0 e Hr).
    rewrite Hr.
    destruct (Game.enemy_contact sin sf pl0 e) eqn:C;
      pose proof C as C'; unfold Game.enemy_contact in C'; rewrite C'.
    + pose proof (choice_of_two
                    (Game.random
                       (Game.set_player
                          (Player.take_enemy_hit (Game.player g)) g))) as Hd.
      destruct (Random.choice 0 [-10; 10] _) as [d rnd]. cbn [fst] in Hd.
      match goal with
      | |- context [Game.enemy_loop sin sf ?g3 es] =>
          assert (H3 : Player.rect (Game.player g3) = Player.rect pl0 /\
                       Game.platforms g3 = Game.platforms g /\
                       Game.bonuses g3 = Game.bonuses g);
          [|destruct (IH g3 (proj1 H3)) as (A & B & D & _);
            destruct (Game.enemy_loop sin sf g3 es) as [g4 rest']]
      end.
      { break_if.
        - destruct (trigger_quiz_groups
                      (Game.set_random rnd
                         (Game.set_player
                            (Player.take_enemy_hit (Game.player g)) g)))
            as (T1 & _ & T3 & T4).
          rewrite T1, T3, T4. cbn [Game.player Game.set_random Game.set_player
                                   Game.platforms Game.bonuses].
          rewrite (proj1 (take_enemy_hit_rect (Game.player g))).
          repeat split; [exact Hr].
        - cbn [Game.player Game.set_random Game.set_player
               Game.platforms Game.bonuses].
          rewrite (proj1 (take_enemy_hit_rect (Game.player g))).
          repeat split; [exact Hr]. }
      cbn [fst snd] in *. destruct H3 as (_ & H4 & H5).
      split; [|split; [congruence | split; [congruence|]]].
      * constructor; [|exact A]. cbv zeta. rewrite C.
        destruct Hd as [-> | ->]; [left | right]; reflexivity.
      * cbn [forallb]. rewrite C. discriminate.
    + destruct (IH g Hr) as (A & B & D & E).
      destruct (Game.enemy_loop sin sf g es) as [g4 rest'].
      cbn [fst snd] in *.
      split; [|split; [exact B | split; [exact D|]]].
      * constructor; [|exact A]. cbv zeta. rewrite C. reflexivity.
      * cbn [forallb]. rewrite C. exact E.
Qed.

(** X23.  The enemy loop never removes an enemy and keeps the group's
    order: every enemy makes its own move, and one that then touches the
    player is pushed 10 px to the left or to the right.  The loop moves
    neither the player nor any platform or bonus, and with no enemy in
    touch it changes nothing but the enemies. *)
Theorem enemies_move_and_stay (sin : Q -> Q) (sf : Q) (g : Game.t) :
  let g' := Game.resolve_enemy_collisions sin sf g in
  Forall2 (fun e e' =>
             let e1 := Enemy.update sin (Game.player g) sf e in
             if Game.enemy_contact sin sf (Game.player g) e
             then e' = Enemy.move_x (-10) e1 \/ e' = Enemy.move_x 10 e1
             else e' = e1)
          (Game.enemies g) (Game.enemies g') /\
  length (Game.enemies g') = length (Game.enemies g) /\
  map Enemy.kind (Game.enemies g') = map Enemy.kind (Game.enemies g) /\
  Player.rect (Game.player g') = Player.rect (Game.player g) /\
  Game.platforms g' = Game.platforms g /\
  Game.bonuses g' = Game.bonuses g /\
  (forallb (fun e => negb (Game.enemy_contact sin sf (Game.player g) e))
           (Game.enemies g) = true ->
   g' = Game.set_enemies
          (map (Enemy.update sin (Game.player g) sf) (Game.enemies g)) g).
Proof.
  cbv zeta. unfold Game.resolve_enemy_collisions.
  destruct (enemy_loop_moves sin sf (Game.player g) (Game.enemies g) g eq_refl)
    as (A & B & D & E).
  destruct (enemy_loop_always sin sf (Game.enemies g) g) as (R & _).
  destruct (Game.enemy_loop sin sf g (Game.enemies g)) as [g1 es'].
  cbn [fst snd] in *.
  cbn [Game.enemies Game.set_enemies Game.player Game.platforms Game.bonuses].
  split; [exact A|].
  split; [symmetry; exact (Forall2_length A)|].
  split.
  { clear - A. induction A as [|e e' l l' H _ IH]; [reflexivity|].
    cbn [map]. rewrite IH. f_equal.
    cbv zeta in H.
    assert (K : forall d e0, Enemy.kind (Enemy.move_x d e0) = Enemy.kind e0)
      by reflexivity.
    assert (U : Enemy.kind (Enemy.update sin (Game.player g) sf e)
                = Enemy.kind e).
    { unfold Enemy.update. destruct (Enemy.kind e) eqn:Ke;
        try break_if; cbn; first [exact Ke | reflexivity]. }
    destruct (Game.enemy_contact sin sf (Game.player g) e).
    - destruct H as [-> | ->]; rewrite K; exact U.
    - rewrite H. exact U. }
  split; [exact R|]. split; [exact B|]. split; [exact D|].
  intros Hq. rewrite (E Hq). f_equal.
  clear - A Hq. induction A as [|e e' l l' H _ IH]; [reflexivity|].
  cbn [forallb] in Hq. apply andb_true_iff in Hq. destruct Hq as [H1 H2].
  cbn [map]. rewrite (IH H2). f_equal.
  cbv zeta in H. apply negb_true_iff in H1. rewrite H1 in H. exact H.
Qed.

Lemma apply_bonus_rect (b : Bonus.t) (pl : Player.t) :
  Player.rect (Game.apply_bonus b pl) = Player.rect pl /\
  Player.lives (Game.apply_bonus b pl) = Player.lives pl.
Proof.
  unfold Game.apply_bonus. destruct (Bonus.kind b); split; reflexivity.
Qed.

Lemma bonus_loop_spec (sin : Q -> Q) (pl0 : Player.t) (bs : list Bonus.t) :
  forall pl : Player.t,
    Player.rect pl = Player.rect pl0 ->
    let touching :=
      fun b => Rect.colliderect (Player.rect pl0) (Bonus.rect b) in
    let moved := map (Bonus.update sin) bs in
    Game.bonus_loop sin pl bs
    = (fold_left (fun p b => Game.apply_bonus b p) (filter touching moved) pl,
       filter (fun b => negb (touching b)) moved).
Proof.
  cbv zeta.
  induction bs as [|b bs IH]; intros pl Hr;
    cbn [Game.bonus_loop map filter]; [reflexivity|].
  rewrite Hr.
  destruct (Rect.colliderect (Player.rect pl0)
                             (Bonus.rect (Bonus.update sin b))) eqn:C;
    cbn [negb fold_left].
  - apply IH. rewrite (proj1 (apply_bonus_rect _ _)). exact Hr.
  - rewrite (IH pl Hr). reflexivity.
Qed.

(** X24.  The pick-up pass lets every bonus make its move, removes those
    that then touch the player and keeps the others in their order; the
    removed ones are applied to the player one after another in group
    order.  The pass neither moves the player nor changes the lives, so no
    bonus that is left touches the player. *)
Theorem pickups_take_what_touches (sin : Q -> Q) (g : Game.t) :
  let g' := Game.resolve_bonus_pickups sin g in
  let touching :=
    fun b => Rect.colliderect (Player.rect (Game.player g)) (Bonus.rect b) in
  let moved := map (Bonus.update sin) (Game.bonuses g) in
  Game.bonuses g' = filter (fun b => negb (touching b)) moved /\
  Game.player g'
  = fold_left (fun p b => Game.apply_bonus b p) (filter touching moved)
              (Game.player g) /\
  Player.rect (Game.player g') = Player.rect (Game.player g) /\
  Player.lives (Game.player g') = Player.lives (Game.player g) /\
  Forall (fun b =>
            Rect.colliderect (Player.rect (Game.player g')) (Bonus.rect b)
            = false)
         (Game.bonuses g') /\
  Game.platforms g' = Game.platforms g /\ Game.enemies g' = Game.enemies g /\
  Game.state g' = Game.state g.
Proof.
  cbv zeta. unfold Game.resolve_bonus_pickups.
  pose proof (bonus_loop_player sin (Game.bonuses g) (Game.player g)) as Hp.
  cbv zeta in Hp. destruct Hp as (R & L & _).
  rewrite (bonus_loop_spec sin (Game.player g) (Game.bonuses g)
                           (Game.player g) eq_refl) in *.
  cbn [fst] in R, L.
  cbn [Game.bonuses Game.set_bonuses Game.player Game.set_player
       Game.platforms Game.enemies Game.state].
  split; [reflexivity|]. split; [reflexivity|].
  split; [exact R|]. split; [exact L|].
  split; [|repeat split; reflexivity].
  rewrite R. apply Forall_forall. intros b Hb.
  apply filter_In in Hb. destruct Hb as [_ Hb].
  apply negb_true_iff in Hb. exact Hb.
Qed.

(* ------------------------------------------------------------------------- *)
(** ** Camera, clean-up and the high score *)
(* ------------------------------------------------------------------------- *)

Lemma rect_shift_zero (r : Rect.t) : Rect.set_y (Rect.y r + 0) r = r.
Proof. destruct r. unfold Rect.set_y. cbn. rewrite Z.add_0_r. reflexivity. Qed.

Lemma shift_platform_zero (p : Platform.t) : Game.shift_platform 0 p = p.
Proof.
  unfold Game.shift_platform, Platform.set_rect. rewrite rect_shift_zero.
  destruct p. reflexivity.
Qed.

Lemma move_y_zero (e : Enemy.t) : Enemy.move_y 0 e = e.
Proof.
  unfold Enemy.move_y. rewrite rect_shift_zero. destruct e. reflexivity.
Qed.

Lemma shift_bonus_zero (b : Bonus.t) : Game.shift_bonus 0 b = b.
Proof.
  unfold Game.shift_bonus. rewrite rect_shift_zero. destruct b. reflexivity.
Qed.

Lemma map_same {A : Type} (f : A -> A) (l : list A) :
  (forall a, f a = a) -> map f l = l.
Proof.
  intros H. induction l as [|a l IH]; cbn [map]; [reflexivity|].
  rewrite H, IH. reflexivity.
Qed.

Lemma camera_shift (g : Game.t) :
  let dy := Z.max 0 (SCROLL_TRIGGER_Y - Rect.top (Player.rect (Game.player g)))
  in
  Game.camera g
  = Game.mk (Game.state g) (Game.quiz g)
            (World.set_spawn_y (World.spawn_y (Game.world g) + dy)
                               (Game.world g))
            (map (Game.shift_platform dy) (Game.platforms g))
            (map (Enemy.move_y dy) (Game.enemies g))
            (map (Game.shift_bonus dy) (Game.bonuses g))
            (Player.set_rect
               (Rect.set_y (Rect.y (Player.rect (Game.player g)) + dy)
                           (Player.rect (Game.player g)))
               (Game.player g))
            (Game.high_score g) (Game.score g) (Game.ascended_px g + dy)
            (Game.touch_x g) (Game.random g) (Game.entropy g)
            (Game.worlds g) (Game.next_id g).
Proof.
  cbv zeta. unfold Game.camera.
  destruct (Rect.top (Player.rect (Game.player g)) <=? SCROLL_TRIGGER_Y)
    eqn:E.
  - apply Z.leb_le in E.
    rewrite (Z.max_r 0 _) by lia.
    unfold Rect.set_top, Rect.top.
    replace (Rect.y (Player.rect (Game.player g))
             + (SCROLL_TRIGGER_Y - Rect.y (Player.rect (Game.player g))))
      with SCROLL_TRIGGER_Y by lia.
    reflexivity.
  - apply Z.leb_gt in E.
    rewrite (Z.max_l 0 _) by lia.
    rewrite (map_same _ _ shift_platform_zero), (map_same _ _ move_y_zero),
      (map_same _ _ shift_bonus_zero), rect_shift_zero, !Z.add_0_r.
    destruct g as [s q w ps es bs pl hs sc asc tx rnd ent ws nid].
    cbn. destruct w, pl. reflexivity.
Qed.

(** X25.  The camera is one vertical shift of the whole scene by
    dy = max(0, SCROLL_TRIGGER_Y - player top): the player, every
    platform, enemy and bonus and the spawn frontier go down by dy and the
    ascended distance grows by dy, so all distances between them are kept;
    nothing moves sideways and nothing is added or removed.  Afterwards
    the player's top is at or below the trigger line, and a second pass
    changes nothing. *)
Theorem camera_shifts_the_scene (g : Game.t) :
  let g' := Game.camera g in
  let dy :=
    Z.max 0 (SCROLL_TRIGGER_Y - Rect.top (Player.rect (Game.player g))) in
  Player.rect (Game.player g')
  = Rect.set_y (Rect.y (Player.rect (Game.player g)) + dy)
               (Player.rect (Game.player g)) /\
  SCROLL_TRIGGER_Y <= Rect.top (Player.rect (Game.player g')) /\
  Game.ascended_px g' = Game.ascended_px g + dy /\
  World.spawn_y (Game.world g') = World.spawn_y (Game.world g) + dy /\
  map Platform.rect (Game.platforms g')
  = map (fun p => Rect.set_y (Rect.y (Platform.rect p) + dy)
                             (Platform.rect p))
        (Game.platforms g) /\
  map Enemy.rect (Game.enemies g')
  = map (fun e => Rect.set_y (Rect.y (Enemy.rect e) + dy) (Enemy.rect e))
        (Game.enemies g) /\
  map Bonus.rect (Game.bonuses g')
  = map (fun b => Rect.set_y (Rect.y (Bonus.rect b) + dy) (Bonus.rect b))
        (Game.bonuses g) /\
  Game.camera g' = g'.
Proof.
  cbv zeta. rewrite (camera_shift (Game.camera g)).
  rewrite (camera_shift g). cbv zeta.
  cbn [Game.player Game.ascended_px Game.world Game.platforms Game.enemies
       Game.bonuses World.spawn_y World.set_spawn_y Player.rect
       Player.set_rect].
  set (dy := Z.max 0 (SCROLL_TRIGGER_Y
                      - Rect.top (Player.rect (Game.player g)))).
  assert (Htop : SCROLL_TRIGGER_Y
                 <= Rect.top (Rect.set_y
                                (Rect.y (Player.rect (Game.player g)) + dy)
                                (Player.rect (Game.player g)))).
  { unfold Rect.top, Rect.set_y in *. cbn [Rect.y]. lia. }
  split; [reflexivity|]. split; [exact Htop|].
  split; [reflexivity|]. split; [reflexivity|].
  split; [rewrite map_map; reflexivity|].
  split; [rewrite map_map; reflexivity|].
  split; [rewrite map_map; reflexivity|].
  rewrite (Z.max_l 0 _) by lia.
  rewrite (map_same _ _ shift_platform_zero), (map_same _ _ move_y_zero),
    (map_same _ _ shift_bonus_zero), rect_shift_zero, !Z.add_0_r.
  destruct g as [s q w ps es bs pl hs sc asc tx rnd ent ws nid].
  cbn. destruct w, pl. reflexivity.
Qed.

Lemma record_follows_same (g g' : Game.t) :
  Game.score g' = Game.score g -> Game.high_score g' = Game.high_score g ->
  record_follows g g'.
Proof. intros E1 E2. unfold record_follows. rewrite E1, E2. lia. Qed.

Lemma record_follows_totals (g g' : Game.t) :
  totals g' = totals g -> record_follows g g'.
Proof.
  intros T. apply totals_eq in T. destruct T as (T1 & T2 & _).
  apply record_follows_same; assumption.
Qed.

Lemma record_follows_trans (g1 g2 g3 : Game.t) :
  record_follows g1 g2 -> record_follows g2 g3 -> record_follows g1 g3.
Proof. unfold record_follows. lia. Qed.

Lemma game_over_record (g : Game.t) :
  record_follows g (Game.game_over g) /\
  Game.score (Game.game_over g) <= Game.high_score (Game.game_over g).
Proof.
  unfold record_follows, Game.game_over. cbv zeta.
  set (s := Z.max (Game.score g)
                  (py_int (inject_Z (Game.ascended_px g) * 0.06)%Q)).
  cbn [Game.high_score Game.set_score Game.set_state].
  destruct (s >? Game.high_score g) eqn:E;
    cbn [Game.high_score Game.score Game.set_high_score Game.set_score
         Game.set_state];
    rewrite Z.gtb_ltb in E;
    [apply Z.ltb_lt in E | apply Z.ltb_ge in E]; subst s; lia.
Qed.

Lemma trigger_quiz_record (g : Game.t) :
  record_follows g (Game.trigger_quiz g).
Proof.
  unfold Game.trigger_quiz. cbv zeta. break_if.
  - eapply record_follows_trans; [|apply game_over_record].
    apply record_follows_same; reflexivity.
  - break_pair. apply record_follows_same; reflexivity.
Qed.

Lemma enemy_loop_record (sin : Q -> Q) (sf : Q) (es : list Enemy.t) :
  forall g : Game.t,
    record_follows g (fst (Game.enemy_loop sin sf g es)).
Proof.
  induction es as [|e es IH]; intros g; cbn [Game.enemy_loop]; cbv zeta.
  - apply record_follows_same; reflexivity.
  - break_if.
    + break_pair.
      match goal with
      | |- context [Game.enemy_loop sin sf ?g3 es] =>
          assert (H3 : record_follows g g3);
          [|pose proof (IH g3) as H4;
            destruct (Game.enemy_loop sin sf g3 es) as [g4 rest']]
      end.
      { break_if.
        - eapply record_follows_trans; [|apply trigger_quiz_record].
          apply record_follows_same; reflexivity.
        - apply record_follows_same; reflexivity. }
      cbn [fst] in *. eapply record_follows_trans; eassumption.
    + pose proof (IH g) as H4.
      destruct (Game.enemy_loop sin sf g es) as [g4 rest'].
      exact H4.
Qed.

Lemma scoring_record (g : Game.t) :
  record_follows g (Game.scoring g) /\
  Game.score (Game.scoring g) <= Game.high_score (Game.scoring g).
Proof.
  unfold record_follows, Game.scoring. cbv zeta.
  set (s := Z.max (Game.score g)
                  (py_int (inject_Z (Game.ascended_px g) * 0.06)%Q)).
  cbn [Game.high_score Game.set_score Game.set_player].
  destruct (s >? Game.high_score g) eqn:E;
    cbn [Game.high_score Game.score Game.set_high_score Game.set_score
         Game.set_player];
    rewrite Z.gtb_ltb in E;
    [apply Z.ltb_lt in E | apply Z.ltb_ge in E]; subst s; lia.
Qed.

Lemma fall_record (g : Game.t) : record_follows g (Game.fall g).
Proof.
  destruct (fall_spec g) as [[_ E]|[_ E]]; cbv zeta in E; rewrite E.
  - apply record_follows_same; reflexivity.
  - eapply record_follows_trans; [|apply trigger_quiz_record].
    apply record_follows_same; reflexivity.
Qed.

Lemma update_play_record (sin : Q -> Q) (keys : Keys) (g : Game.t) :
  record_follows g (Game.update_play sin keys g) /\
  Game.score (Game.update_play sin keys g)
  <= Game.high_score (Game.update_play sin keys g).
Proof.
  rewrite update_play_cut.
  destruct (before_enemies_kept sin keys g) as (_ & A2 & A3 & _).
  set (g4 := before_enemies sin keys g) in *.
  set (sf := World.speed_factor (Game.world (Game.sync_world g))).
  pose proof (enemy_loop_record sin sf (Game.enemies g4) g4) as B.
  destruct (resolve_enemy_collisions_fst sin sf g4) as (_ & B2 & _).
  cbv zeta in B2.
  set (g5 := Game.resolve_enemy_collisions sin sf g4) in *.
  destruct (resolve_bonus_pickups_kept sin g5) as (_ & C2 & _).
  set (g6 := Game.resolve_bonus_pickups sin g5) in *.
  destruct (cleanup_kept g6) as (_ & D2 & _).
  set (g7 := Game.cleanup g6) in *.
  pose proof (fall_record g7) as F.
  set (g8 := Game.fall g7) in *.
  destruct (scoring_record g8) as (S1 & S2).
  set (g9 := Game.scoring g8) in *.
  cbn [Game.set_touch_x Game.score Game.high_score].
  split; [|exact S2].
  assert (R : record_follows g g9).
  { eapply record_follows_trans; [apply record_follows_same; eassumption|].
    eapply record_follows_trans; [exact B|].
    eapply record_follows_trans;
      [apply record_follows_totals; exact B2|].
    eapply record_follows_trans;
      [apply record_follows_totals; exact C2|].
    eapply record_follows_trans;
      [apply record_follows_totals; exact D2|].
    eapply record_follows_trans; [exact F | exact S1]. }
  exact R.
Qed.

Lemma update_record (sin : Q -> Q) (keys : Keys) (g : Game.t) :
  record_follows g (Game.update sin keys g).
Proof.
  unfold Game.update. destruct (Game.state g).
  - apply record_follows_same; reflexivity.
  - apply update_play_record.
  - apply record_follows_same; reflexivity.
  - cbv zeta. break_if; [|apply record_follows_same; reflexivity].
    unfold Game.resolve_quiz_result. break_if.
    + apply record_follows_same; reflexivity.
    + eapply record_follows_trans; [|apply game_over_record].
      apply record_follows_same; reflexivity.
  - apply record_follows_same; reflexivity.
Qed.

Lemma updates_record (sin : Q -> Q) (inputs : list (Keys * option Z)) :
  forall g : Game.t, record_follows g (Game.updates sin inputs g).
Proof.
  induction inputs as [|[keys touch] rest IH]; intros g;
    cbn [Game.updates].
  - apply record_follows_same; reflexivity.
  - eapply record_follows_trans; [|apply IH].
    eapply record_follows_trans; [|apply update_record].
    apply record_follows_same; reflexivity.
Qed.

(** X26.  Over any number of updates, in whatever states, the high score
    never drops and never rises beyond the larger of its old value and the
    score reached; once it covers the score it keeps covering it.  After a
    single update in play, and after a game over, the high score is exactly
    the larger of its old value and the new score. *)
Theorem high_score_follows_the_score (sin : Q -> Q)
        (inputs : list (Keys * option Z)) (keys : Keys) (g : Game.t) :
  (let g' := Game.updates sin inputs g in
   Game.high_score g <= Game.high_score g' /\
   Game.high_score g' <= Z.max (Game.high_score g) (Game.score g') /\
   (Game.score g <= Game.high_score g ->
    Game.score g' <= Game.high_score g')) /\
  (Game.state g = STATE_PLAY ->
   Game.high_score (Game.update sin keys g)
   = Z.max (Game.high_score g) (Game.score (Game.update sin keys g))) /\
  Game.high_score (Game.game_over g)
  = Z.max (Game.high_score g) (Game.score (Game.game_over g)).
Proof.
  split; [|split].
  - cbv zeta. destruct (updates_record sin inputs g) as (A & _ & C & D).
    split; [exact A|]. split; [exact C | exact D].
  - intros Hs. rewrite (update_is_update_play sin keys g Hs).
    destruct (update_play_record sin keys g) as ((A & _ & C & _) & E). lia.
  - destruct (game_over_record g) as ((A & _ & C & _) & E). lia.
Qed.

Lemma trigger_quiz_world (g : Game.t) :
  Game.world (Game.trigger_quiz g) = Game.world g.
Proof.
  unfold Game.trigger_quiz, Game.game_over.
  repeat first [break_if | break_pair]; reflexivity.
Qed.

Lemma enemy_loop_world (sin : Q -> Q) (sf : Q) (es : list Enemy.t) :
  forall g : Game.t,
    Game.world (fst (Game.enemy_loop sin sf g es)) = Game.world g.
Proof.
  induction es as [|e es IH]; intros g; cbn [Game.enemy_loop]; cbv zeta;
    [reflexivity|].
  break_if.
  - break_pair.
    match goal with
    | |- context [Game.enemy_loop sin sf ?g3 es] =>
        assert (H3 : Game.world g3 = Game.world g);
        [|pose proof (IH g3) as H4;
          destruct (Game.enemy_loop sin sf g3 es) as [g4 rest']]
    end.
    { break_if; [rewrite trigger_quiz_world|]; reflexivity. }
    cbn [fst] in *. congruence.
  - pose proof (IH g) as H4.
    destruct (Game.enemy_loop sin sf g es) as [g4 rest']. exact H4.
Qed.

Lemma limit_platforms_cap (ps : list Platform.t) :
  (length (Game.limit_platforms ps) <= MAX_PLATFORMS_ON_SCREEN)%nat.
Proof.
  destruct (Nat.le_gt_cases (length ps) MAX_PLATFORMS_ON_SCREEN) as [H|H].
  - unfold Game.limit_platforms.
    rewrite (proj2 (Nat.ltb_ge _ _) H). exact H.
  - rewrite (limit_platforms_length ps H). apply Nat.le_refl.
Qed.

Lemma landing_scan_length (sf : Q) (pl : Player.t) (ps : list Platform.t) :
  length (snd (Game.landing_scan sf pl ps)) = length ps.
Proof.
  induction ps as [|p ps IH]; cbn [Game.landing_scan]; [reflexivity|].
  destruct (negb (Platform.active p)).
  - destruct (Game.landing_scan sf pl ps) as [pl' ps'].
    cbn [snd length] in *. rewrite IH. reflexivity.
  - destruct (Game.lands_on pl p).
    + destruct (Game.land sf pl p) as [pl' p']. reflexivity.
    + destruct (Game.landing_scan sf pl ps) as [pl' ps'].
      cbn [snd length] in *. rewrite IH. reflexivity.
Qed.

Lemma fade_out_length (ps : list Platform.t) :
  (length (Game.fade_out ps) <= length ps)%nat.
Proof.
  unfold Game.fade_out.
  induction ps as [|p ps IH]; cbn [flat_map length]; [apply Nat.le_refl|].
  rewrite length_app.
  assert (H : (length (Game.fade_step p) <= 1)%nat)
    by (unfold Game.fade_step; repeat break_if; cbn; lia).
  lia.
Qed.

Lemma resolve_platform_collisions_scene (sf : Q) (g : Game.t) :
  let g' := Game.resolve_platform_collisions sf g in
  (length (Game.platforms g') <= length (Game.platforms g))%nat /\
  Game.world g' = Game.world g.
Proof.
  cbv zeta. unfold Game.resolve_platform_collisions. break_if.
  - split; [apply Nat.le_refl | reflexivity].
  - pose proof (landing_scan_length sf (Game.player g) (Game.platforms g))
      as L.
    destruct (Game.landing_scan sf (Game.player g) (Game.platforms g))
      as [pl ps].
    cbn [snd] in L. cbn [Game.platforms Game.set_platforms Game.world
                         Game.set_player].
    split; [|reflexivity]. rewrite <- L. apply fade_out_length.
Qed.

Lemma filter_length_le {A : Type} (f : A -> bool) (l : list A) :
  (length (filter f l) <= length l)%nat.
Proof.
  induction l as [|a l IH]; cbn [filter length]; [apply Nat.le_refl|].
  destruct (f a); cbn [length]; lia.
Qed.

Lemma cleanup_scene (g : Game.t) :
  let g' := Game.cleanup g in
  (length (Game.platforms g') <= length (Game.platforms g))%nat /\
  Game.world g' = Game.world g /\
  Forall (fun p => Rect.top (Platform.rect p) <= HEIGHT + 120)
         (Game.platforms g') /\
  Forall (fun e => Rect.top (Enemy.rect e) <= HEIGHT + 120)
         (Game.enemies g') /\
  Forall (fun b => Rect.top (Bonus.rect b) <= HEIGHT + 120)
         (Game.bonuses g').
Proof.
  cbv zeta. unfold Game.cleanup.
  cbn [Game.platforms Game.enemies Game.bonuses Game.world Game.set_bonuses
       Game.set_enemies Game.set_platforms].
  split; [apply filter_length_le|]. split; [reflexivity|].
  repeat split; apply Forall_forall; intros a Ha; apply filter_In in Ha;
    destruct Ha as [_ Ha]; apply negb_true_iff in Ha;
    rewrite Z.gtb_ltb in Ha; apply Z.ltb_ge in Ha; exact Ha.
Qed.

Lemma fall_scene (g : Game.t) :
  let g' := Game.fall g in
  Game.platforms g' = Game.platforms g /\
  Game.enemies g' = Game.enemies g /\
  Game.bonuses g' = Game.bonuses g /\
  Game.world g' = Game.world g.
Proof.
  destruct (fall_spec g) as [[_ E]|[_ E]]; cbv zeta in *; rewrite E.
  - repeat split; reflexivity.
  - match goal with
    | |- context [Game.trigger_quiz ?h] =>
        destruct (trigger_quiz_groups h) as (A & B & C & _);
        pose proof (trigger_quiz_world h) as D
    end.
    rewrite A, B, C, D. repeat split; reflexivity.
Qed.

Lemma scoring_scene (g : Game.t) :
  let g' := Game.scoring g in
  Game.platforms g' = Game.platforms g /\
  Game.enemies g' = Game.enemies g /\
  Game.bonuses g' = Game.bonuses g /\
  Game.world g' = Game.world g.
Proof. unfold Game.scoring. break_if; repeat split; reflexivity. Qed.

Lemma pickups_scene (sin : Q -> Q) (g : Game.t) :
  let g' := Game.resolve_bonus_pickups sin g in
  Game.platforms g' = Game.platforms g /\ Game.world g' = Game.world g.
Proof.
  unfold Game.resolve_bonus_pickups. break_pair. split; reflexivity.
Qed.

Lemma enemies_scene (sin : Q -> Q) (sf : Q) (g : Game.t) :
  let g' := Game.resolve_enemy_collisions sin sf g in
  Game.platforms g' = Game.platforms g /\ Game.world g' = Game.world g.
Proof.
  cbv zeta. unfold Game.resolve_enemy_collisions.
  destruct (enemy_loop_moves sin sf (Game.player g) (Game.enemies g) g eq_refl)
    as (_ & B & _).
  pose proof (enemy_loop_world sin sf (Game.enemies g) g) as W.
  destruct (Game.enemy_loop sin sf g (Game.enemies g)) as [g1 es'].
  cbn [fst snd] in *. split; [exact B | exact W].
Qed.

Lemma spawn_next_scene (g : Game.t) :
  (length (Game.platforms (Game.spawn_next g)) <= MAX_PLATFORMS_ON_SCREEN)%nat
  /\ World.spawn_y (Game.world (Game.spawn_next g)) <= - HEIGHT.
Proof.
  split; [|apply spawn_next_frontier].
  unfold Game.spawn_next. cbn [Game.platforms Game.set_platforms].
  apply limit_platforms_cap.
Qed.

Lemma update_play_scene (sin : Q -> Q) (keys : Keys) (g : Game.t) :
  let g' := Game.update_play sin keys g in
  (length (Game.platforms g') <= MAX_PLATFORMS_ON_SCREEN)%nat /\
  World.spawn_y (Game.world g') <= - HEIGHT /\
  Forall (fun p => Rect.top (Platform.rect p) <= HEIGHT + 120)
         (Game.platforms g') /\
  Forall (fun e => Rect.top (Enemy.rect e) <= HEIGHT + 120)
         (Game.enemies g') /\
  Forall (fun b => Rect.top (Bonus.rect b) <= HEIGHT + 120)
         (Game.bonuses g').
Proof.
  cbv zeta. rewrite update_play_cut. unfold before_enemies. cbv zeta.
  set (sf := World.speed_factor (Game.world (Game.sync_world g))).
  destruct (spawn_next_scene
              (Game.camera (Game.move sin sf keys (Game.sync_world g))))
    as (A1 & A2).
  set (g3 := Game.spawn_next _) in *.
  destruct (resolve_platform_collisions_scene sf g3) as (B1 & B2).
  cbv zeta in B1, B2.
  set (g4 := Game.resolve_platform_collisions sf g3) in *.
  destruct (enemies_scene sin sf g4) as (C1 & C2). cbv zeta in C1, C2.
  set (g5 := Game.resolve_enemy_collisions sin sf g4) in *.
  destruct (pickups_scene sin g5) as (D1 & D2). cbv zeta in D1, D2.
  set (g6 := Game.resolve_bonus_pickups sin g5) in *.
  destruct (cleanup_scene g6) as (E1 & E2 & E3 & E4 & E5).
  cbv zeta in E1, E2, E3, E4, E5.
  set (g7 := Game.cleanup g6) in *.
  destruct (fall_scene g7) as (F1 & F2 & F3 & F4). cbv zeta in F1, F2, F3, F4.
  set (g8 := Game.fall g7) in *.
  destruct (scoring_scene g8) as (S1 & S2 & S3 & S4).
  cbv zeta in S1, S2, S3, S4.
  set (g9 := Game.scoring g8) in *.
  cbn [Game.set_touch_x Game.platforms Game.enemies Game.bonuses Game.world].
  rewrite S1, S2, S3, S4, F1, F2, F3, F4.
  split; [rewrite D1, C1 in E1; lia|].
  split; [rewrite E2, D2, C2, B2; exact A2|].
  split; [exact E3|]. split; [exact E4 | exact E5].
Qed.

(** X27.  After every update in play the scene is bounded: there are at
    most 22 platforms, no platform, enemy or bonus has its top more than
    120 px below the screen, and the spawn frontier is at least one screen
    height above the top of the screen. *)
Theorem update_bounds_the_scene (sin : Q -> Q) (keys : Keys) (g : Game.t) :
  Game.state g = STATE_PLAY ->
  let g' := Game.update sin keys g in
  (length (Game.platforms g') <= MAX_PLATFORMS_ON_SCREEN)%nat /\
  World.spawn_y (Game.world g') <= - HEIGHT /\
  Forall (fun p => Rect.top (Platform.rect p) <= HEIGHT + 120)
         (Game.platforms g') /\
  Forall (fun e => Rect.top (Enemy.rect e) <= HEIGHT + 120)
         (Game.enemies g') /\
  Forall (fun b => Rect.top (Bonus.rect b) <= HEIGHT + 120)
         (Game.bonuses g').
Proof.
  intros Hs. rewrite (update_is_update_play sin keys g Hs).
  apply update_play_scene.
Qed.

Lemma update_bounds_the_scene_witness :
  Game.state Sample.fresh = STATE_PLAY /\
  (length (Game.platforms
             (Game.update Sample.flat_sin Sample.no_keys Sample.fresh))
   <= MAX_PLATFORMS_ON_SCREEN)%nat.
Proof.
  split; [reflexivity|].
  exact (proj1 (update_bounds_the_scene
                  Sample.flat_sin Sample.no_keys Sample.fresh eq_refl)).
Defined.

(* ------------------------------------------------------------------------- *)
(** ** Picking a question *)
(* ------------------------------------------------------------------------- *)

Lemma quiz_answers_in_range :
  Forall (fun c => ans c = 0 \/ ans c = 1 \/ ans c = 2 \/ ans c = 3) QUIZ.
Proof.
  unfold QUIZ. cbn [map].
  repeat (constructor;
          [cbn [ans];
           first [ left; reflexivity
                 | right; left; reflexivity
                 | right; right; left; reflexivity
                 | right; right; right; reflexivity ]|]).
  constructor.
Qed.

Lemma choice_in_bank (rnd : Random.t) :
  In (fst (Random.choice (mkQuestion 0) QUIZ rnd)) QUIZ.
Proof.
  unfold Random.choice, Random.next. cbn [fst].
  apply nth_In. apply Nat.mod_upper_bound. discriminate.
Qed.

(** X28.  Picking a question takes one draw, puts the cursor on the first
    option and clears the feedback and its timer.  The question comes from
    the bank, its answer index is one of the four options, and moving the
    cursor down that many times and confirming is reported as a right
    answer: every question that can be asked can be answered. *)
Theorem picked_question_is_answerable (rnd : Random.t) (q : QuizUI.t) :
  let q' := fst (QuizUI.pick rnd q) in
  let down := fun q0 => fst (QuizUI.handle (KEYDOWN K_DOWN) q0) in
  QuizUI.selected q' = 0 /\ QuizUI.has_feedback q' = false /\
  QuizUI.feedback_timer q' = 0 /\
  Random.pos (snd (QuizUI.pick rnd q)) = S (Random.pos rnd) /\
  exists c : Question,
    QuizUI.cur q' = Some c /\ In c QUIZ /\ 0 <= ans c < 4 /\
    snd (QuizUI.handle (KEYDOWN K_RETURN)
                       (Nat.iter (Z.to_nat (ans c)) down q'))
    = (true, true).
Proof.
  cbv zeta. unfold QuizUI.pick.
  pose proof (choice_in_bank rnd) as Hin.
  assert (Hp : Random.pos (snd (Random.choice (mkQuestion 0) QUIZ rnd))
               = S (Random.pos rnd)) by reflexivity.
  destruct (Random.choice (mkQuestion 0) QUIZ rnd) as [c rnd'].
  cbn [fst snd] in *.
  split; [reflexivity|]. split; [reflexivity|]. split; [reflexivity|].
  split; [exact Hp|].
  exists c. split; [reflexivity|]. split; [exact Hin|].
  pose proof (proj1 (Forall_forall _ _) quiz_answers_in_range c Hin) as Ha.
  destruct c as [a]. cbn [ans] in *.
  destruct Ha as [Ha|[Ha|[Ha|Ha]]]; subst a; (split; [lia | reflexivity]).
Qed.

(* ------------------------------------------------------------------------- *)
(** ** Pointer input and the kinds of enemies and bonuses *)
(* ------------------------------------------------------------------------- *)

Lemma play_events_from (evs : list Event) :
  forall g : Game.t,
    Game.state g = STATE_PLAY ->
    Forall (fun ev => ev <> QUIT /\ ev <> KEYDOWN K_ESCAPE) evs ->
    Game.handle_events_from evs g
    = Some (Game.set_touch_x (last_touch (Game.touch_x g) evs) g).
Proof.
  induction evs as [|ev evs IH]; intros g Hs Hev;
    cbn [Game.handle_events_from].
  - unfold last_touch. cbn [fold_left]. rewrite set_touch_x_same.
    reflexivity.
  - inversion Hev as [|? ? [Hq He] Hrest]; subst.
    assert (E : Game.handle_event ev g
                = Some (Game.set_touch_x (last_touch (Game.touch_x g) [ev])
                                         g)).
    { unfold last_touch. cbn [fold_left].
      destruct ev as [|k|x|x b|]; try congruence.
      - unfold Game.handle_event. rewrite Hs, set_touch_x_same.
        destruct k; try reflexivity. congruence.
      - unfold Game.handle_event.
        change (Game.state (Game.set_touch_x (Some x) g))
          with (Game.state g).
        rewrite Hs. reflexivity.
      - destruct b.
        + unfold Game.handle_event.
          change (Game.state (Game.set_touch_x (Some x) g))
            with (Game.state g).
          rewrite Hs. reflexivity.
        + unfold Game.handle_event. rewrite Hs, set_touch_x_same.
          reflexivity.
      - unfold Game.handle_event. rewrite Hs, set_touch_x_same.
        reflexivity. }
    rewrite E. rewrite IH; [|exact Hs | exact Hrest].
    unfold last_touch. cbn [fold_left Game.touch_x Game.set_touch_x].
    reflexivity.
Qed.

(** X29.  During play, a frame whose events hold neither the close request
    nor Escape changes nothing of the game but the stored pointer
    position, which becomes that of the frame's last press or drag, or
    nothing when there is none: the position of the frame before is
    forgotten.  The update that follows steers by it and clears it, so a
    touch steers for one frame only. *)
Theorem touch_lasts_one_frame (sin : Q -> Q) (evs : list Event)
        (keys : Keys) (g : Game.t) :
  Game.state g = STATE_PLAY ->
  Forall (fun ev => ev <> QUIT /\ ev <> KEYDOWN K_ESCAPE) evs ->
  Game.handle_events evs g
  = Some (Game.set_touch_x (last_touch None evs) g) /\
  Game.frame sin evs keys g
  = Some (Game.update sin keys (Game.set_touch_x (last_touch None evs) g)) /\
  (forall g' : Game.t,
      Game.frame sin evs keys g = Some g' -> Game.touch_x g' = None).
Proof.
  intros Hs Hev.
  assert (E : Game.handle_events evs g
              = Some (Game.set_touch_x (last_touch None evs) g)).
  { unfold Game.handle_events.
    rewrite (play_events_from evs (Game.set_touch_x None g) Hs Hev).
    reflexivity. }
  split; [exact E|].
  assert (F : Game.frame sin evs keys g
              = Some (Game.update sin keys
                        (Game.set_touch_x (last_touch None evs) g))).
  { unfold Game.frame. rewrite E. reflexivity. }
  split; [exact F|].
  intros g' Hg. rewrite F in Hg. injection Hg as <-.
  rewrite update_is_update_play by exact Hs.
  reflexivity.
Qed.

Lemma touch_lasts_one_frame_witness :
  Game.handle_events [MOUSEBUTTONDOWN 100; MOUSEMOTION 40 true; KEYDOWN K_p]
                     Sample.fresh
  = Some (Game.set_touch_x (Some 40) Sample.fresh).
Proof.
  apply (touch_lasts_one_frame
           Sample.flat_sin
           [MOUSEBUTTONDOWN 100; MOUSEMOTION 40 true; KEYDOWN K_p]
           Sample.no_keys Sample.fresh eq_refl).
  repeat constructor; discriminate.
Defined.

Lemma second_draw (n : N) :
  (n < 2 ^ 53)%N ->
  let rnd := Random.mk (fun i => match i with O => 0%N | S _ => n end) 0 in
  fst (Random.random rnd) = Qmake 0 (2 ^ 53) /\
  fst (Random.random (snd (Random.random rnd))) = Qmake (Z.of_N n) (2 ^ 53).
Proof.
  intros Hn. cbv zeta. unfold Random.random, Random.next.
  cbn [fst snd Random.raw Random.pos].
  split; [reflexivity|]. rewrite N.mod_small by exact Hn. reflexivity.
Qed.

Lemma enemy_chain (r e1 e2 e3 : Q) :
  let k :=
    if Qlt_bool r e1 then E_BULB
    else if Qlt_bool r e2 then E_PIPE
    else if Qlt_bool r e3 then E_SMOKE
    else E_CHASER in
  (e1 <= e2)%Q -> (e2 <= e3)%Q ->
  ((r < e1)%Q -> k = E_BULB) /\
  ((e1 <= r)%Q -> (r < e2)%Q -> k = E_PIPE) /\
  ((e2 <= r)%Q -> (r < e3)%Q -> k = E_SMOKE) /\
  ((e3 <= r)%Q -> k = E_CHASER).
Proof.
  cbv zeta. intros O1 O2.
  repeat split; intros; decide_bands; reflexivity.
Qed.

Lemma bonus_chain (r e1 e2 e3 e4 : Q) :
  let k :=
    if Qlt_bool r e1 then B_CELL
    else if Qlt_bool r e2 then B_LED
    else if Qlt_bool r e3 then B_SHIELD
    else if Qlt_bool r e4 then B_JET
    else B_SPRING in
  (e1 <= e2)%Q -> (e2 <= e3)%Q -> (e3 <= e4)%Q ->
  ((r < e1)%Q -> k = B_CELL) /\
  ((e1 <= r)%Q -> (r < e2)%Q -> k = B_LED) /\
  ((e2 <= r)%Q -> (r < e3)%Q -> k = B_SHIELD) /\
  ((e3 <= r)%Q -> (r < e4)%Q -> k = B_JET) /\
  ((e4 <= r)%Q -> k = B_SPRING).
Proof.
  cbv zeta. intros O1 O2 O3.
  repeat split; intros; decide_bands; reflexivity.
Qed.

Lemma cell_edge (p : Q) :
  (0 <= p)%Q -> (p <= 1)%Q ->
  (b64 0.25 <= edge 0.40 0.15 p)%Q /\ (edge 0.40 0.15 p <= b64 0.40)%Q /\
  (Qabs (edge 0.40 0.15 p - (0.40 - 0.15 * p)) <= pow2 (-50))%Q.
Proof.
  intros P0 P1. unfold edge.
  destruct (edge_bounds (b64 0.40) (b64 0.15) p P0 P1) as [A B];
    [vm_compute; discriminate|].
  split; [|split].
  - eapply Qle_trans; [|exact A]. vm_compute. discriminate.
  - eapply Qle_trans; [exact B|]. vm_compute. discriminate.
  - apply edge_near; lra.
Qed.

Lemma cell_edge_mono (p p' : Q) :
  (0 <= p)%Q -> (p <= p')%Q -> (edge 0.40 0.15 p' <= edge 0.40 0.15 p)%Q.
Proof.
  intros P0 H. unfold edge, fsub, fmul. apply b64_mono.
  assert (C : (0 <= b64 0.15)%Q) by (vm_compute; discriminate).
  assert (M : (b64 (b64 0.15 * p) <= b64 (b64 0.15 * p'))%Q).
  { apply b64_mono. generalize dependent (b64 0.15). intros. nra. }
  generalize dependent (b64 (b64 0.15 * p)).
  generalize dependent (b64 (b64 0.15 * p')). intros. lra.
Qed.

Lemma enemy_kind_bands (w : World.t) :
  let r0 := fst (Random.random (World.rng w)) in
  let r := fst (Random.random (snd (Random.random (World.rng w)))) in
  (r0 < World.enemy_spawn_chance64 w)%Q ->
  ((r < b64 0.40)%Q -> fst (World.choose_enemy w) = Some E_BULB) /\
  ((b64 0.40 <= r)%Q -> (r < b64 0.70)%Q ->
   fst (World.choose_enemy w) = Some E_PIPE) /\
  ((b64 0.70 <= r)%Q -> (r < b64 0.85)%Q ->
   fst (World.choose_enemy w) = Some E_SMOKE) /\
  ((b64 0.85 <= r)%Q -> fst (World.choose_enemy w) = Some E_CHASER).
Proof.
  cbv zeta. unfold World.choose_enemy.
  destruct (Random.random (World.rng w)) as [r0 g0]. cbn [fst snd].
  destruct (Random.random g0) as [r g]. cbn [fst].
  intros H0. rewrite (proj2 (Qlt_bool_true _ _) H0). cbn [fst].
  destruct (enemy_chain r (b64 0.40) (b64 0.70) (b64 0.85))
    as (A & B & C & D); [vm_compute; discriminate..|].
  repeat split; intros; f_equal; auto.
Qed.

Lemma bonus_kind_bands (w : World.t) :
  let p := World.progress_factor64 w in
  let r0 := fst (Random.random (World.rng w)) in
  let r := fst (Random.random (snd (Random.random (World.rng w)))) in
  (r0 < b64 BONUS_CHANCE_BASE)%Q ->
  ((r < edge 0.40 0.15 p)%Q -> fst (World.choose_bonus w) = Some B_CELL) /\
  ((edge 0.40 0.15 p <= r)%Q -> (r < b64 0.60)%Q ->
   fst (World.choose_bonus w) = Some B_LED) /\
  ((b64 0.60 <= r)%Q -> (r < b64 0.80)%Q ->
   fst (World.choose_bonus w) = Some B_SHIELD) /\
  ((b64 0.80 <= r)%Q -> (r < b64 0.93)%Q ->
   fst (World.choose_bonus w) = Some B_JET) /\
  ((b64 0.93 <= r)%Q -> fst (World.choose_bonus w) = Some B_SPRING).
Proof.
  cbv zeta. unfold World.choose_bonus.
  destruct (progress_factor64_bounds w) as [P0 P1].
  destruct (cell_edge _ P0 P1) as (_ & CE & _).
  destruct (Random.random (World.rng w)) as [r0 g0]. cbn [fst snd].
  destruct (Random.random g0) as [r g]. cbn [fst].
  intros H0. rewrite (proj2 (Qlt_bool_true _ _) H0). cbn [fst].
  unfold edge in *.
  destruct (bonus_chain r
              (fsub (b64 0.40) (fmul (b64 0.15) (World.progress_factor64 w)))
              (b64 0.60) (b64 0.80) (b64 0.93))
    as (A & B & C & D & E);
    [eapply Qle_trans; [exact CE|]; vm_compute; discriminate
    |vm_compute; discriminate..|].
  repeat split; intros; f_equal; auto.
Qed.

(** X30.  When an enemy is spawned its kind is read off the second draw
    [r] by edges that are doubles: bulb below 0.40, pipe up to 0.70, smoke
    up to 0.85, chaser from there on.  When a bonus is spawned its kind is
    read off the second draw too: energy cell below 0.40 - 0.15p, where
    [p] is the progress and the edge is evaluated in floats, LED up to
    0.60, shield up to 0.80, jet up to 0.93 and spring from there on.  The
    cell edge lies between the doubles 0.25 and 0.40, within 2^-50 of the
    decimal formula, and does not grow with the score, so the share of
    cells shrinks as the score grows.  At every score every enemy kind
    and every bonus kind is chosen by some pair of draws. *)
Theorem enemy_and_bonus_kind_bands :
  (forall w : World.t,
      let p := World.progress_factor64 w in
      let r0 := fst (Random.random (World.rng w)) in
      let r := fst (Random.random (snd (Random.random (World.rng w)))) in
      let cell := edge 0.40 0.15 p in
      ((r0 < World.enemy_spawn_chance64 w)%Q ->
       ((r < b64 0.40)%Q -> fst (World.choose_enemy w) = Some E_BULB) /\
       ((b64 0.40 <= r)%Q -> (r < b64 0.70)%Q ->
        fst (World.choose_enemy w) = Some E_PIPE) /\
       ((b64 0.70 <= r)%Q -> (r < b64 0.85)%Q ->
        fst (World.choose_enemy w) = Some E_SMOKE) /\
       ((b64 0.85 <= r)%Q -> fst (World.choose_enemy w) = Some E_CHASER)) /\
      ((r0 < b64 BONUS_CHANCE_BASE)%Q ->
       ((r < cell)%Q -> fst (World.choose_bonus w) = Some B_CELL) /\
       ((cell <= r)%Q -> (r < b64 0.60)%Q ->
        fst (World.choose_bonus w) = Some B_LED) /\
       ((b64 0.60 <= r)%Q -> (r < b64 0.80)%Q ->
        fst (World.choose_bonus w) = Some B_SHIELD) /\
       ((b64 0.80 <= r)%Q -> (r < b64 0.93)%Q ->
        fst (World.choose_bonus w) = Some B_JET) /\
       ((b64 0.93 <= r)%Q -> fst (World.choose_bonus w) = Some B_SPRING)) /\
      ((b64 0.25 <= cell)%Q /\ (cell <= b64 0.40)%Q /\
       (Qabs (cell - (0.40 - 0.15 * p)) <= pow2 (-50))%Q) /\
      (forall w' : World.t,
          World.score w <= World.score w' ->
          (edge 0.40 0.15 (World.progress_factor64 w') <= cell)%Q)) /\
  (forall (spawn_y score : Z) (k : EnemyKind),
      exists n : N,
        fst (World.choose_enemy
               (World.mk spawn_y
                  (Random.mk (fun i => match i with O => 0%N | S _ => n end) 0)
                  score))
        = Some k) /\
  (forall (spawn_y score : Z) (k : BonusKind),
      exists n : N,
        fst (World.choose_bonus
               (World.mk spawn_y
                  (Random.mk (fun i => match i with O => 0%N | S _ => n end) 0)
                  score))
        = Some k).
Proof.
  split; [|split].
  - intros w. cbv zeta.
    destruct (progress_factor64_bounds w) as [P0 P1].
    split; [exact (enemy_kind_bands w)|].
    split; [exact (bonus_kind_bands w)|].
    split; [exact (cell_edge _ P0 P1)|].
    intros w' H. apply cell_edge_mono; [exact P0|].
    apply progress_factor64_mono. exact H.
  - intros sy s k.
    assert (at_draw : forall (n : N) (q : Q),
               (n < 2 ^ 53)%N -> (Qmake (Z.of_N n) (2 ^ 53) == q)%Q ->
               let w := World.mk sy
                          (Random.mk
                             (fun i => match i with O => 0%N | S _ => n end) 0)
                          s in
               ((q < b64 0.40)%Q -> fst (World.choose_enemy w) = Some E_BULB) /\
               ((b64 0.40 <= q)%Q -> (q < b64 0.70)%Q ->
                fst (World.choose_enemy w) = Some E_PIPE) /\
               ((b64 0.70 <= q)%Q -> (q < b64 0.85)%Q ->
                fst (World.choose_enemy w) = Some E_SMOKE) /\
               ((b64 0.85 <= q)%Q -> fst (World.choose_enemy w) = Some E_CHASER)).
    { intros n q Hn Eq. cbv zeta.
      set (w := World.mk sy _ s).
      pose proof (enemy_kind_bands w) as H. cbv zeta in H.
      destruct (second_draw n Hn) as [D0 D1]. cbv zeta in D0, D1.
      change (World.rng w)
        with (Random.mk (fun i => match i with O => 0%N | S _ => n end) 0)
        in H.
      rewrite D0, D1 in H.
      destruct (enemy_spawn_chance64_bounds w) as [C0 _].
      assert (Z : (0 # 2 ^ 53 < World.enemy_spawn_chance64 w)%Q).
      { eapply Qlt_le_trans; [|exact C0]. vm_compute. reflexivity. }
      destruct (H Z) as (H1 & H2 & H3 & H4).
      repeat split; intros; [apply H1|apply H2|apply H3|apply H4];
        rewrite Eq; assumption. }
    destruct k.
    + exists (2 ^ 51)%N.
      apply (proj1 (at_draw (2 ^ 51)%N 0.25%Q eq_refl eq_refl)).
      vm_compute. reflexivity.
    + exists (2 ^ 52)%N.
      apply (proj1 (proj2 (at_draw (2 ^ 52)%N 0.5%Q eq_refl eq_refl)));
        vm_compute; [discriminate | reflexivity].
    + exists (3 * 2 ^ 51)%N.
      apply (proj1 (proj2 (proj2
               (at_draw (3 * 2 ^ 51)%N 0.75%Q eq_refl eq_refl))));
        vm_compute; [discriminate | reflexivity].
    + exists (7 * 2 ^ 50)%N.
      apply (proj2 (proj2 (proj2
               (at_draw (7 * 2 ^ 50)%N 0.875%Q eq_refl eq_refl)))).
      vm_compute. discriminate.
  - intros sy s k.
    assert (at_draw : forall (n : N) (q : Q),
               (n < 2 ^ 53)%N -> (Qmake (Z.of_N n) (2 ^ 53) == q)%Q ->
               let w := World.mk sy
                          (Random.mk
                             (fun i => match i with O => 0%N | S _ => n end) 0)
                          s in
               let cell := edge 0.40 0.15 (World.progress_factor64 w) in
               (((q < cell)%Q -> fst (World.choose_bonus w) = Some B_CELL) /\
                ((cell <= q)%Q -> (q < b64 0.60)%Q ->
                 fst (World.choose_bonus w) = Some B_LED) /\
                ((b64 0.60 <= q)%Q -> (q < b64 0.80)%Q ->
                 fst (World.choose_bonus w) = Some B_SHIELD) /\
                ((b64 0.80 <= q)%Q -> (q < b64 0.93)%Q ->
                 fst (World.choose_bonus w) = Some B_JET) /\
                ((b64 0.93 <= q)%Q ->
                 fst (World.choose_bonus w) = Some B_SPRING)) /\
               (b64 0.25 <= cell)%Q /\ (cell <= b64 0.40)%Q).
    { intros n q Hn Eq. cbv zeta.
      set (w := World.mk sy _ s).
      pose proof (bonus_kind_bands w) as H. cbv zeta in H.
      destruct (second_draw n Hn) as [D0 D1]. cbv zeta in D0, D1.
      change (World.rng w)
        with (Random.mk (fun i => match i with O => 0%N | S _ => n end) 0)
        in H.
      rewrite D0, D1 in H.
      assert (Z : (0 # 2 ^ 53 < b64 BONUS_CHANCE_BASE)%Q)
        by (vm_compute; reflexivity).
      destruct (progress_factor64_bounds w) as [P0 P1].
      destruct (cell_edge _ P0 P1) as (CA & CB & _).
      split; [|split; assumption].
      destruct (H Z) as (H1 & H2 & H3 & H4 & H5).
      repeat split; intros; [apply H1|apply H2|apply H3|apply H4|apply H5];
        rewrite Eq; assumption. }
    assert (N25 : (0.125 < b64 0.25)%Q) by (vm_compute; reflexivity).
    assert (N40 : (b64 0.40 <= 0.5)%Q) by (vm_compute; discriminate).
    destruct k.
    + exists (2 ^ 50)%N.
      destruct (at_draw (2 ^ 50)%N 0.125%Q eq_refl eq_refl)
        as ((H & _) & CA & CB).
      apply H. eapply Qlt_le_trans; [exact N25 | exact CA].
    + exists (2 ^ 52)%N.
      destruct (at_draw (2 ^ 52)%N 0.5%Q eq_refl eq_refl)
        as ((_ & H & _) & CA & CB).
      apply H; [eapply Qle_trans; [exact CB | exact N40]
               | vm_compute; reflexivity].
    + exists (3 * 2 ^ 51)%N.
      destruct (at_draw (3 * 2 ^ 51)%N 0.75%Q eq_refl eq_refl)
        as ((_ & _ & H & _) & _).
      apply H; vm_compute; [discriminate | reflexivity].
    + exists (7 * 2 ^ 50)%N.
      destruct (at_draw (7 * 2 ^ 50)%N 0.875%Q eq_refl eq_refl)
        as ((_ & _ & _ & H & _) & _).
      apply H; vm_compute; [discriminate | reflexivity].
    + exists (31 * 2 ^ 48)%N.
      destruct (at_draw (31 * 2 ^ 48)%N 0.96875%Q eq_refl eq_refl)
        as ((_ & _ & _ & _ & H) & _).
      apply H; vm_compute; discriminate.
Qed.
